(** * Clawhammer banjo tab generator: audio playback core

    A shallow embedding of the audio engine (pitch mapping, the
    Karplus-Strong string synthesizer, the look-ahead sequencer with its
    timers) and of the tab generator that feeds it, followed by the
    properties of the design specification stated over that embedding.

    Numbers.  The engine computes with JavaScript doubles.  Times, gains
    and sample values are modelled as exact rationals ([Q]); the pitch
    mapping, which needs [2^(1/12)], is modelled over the reals ([R]).
    Rounding of doubles and of [Float32Array] cells is not modelled. *)

From Stdlib Require Import ZArith QArith Qround Qabs Reals Lra Lqa Lia Ascii String.
From Stdlib Require Import Sorting.Sorted.
From stdpp Require Import base option list sorting strings gmap pretty.

(** Linear arithmetic over the reals and over the rationals. *)
Ltac lraR := Lra.lra.
Ltac lraQ := Lqa.lra.

(* ================================================================== *)
(** * JavaScript primitives used by the engine                         *)
(* ================================================================== *)

Module JS.

(** [Math.round x]: the integer nearest to [x], ties towards +infinity. *)
Definition Math_round (x : Q) : Z := Qfloor (x + (1 # 2)).

(** [Math.ceil x]. *)
Definition Math_ceil (x : Q) : Z := Qceiling x.

(** The same rounding over the reals, for frequencies that are not
    rational. *)
Definition Math_round_R (x : R) : Z := Int_part (x + / 2)%R.

(** [a % b] on integers: the remainder has the sign of the dividend. *)
Definition rem (a b : Z) : Z := Z.rem a b.

(** ASCII white space skipped by [parseInt] (TAB, LF, VT, FF, CR, SP).
    The non-ASCII white space of ECMAScript is outside this model. *)
Definition is_space (c : ascii) : bool :=
  let n := nat_of_ascii c in
  ((9 <=? n) && (n <=? 13)) || (n =? 32).

Definition digit_of (c : ascii) : option Z :=
  let n := nat_of_ascii c in
  if (48 <=? n) && (n <=? 57) then Some (Z.of_nat (n - 48)) else None.

Fixpoint skip_space (s : string) : string :=
  match s with
  | String c s' => if is_space c then skip_space s' else s
  | EmptyString => s
  end.

(** Longest prefix of decimal digits, as a number; [None] when the prefix
    is empty. *)
Fixpoint read_digits (s : string) (acc : option Z) : option Z :=
  match s with
  | String c s' =>
      match digit_of c with
      | Some d => read_digits s' (Some (10 * default 0%Z acc + d)%Z)
      | None => acc
      end
  | EmptyString => acc
  end.

(** [parseInt(s, 10)]; [None] stands for [NaN]. *)
Definition parseInt (s : string) : option Z :=
  match skip_space s with
  | String "-" s' => Z.opp <$> read_digits s' None
  | String "+" s' => read_digits s' None
  | s' => read_digits s' None
  end.

(** [n.toString()] for an integer. *)
Definition toString (n : Z) : string := pretty n.

End JS.

(* ================================================================== *)
(** * Pitch mapper                                                     *)
(* ================================================================== *)

Module Pitch.

(** Open-string MIDI notes (open G): d, B, G, D, g. *)
Definition OPEN_MIDI : list Z := [74; 71; 67; 62; 79]%Z.

Definition midiToFreq (note : Z) : R :=
  (440 * Rpower 2 ((IZR note - 69) / 12))%R.

(** The pitch computation of [scheduleNote]:
    [midiToFreq(OPEN_MIDI[str] + fret)].  [None] when [str] is not a
    string index ([OPEN_MIDI[str]] is [undefined]). *)
Definition pitchToFrequency (str : nat) (fret : Z) : option R :=
  (fun open => midiToFreq (open + fret)) <$> OPEN_MIDI !! str.

(** Length of the delay line [pluckString] allocates for a note:
    [Math.round(sampleRate / freq)]. *)
Definition bufLen (sampleRate : R) (freq : R) : Z :=
  JS.Math_round_R (sampleRate / freq)%R.

End Pitch.

(* ================================================================== *)
(** * String synthesizer (Karplus-Strong)                              *)
(* ================================================================== *)

Module KarplusStrong.

(** A cell of a [Float32Array], or a number read from one: [None] is
    [NaN] (what reading past the end of the array yields once it is used
    in arithmetic or stored back into a typed array). *)
Definition sample : Type := option Q.

Definition sadd (a b : sample) : sample :=
  match a, b with
  | Some x, Some y => Some (x + y)%Q
  | _, _ => None
  end.

Definition smul (a b : sample) : sample :=
  match a, b with
  | Some x, Some y => Some (x * y)%Q
  | _, _ => None
  end.

(** An array index: a number, or [NaN] ([None]) after [% 0]. *)
Definition index : Type := option nat.

(** [arr[i]]. *)
Definition read (arr : list sample) (i : index) : sample :=
  match i with
  | Some k => default None (arr !! k)
  | None => None
  end.

(** [arr[i] = v] on a typed array: ignored when [i] is not an index of
    the array. *)
Definition write (arr : list sample) (i : index) (v : sample) : list sample :=
  match i with
  | Some k => <[k:=v]> arr
  | None => arr
  end.

(** [(ptr + 1) % bufLen]. *)
Definition next_index (ptr : index) (bufLen : nat) : index :=
  match ptr with
  | Some p => if bufLen =? 0 then None else Some ((p + 1) mod bufLen)
  | None => None
  end.

Record ks_state : Type := {
  out : list sample;
  delay : list sample;
  ptr : index
}.

(** Body of the feedback loop for sample number [n]. *)
Definition ks_body (decay : Q) (bufLen : nat) (n : nat) (s : ks_state)
  : ks_state :=
  let next := next_index (ptr s) bufLen in
  let cur := read (delay s) (ptr s) in
  {| out := <[n:=cur]> (out s);
     delay := write (delay s) (ptr s)
                (smul (smul (Some decay) (Some 0.5%Q))
                      (sadd cur (read (delay s) next)));
     ptr := next |}.

(** [for (let n = from; n < from + count; n++) body]. *)
Fixpoint ks_loop (decay : Q) (bufLen : nat) (count from : nat) (s : ks_state)
  : ks_state :=
  match count with
  | O => s
  | S c => ks_loop decay bufLen c (S from) (ks_body decay bufLen from s)
  end.

(** What one call of [pluckString] hands to the audio graph: the baked
    buffer with its gain and start time. *)
Record pluck : Type := {
  p_bufLen : nat;
  p_totalSamples : nat;
  p_seed : list sample;
  p_buffer : list sample;
  p_gain : Q;
  p_when : Q
}.

Section Pluck.

(** [random i] is the result of the [i]-th call of [Math.random()]. *)
Variable random : nat -> Q.

Definition seed_noise (bufLen : nat) : list sample :=
  (fun i => Some (random i * 2 - 1)%Q) <$> seq 0 bufLen.

(** State of the loop started on the seeded delay line, after [n]
    iterations. *)
Definition ks_run (decay : Q) (bufLen totalSamples n : nat) : ks_state :=
  ks_loop decay bufLen n 0
    {| out := replicate totalSamples (Some 0%Q);
       delay := seed_noise bufLen;
       ptr := Some 0 |}.

(** [pluckString(ctx, freq, gain, when, decay)] on a context of sample
    rate [sampleRate].  [None] is the [RangeError] of an invalid typed
    array length (division by zero gives an infinite length). *)
Definition pluckString (sampleRate freq gain when decay : Q) : option pluck :=
  if Qeq_bool freq 0 then None else
  let bufLen := JS.Math_round (sampleRate / freq) in
  let totalSamples := (JS.Math_ceil (sampleRate * 3) + bufLen * 2)%Z in
  if ((bufLen <? 0) || (totalSamples <? 0))%Z then None else
  let bufLen := Z.to_nat bufLen in
  let totalSamples := Z.to_nat totalSamples in
  Some {| p_bufLen := bufLen;
          p_totalSamples := totalSamples;
          p_seed := seed_noise bufLen;
          p_buffer := out (ks_run decay bufLen totalSamples totalSamples);
          p_gain := gain;
          p_when := when |}.

End Pluck.

End KarplusStrong.

(* ================================================================== *)
(** * Look-ahead sequencer                                             *)
(* ================================================================== *)

Module Sequencer.

(** A measure is a grid of cells, strings by positions; nothing in the
    engine checks that it is 5 by 16. *)
Definition measure : Type := list (list string).
Definition timeline : Type := list measure.

(** The completion callback is opaque to the engine: it is identified by
    a number and its invocations are recorded. *)
Definition callback : Type := nat.

(** The [playOpts] object; a missing property is [None]. *)
Record playOpts : Type := {
  enabled : option bool;
  accentDownbeat : option bool;
  metroPitch : option Q;
  banjoVolume : option Q;
  metroVolume : option Q
}.

(** Invocations of the two synthesizers, with their arguments.  The
    frequency handed to [pluckString] is [midiToFreq midiNote]; the
    record keeps the MIDI note it is computed from. *)
Inductive synth_call : Type :=
  | Click (when : Q) (isAccent : bool) (pitch : Q)
  | Pluck (midiNote : Z) (gain : Q) (when : Q) (decay : Q).

Definition call_time (c : synth_call) : Q :=
  match c with
  | Click when _ _ => when
  | Pluck _ _ when _ => when
  end.

Definition is_click (c : synth_call) : bool :=
  match c with
  | Click _ _ _ => true
  | Pluck _ _ _ _ => false
  end.

(** One call [scheduleNote(measureIdx, pos, time)] and the synthesizer
    invocations it made, in order. *)
Record note_record : Type := {
  n_measure : nat;
  n_pos : nat;
  n_time : Q;
  n_calls : list synth_call
}.

(** What a pending [setTimeout] runs: the [scheduler] function, or the
    closure of the natural-end fallback. *)
Inductive timer_action : Type := RunScheduler | RunDrain.

Record timer : Type := {
  tid : nat;
  due : Q;
  action : timer_action
}.

(** The module-level variables of the engine, the timer queue of the
    event loop ([clock] in milliseconds, [timers], [nextTimer]) and two
    history variables: [notes], the [scheduleNote] calls since the last
    [playSong], and [fired], the completion callbacks invoked so far.
    [audioCtx] holds the [currentTime] (seconds) of the live context, the
    gain fields the target value of each bus. *)
Record state : Type := mkState {
  audioCtx : option Q;
  banjoMasterGain : option Q;
  metroMasterGain : option Q;
  isPlaying : bool;
  currentBpm : Q;
  currentMeasures : timeline;
  currentPlayOpts : playOpts;
  masterOnStop : option callback;
  nextNoteTime : Q;
  currentMeasure : nat;
  currentPos : nat;
  timerID : option nat;
  clock : Q;
  timers : list timer;
  nextTimer : nat;
  notes : list note_record;
  fired : list callback
}.

Definition set_audioCtx (v : option Q) (st : state) : state :=
  mkState v (banjoMasterGain st) (metroMasterGain st) (isPlaying st)
    (currentBpm st) (currentMeasures st) (currentPlayOpts st) (masterOnStop
    st) (nextNoteTime st) (currentMeasure st) (currentPos st) (timerID st)
    (clock st) (timers st) (nextTimer st) (notes st) (fired st).

Definition set_banjoMasterGain (v : option Q) (st : state) : state :=
  mkState (audioCtx st) v (metroMasterGain st) (isPlaying st) (currentBpm
    st) (currentMeasures st) (currentPlayOpts st) (masterOnStop st)
    (nextNoteTime st) (currentMeasure st) (currentPos st) (timerID st)
    (clock st) (timers st) (nextTimer st) (notes st) (fired st).

Definition set_metroMasterGain (v : option Q) (st : state) : state :=
  mkState (audioCtx st) (banjoMasterGain st) v (isPlaying st) (currentBpm
    st) (currentMeasures st) (currentPlayOpts st) (masterOnStop st)
    (nextNoteTime st) (currentMeasure st) (currentPos st) (timerID st)
    (clock st) (timers st) (nextTimer st) (notes st) (fired st).

Definition set_isPlaying (v : bool) (st : state) : state :=
  mkState (audioCtx st) (banjoMasterGain st) (metroMasterGain st) v
    (currentBpm st) (currentMeasures st) (currentPlayOpts st) (masterOnStop
    st) (nextNoteTime st) (currentMeasure st) (currentPos st) (timerID st)
    (clock st) (timers st) (nextTimer st) (notes st) (fired st).

Definition set_currentBpm (v : Q) (st : state) : state :=
  mkState (audioCtx st) (banjoMasterGain st) (metroMasterGain st) (isPlaying
    st) v (currentMeasures st) (currentPlayOpts st) (masterOnStop st)
    (nextNoteTime st) (currentMeasure st) (currentPos st) (timerID st)
    (clock st) (timers st) (nextTimer st) (notes st) (fired st).

Definition set_currentMeasures (v : timeline) (st : state) : state :=
  mkState (audioCtx st) (banjoMasterGain st) (metroMasterGain st) (isPlaying
    st) (currentBpm st) v (currentPlayOpts st) (masterOnStop st)
    (nextNoteTime st) (currentMeasure st) (currentPos st) (timerID st)
    (clock st) (timers st) (nextTimer st) (notes st) (fired st).

Definition set_currentPlayOpts (v : playOpts) (st : state) : state :=
  mkState (audioCtx st) (banjoMasterGain st) (metroMasterGain st) (isPlaying
    st) (currentBpm st) (currentMeasures st) v (masterOnStop st)
    (nextNoteTime st) (currentMeasure st) (currentPos st) (timerID st)
    (clock st) (timers st) (nextTimer st) (notes st) (fired st).

Definition set_masterOnStop (v : option callback) (st : state) : state :=
  mkState (audioCtx st) (banjoMasterGain st) (metroMasterGain st) (isPlaying
    st) (currentBpm st) (currentMeasures st) (currentPlayOpts st) v
    (nextNoteTime st) (currentMeasure st) (currentPos st) (timerID st)
    (clock st) (timers st) (nextTimer st) (notes st) (fired st).

Definition set_nextNoteTime (v : Q) (st : state) : state :=
  mkState (audioCtx st) (banjoMasterGain st) (metroMasterGain st) (isPlaying
    st) (currentBpm st) (currentMeasures st) (currentPlayOpts st)
    (masterOnStop st) v (currentMeasure st) (currentPos st) (timerID st)
    (clock st) (timers st) (nextTimer st) (notes st) (fired st).

Definition set_currentMeasure (v : nat) (st : state) : state :=
  mkState (audioCtx st) (banjoMasterGain st) (metroMasterGain st) (isPlaying
    st) (currentBpm st) (currentMeasures st) (currentPlayOpts st)
    (masterOnStop st) (nextNoteTime st) v (currentPos st) (timerID st)
    (clock st) (timers st) (nextTimer st) (notes st) (fired st).

Definition set_currentPos (v : nat) (st : state) : state :=
  mkState (audioCtx st) (banjoMasterGain st) (metroMasterGain st) (isPlaying
    st) (currentBpm st) (currentMeasures st) (currentPlayOpts st)
    (masterOnStop st) (nextNoteTime st) (currentMeasure st) v (timerID st)
    (clock st) (timers st) (nextTimer st) (notes st) (fired st).

Definition set_timerID (v : option nat) (st : state) : state :=
  mkState (audioCtx st) (banjoMasterGain st) (metroMasterGain st) (isPlaying
    st) (currentBpm st) (currentMeasures st) (currentPlayOpts st)
    (masterOnStop st) (nextNoteTime st) (currentMeasure st) (currentPos st)
    v (clock st) (timers st) (nextTimer st) (notes st) (fired st).

Definition set_clock (v : Q) (st : state) : state :=
  mkState (audioCtx st) (banjoMasterGain st) (metroMasterGain st) (isPlaying
    st) (currentBpm st) (currentMeasures st) (currentPlayOpts st)
    (masterOnStop st) (nextNoteTime st) (currentMeasure st) (currentPos st)
    (timerID st) v (timers st) (nextTimer st) (notes st) (fired st).

Definition set_timers (v : list timer) (st : state) : state :=
  mkState (audioCtx st) (banjoMasterGain st) (metroMasterGain st) (isPlaying
    st) (currentBpm st) (currentMeasures st) (currentPlayOpts st)
    (masterOnStop st) (nextNoteTime st) (currentMeasure st) (currentPos st)
    (timerID st) (clock st) v (nextTimer st) (notes st) (fired st).

Definition set_nextTimer (v : nat) (st : state) : state :=
  mkState (audioCtx st) (banjoMasterGain st) (metroMasterGain st) (isPlaying
    st) (currentBpm st) (currentMeasures st) (currentPlayOpts st)
    (masterOnStop st) (nextNoteTime st) (currentMeasure st) (currentPos st)
    (timerID st) (clock st) (timers st) v (notes st) (fired st).

Definition set_notes (v : list note_record) (st : state) : state :=
  mkState (audioCtx st) (banjoMasterGain st) (metroMasterGain st) (isPlaying
    st) (currentBpm st) (currentMeasures st) (currentPlayOpts st)
    (masterOnStop st) (nextNoteTime st) (currentMeasure st) (currentPos st)
    (timerID st) (clock st) (timers st) (nextTimer st) v (fired st).

Definition set_fired (v : list callback) (st : state) : state :=
  mkState (audioCtx st) (banjoMasterGain st) (metroMasterGain st) (isPlaying
    st) (currentBpm st) (currentMeasures st) (currentPlayOpts st)
    (masterOnStop st) (nextNoteTime st) (currentMeasure st) (currentPos st)
    (timerID st) (clock st) (timers st) (nextTimer st) (notes st) v.

Definition SCHEDULE_AHEAD_TIME : Q := 0.1%Q.
Definition LOOKAHEAD : Q := 25%Q.

(** The engine before any call. *)
Definition init : state :=
  {| audioCtx := None; banjoMasterGain := None; metroMasterGain := None;
     isPlaying := false; currentBpm := 90%Q; currentMeasures := [];
     currentPlayOpts :=
       {| enabled := None; accentDownbeat := None; metroPitch := None;
          banjoVolume := None; metroVolume := None |};
     masterOnStop := None; nextNoteTime := 0%Q; currentMeasure := 0;
     currentPos := 0; timerID := None;
     clock := 0%Q; timers := []; nextTimer := 0; notes := []; fired := [] |}.

(** ** Event loop primitives *)

(** [setTimeout(action, delay)]: the delay is truncated to whole
    milliseconds and is at least zero. *)
Definition setTimeout (a : timer_action) (delay : Q) (st : state)
  : nat * state :=
  let id := nextTimer st in
  let t := {| tid := id;
              due := (clock st + inject_Z (Z.max 0 (Qfloor delay)))%Q;
              action := a |} in
  (id, set_nextTimer (S id) (set_timers (timers st ++ [t]) st)).

Definition clearTimeout (id : option nat) (st : state) : state :=
  match id with
  | Some i => set_timers (List.filter (fun t => negb (tid t =? i)) (timers st)) st
  | None => st
  end.

(** ** The engine *)

(** [getAudioCtx()]: a fresh context starts at time zero with both buses
    at unit gain.  ([stopSong] nulls [audioCtx] when it closes the
    context, so a closed context is never held.) *)
Definition getAudioCtx (st : state) : state :=
  match audioCtx st with
  | Some _ => st
  | None =>
      set_metroMasterGain (Some 1%Q)
        (set_banjoMasterGain (Some 1%Q) (set_audioCtx (Some 0%Q) st))
  end.

(** [ctx.currentTime] of the live context. *)
Definition currentTime (st : state) : Q := default 0%Q (audioCtx st).

Definition updateAudioSettings (bVol mVol mPitch : Q) (mEnabled mAccent : bool)
    (st : state) : state :=
  let engineBanjoVol := ((bVol / 0.5) * 0.65)%Q in
  let engineMetroVol := ((mVol / 0.5) * 1)%Q in
  let st := match banjoMasterGain st with
            | Some _ => set_banjoMasterGain (Some engineBanjoVol) (getAudioCtx st)
            | None => st
            end in
  let actualMetroVol := if mEnabled then engineMetroVol else 0%Q in
  match metroMasterGain st with
  | Some _ => set_metroMasterGain (Some actualMetroVol) (getAudioCtx st)
  | None => st
  end.

(** [nextNote()].  Over the rationals [60 / currentBpm] is 0 at a tempo
    of 0, where the division of the code gives [Infinity]: what is said
    of the event times and of the progress of a session is said for a
    positive tempo. *)
Definition nextNote (st : state) : state :=
  let secondsPerBeat := (60 / currentBpm st)%Q in
  let st := set_nextNoteTime (nextNoteTime st + 0.25 * secondsPerBeat)%Q st in
  let st := set_currentPos (S (currentPos st)) st in
  if currentPos st =? 16
  then set_currentMeasure (S (currentMeasure st)) (set_currentPos 0 st)
  else st.

(** How a JavaScript function ends: normally, or by an exception that
    leaves the variables as they are at the throw. *)
Inductive completion : Type := Normal | Throw.

(** What the cell tests of [scheduleNote] make of [measure[str][pos]]. *)
Inductive cell_value : Type :=
  | Silent
  | Unparseable
  | Fret (fret : Z).

Definition read_cell (cell : option string) : cell_value :=
  match cell with
  | None => Unparseable
  | Some c =>
      if String.eqb c "-" then Silent
      else if String.eqb c "h2" then Fret 2
      else match JS.parseInt c with
           | Some fret => Fret fret
           | None => Unparseable
           end
  end.

Definition pluck_of (str : nat) (fret : Z) (time : Q) : synth_call :=
  let midiNote := (Pitch.OPEN_MIDI !!! str + fret)%Z in
  let isDrone := str =? 4 in
  Pluck midiNote (if isDrone then 0.35%Q else 0.45%Q) time
        (if isDrone then 0.991%Q else 0.994%Q).

(** The loop over the strings [strs] of one column.  Indexing a missing
    row throws a [TypeError]. *)
Fixpoint string_loop (m : measure) (pos : nat) (time : Q) (strs : list nat)
  : completion * list synth_call :=
  match strs with
  | [] => (Normal, [])
  | str :: rest =>
      match m !! str with
      | None => (Throw, [])
      | Some row =>
          let here := match read_cell (row !! pos) with
                      | Fret fret => [pluck_of str fret time]
                      | _ => []
                      end in
          let '(c, later) := string_loop m pos time rest in
          (c, here ++ later)
      end
  end.

Definition clickEnabled (o : playOpts) : bool :=
  bool_decide (enabled o = Some true).

Definition accentFlag (o : playOpts) : bool :=
  negb (bool_decide (accentDownbeat o = Some false)).

(** The metronome part of [scheduleNote]. *)
Definition click_calls (o : playOpts) (pos : nat) (time : Q)
  : list synth_call :=
  if (pos mod 4 =? 0) && clickEnabled o then
    let beat := pos / 4 in
    let isAccent := accentFlag o && (beat =? 0) in
    [Click time isAccent (default 1%Q (metroPitch o))]
  else [].

(** [scheduleNote(measureIdx, pos, time)].  The calls of
    [metronomeClick] and [pluckString] are recorded, not run: an
    exception raised inside a synthesizer (the [RangeError] of
    [pluckString] for a fret so negative that the frequency underflows
    to zero) is outside this definition, in which only a missing row
    throws.  Cells hold ASCII text ([JS.parseInt]). *)
Definition scheduleNote (measureIdx pos : nat) (time : Q) (st : state)
  : completion * state :=
  let st := getAudioCtx st in
  let clicks := click_calls (currentPlayOpts st) pos time in
  let '(c, plucks) :=
    match currentMeasures st !! measureIdx with
    | None => (Normal, [])
    | Some m => string_loop m pos time (seq 0 5)
    end in
  (c, set_notes (notes st ++ [{| n_measure := measureIdx; n_pos := pos;
                                n_time := time;
                                n_calls := clicks ++ plucks |}]) st).

(** The closure armed at the end of the song. *)
Definition on_drain (st : state) : state :=
  if isPlaying st then
    let st := set_isPlaying false st in
    match masterOnStop st with
    | Some cb => set_fired (fired st ++ [cb]) st
    | None => st
    end
  else st.

(** The [while] loop of [scheduler]; [None] when [fuel] iterations do not
    reach its exit. *)
Fixpoint scheduler_loop (fuel : nat) (st : state) : option (completion * state) :=
  let st := getAudioCtx st in
  if Qlt_le_dec (nextNoteTime st) (currentTime st + SCHEDULE_AHEAD_TIME)%Q then
    if length (currentMeasures st) <=? currentMeasure st then
      let remainingTime :=
        ((nextNoteTime st - currentTime st) * 1000 + 3500)%Q in
      Some (Normal, snd (setTimeout RunDrain remainingTime st))
    else
      match fuel with
      | O => None
      | S fuel =>
          match scheduleNote (currentMeasure st) (currentPos st)
                             (nextNoteTime st) st with
          | (Throw, st) => Some (Throw, st)
          | (Normal, st) => scheduler_loop fuel (nextNote st)
          end
      end
  else
    let '(id, st) := setTimeout RunScheduler LOOKAHEAD st in
    Some (Normal, set_timerID (Some id) st).

(** Enough iterations for every position left in the timeline. *)
Definition scheduler_fuel (st : state) : nat :=
  16 * length (currentMeasures st).

Definition scheduler (st : state) : option (completion * state) :=
  scheduler_loop (scheduler_fuel st) st.

Definition stopSong (st : state) : state :=
  let st := set_isPlaying false st in
  let st := clearTimeout (timerID st) st in
  match audioCtx st with
  | Some _ =>
      set_metroMasterGain None
        (set_banjoMasterGain None (set_audioCtx None st))
  | None => st
  end.

(** [playSong] up to, and without, its final call of [scheduler()]. *)
Definition playSong_setup (allMeasures : timeline) (bpm : Q)
    (onStop : option callback) (opts : playOpts) (st : state) : state :=
  let st := if isPlaying st then stopSong st else st in
  let st := getAudioCtx st in
  let st := set_isPlaying true st in
  let st := set_currentBpm bpm st in
  let st := set_currentMeasures allMeasures st in
  let st := set_currentPlayOpts opts st in
  let st := set_masterOnStop onStop st in
  let st := set_notes [] st in
  let st := set_currentMeasure 0 st in
  let st := set_currentPos 0 st in
  let st := set_nextNoteTime (currentTime st + 0.1)%Q st in
  updateAudioSettings
    (default 0.5%Q (banjoVolume opts))
    (default 0.5%Q (metroVolume opts))
    (default 1%Q (metroPitch opts))
    (clickEnabled opts) (accentFlag opts) st.

Definition playSong (allMeasures : timeline) (bpm : Q)
    (onStop : option callback) (opts : playOpts) (st : state)
  : option (completion * state) :=
  scheduler (playSong_setup allMeasures bpm onStop opts st).

(** ** The engine in its environment *)

(** What can happen to the engine: a call of its interface, time passing
    ([ms] on the timer clock, [sec] on the audio clock), or the event
    loop running a pending timer that is due. *)
Inductive input : Type :=
  | PlaySong (allMeasures : timeline) (bpm : Q) (onStop : option callback)
             (opts : playOpts)
  | StopSong
  | UpdateAudioSettings (bVol mVol mPitch : Q) (mEnabled mAccent : bool)
  | Elapse (ms sec : Q)
  | Fire (id : nat).

Definition elapse (ms sec : Q) (st : state) : state :=
  let st := if Qle_bool 0%Q ms then set_clock (clock st + ms)%Q st else st in
  if Qle_bool 0%Q sec
  then set_audioCtx ((fun t => t + sec)%Q <$> audioCtx st) st
  else st.

Definition fire (id : nat) (st : state) : option state :=
  match List.find (fun t => tid t =? id) (timers st) with
  | Some t =>
      if Qle_bool (due t) (clock st) then
        let st := clearTimeout (Some id) st in
        match action t with
        | RunScheduler => snd <$> scheduler st
        | RunDrain => Some (on_drain st)
        end
      else Some st
  | None => Some st
  end.

Definition step (st : state) (i : input) : option state :=
  match i with
  | PlaySong allMeasures bpm onStop opts =>
      snd <$> playSong allMeasures bpm onStop opts st
  | StopSong => Some (stopSong st)
  | UpdateAudioSettings bVol mVol mPitch mEnabled mAccent =>
      Some (updateAudioSettings bVol mVol mPitch mEnabled mAccent st)
  | Elapse ms sec => Some (elapse ms sec st)
  | Fire id => fire id st
  end.

Fixpoint run (st : state) (inputs : list input) : option state :=
  match inputs with
  | [] => Some st
  | i :: rest => step st i ≫= fun st' => run st' rest
  end.

(** All synthesizer invocations of the current session, in order. *)
Definition session_calls (st : state) : list synth_call :=
  concat (n_calls <$> notes st).

End Sequencer.

(* ================================================================== *)
(** * The earlier engine (audio.js): its stop path                     *)
(* ================================================================== *)

Module Legacy.

(** The variables [stopSong] of the earlier engine works on.  Sources
    and timers are identified by numbers; [activeTimer] is the [_timer]
    property of the [activeSrcs] array; [timers] are the pending
    timeouts and [stopped] records the sources [stop()] was called on. *)
Record state : Type := {
  isPlaying : bool;
  stopFlag : bool;
  activeSrcs : list nat;
  activeTimer : option nat;
  timers : list nat;
  stopped : list nat
}.

Definition clearTimeout (id : option nat) (pending : list nat) : list nat :=
  match id with
  | Some i => List.filter (fun t => negb (t =? i)) pending
  | None => pending
  end.

(** [stopSong()]: the new [activeSrcs] array has no [_timer]. *)
Definition stopSong (st : state) : state :=
  {| stopFlag := true;
     timers := clearTimeout (activeTimer st) (timers st);
     stopped := stopped st ++ activeSrcs st;
     activeSrcs := [];
     activeTimer := None;
     isPlaying := false |}.

(** The engine as loaded. *)
Definition init : state :=
  {| isPlaying := false; stopFlag := false; activeSrcs := [];
     activeTimer := None; timers := []; stopped := [] |}.

(** Nothing is playing: as at load time, after a stop and after the
    natural-end timer has run. *)
Definition idle (st : state) : Prop :=
  isPlaying st = false /\ activeSrcs st = [] /\ activeTimer st = None.

(** What the rest of the program can tell about playback: [stopFlag] is
    only read by [playSong] after it has reset it. *)
Definition playback_view (st : state)
  : bool * list nat * option nat * list nat * list nat :=
  (isPlaying st, activeSrcs st, activeTimer st, timers st, stopped st).

End Legacy.

(* ================================================================== *)
(** * Tab generation                                                   *)
(* ================================================================== *)

Module Tab.

Record chord : Type := {
  frets : list Z;
  label : string
}.

Definition CHORD_LIB : gmap string chord :=
  <["G" := {| frets := [0; 0; 0; 0; 0]%Z; label := "G Major" |}]>
  (<["C" := {| frets := [2; 1; 0; 2; 0]%Z; label := "C Major" |}]>
  (<["D" := {| frets := [4; 3; 2; 0; 0]%Z; label := "D Major" |}]>
  (<["D7" := {| frets := [1; 2; 0; 0; 0]%Z; label := "D7" |}]>
  (<["Em" := {| frets := [0; 0; 0; 2; 0]%Z; label := "E Minor" |}]>
  (<["Am" := {| frets := [0; 1; 2; 2; 0]%Z; label := "A Minor" |}]>
   ∅))))).

(** [m[row][pos] = v]. *)
Definition set_cell (row pos : nat) (v : string) (m : Sequencer.measure)
  : Sequencer.measure :=
  alter (fun r => <[pos:=v]> r) row m.

Definition empty_measure : Sequencer.measure :=
  replicate 5 (replicate 16 "-").

(** [generateMeasure(chordName, difficulty, variation)].  [None] is the
    [TypeError] of destructuring a chord that is not in the table (or of
    a chord with fewer than five frets). *)
Definition generateMeasure (chordName difficulty : string) (variation : Z)
  : option Sequencer.measure :=
  match frets <$> CHORD_LIB !! chordName with
  | Some (fd :: fB :: fG :: fD :: fg :: _) =>
      let m := empty_measure in
      if String.eqb difficulty "easy" then
        let strumPositions := [0; 8] in
        let thumbPositions := [4; 12] in
        let m := foldl (fun m p =>
                   set_cell 3 p (JS.toString fD)
                     (set_cell 2 p (JS.toString fG)
                        (set_cell 1 p (JS.toString fB)
                           (set_cell 0 p (JS.toString fd) m))))
                   m strumPositions in
        let m := foldl (fun m p => set_cell 4 p (JS.toString fg) m)
                   m thumbPositions in
        let m := if (JS.rem variation 2 =? 1)%Z
                 then set_cell 1 8 (JS.toString fB) (set_cell 0 8 "-" m)
                 else m in
        Some m
      else
        let m := set_cell 0 0 (JS.toString fd) m in
        let m := set_cell 1 2 (JS.toString fB) m in
        let m := set_cell 2 2 (JS.toString fG) m in
        let m := set_cell 4 4 (JS.toString fg) m in
        let m := if (JS.rem variation 3 =? 0)%Z then
                   set_cell 0 8 (JS.toString fd) m
                 else if (JS.rem variation 3 =? 1)%Z then
                   let passNote := if (fd =? 0)%Z then 2%Z else fd in
                   set_cell 0 8 (JS.toString passNote) m
                 else
                   set_cell 1 8 (JS.toString fB) m in
        let m := set_cell 2 10 (JS.toString fG) m in
        let m := set_cell 4 12 (JS.toString fg) m in
        let m := if ((JS.rem variation 4 =? 0) && (fd =? 0))%Z
                 then set_cell 0 14 "h2" m
                 else m in
        Some m
  | _ => None
  end.

(** A generated cell: the silent marker, the hammer-on marker, or one
    decimal digit between 0 and 4. *)
Definition cell_ok (c : string) : bool :=
  String.eqb c "-" || String.eqb c "h2" ||
  String.eqb c "0" || String.eqb c "1" || String.eqb c "2" ||
  String.eqb c "3" || String.eqb c "4".

Definition grid_ok (m : Sequencer.measure) : bool :=
  (length m =? 5) && forallb (fun row => (length row =? 16) && forallb cell_ok row) m.

End Tab.

(* ================================================================== *)
(** * Predicates on sessions                                           *)
(* ================================================================== *)

Module Session.

Import Sequencer.

(** The sixteenth-note duration [nextNote] adds at tempo [bpm]. *)
Definition sixteenth (bpm : Q) : Q := (0.25 * (60 / bpm))%Q.

(** Rank of a grid position in the timeline. *)
Definition grid_index (measureIdx pos : nat) : nat := 16 * measureIdx + pos.

Definition note_index (n : note_record) : nat :=
  grid_index (n_measure n) (n_pos n).

(** Time of the grid position of rank [k] in a session whose first
    position is at [t0]. *)
Definition grid_time (t0 six : Q) (k : nat) : Q :=
  (t0 + inject_Z (Z.of_nat k) * six)%Q.

(** A [scheduleNote] call that lies on the time grid of the session, at
    or before the position the sequencer has reached. *)
Definition note_on_grid (t0 six : Q) (cur : nat) (n : note_record) : Prop :=
  n_pos n < 16 /\
  note_index n <= cur /\
  (n_time n == grid_time t0 six (note_index n))%Q /\
  Forall (fun c => call_time c = n_time n) (n_calls n).

(** The timing invariant of a session that started at [t0]. *)
Definition session_inv (t0 : Q) (st : state) : Prop :=
  (0 < currentBpm st)%Q /\
  currentPos st < 16 /\
  (nextNoteTime st ==
   grid_time t0 (sixteenth (currentBpm st))
     (grid_index (currentMeasure st) (currentPos st)))%Q /\
  Forall (note_on_grid t0 (sixteenth (currentBpm st))
            (grid_index (currentMeasure st) (currentPos st)))
         (notes st) /\
  StronglySorted (fun a b => note_index a <= note_index b) (notes st).


(** No wake-up of the scheduling loop is pending. *)
Definition no_wakeup (st : state) : Prop :=
  Forall (fun t => action t = RunDrain) (timers st).

(** The engine is idle: no session is flagged as running and the timer
    [timerID] names, if any, is no longer pending. *)
Definition idle (st : state) : Prop :=
  isPlaying st = false /\
  forall id : nat, timerID st = Some id ->
    Forall (fun t => tid t <> id) (timers st).

(** The playback state, without the audio graph. *)
Definition playback_view (st : state) :=
  (isPlaying st, currentBpm st, currentMeasures st, currentPlayOpts st,
   masterOnStop st, nextNoteTime st, currentMeasure st, currentPos st,
   timerID st, clock st, timers st, nextTimer st, notes st, fired st).

(** Inputs by kind. *)
Definition tempo_positive (i : input) : Prop :=
  match i with
  | PlaySong _ bpm _ _ => (0 < bpm)%Q
  | _ => True
  end.

Definition not_play (i : input) : Prop :=
  match i with
  | PlaySong _ _ _ _ => False
  | _ => True
  end.

Definition is_elapse (i : input) : Prop :=
  match i with
  | Elapse _ _ => True
  | _ => False
  end.

(** [a] is at an earlier grid position than [b]. *)
Definition earlier (a b : note_record) : Prop :=
  n_measure a < n_measure b \/
  (n_measure a = n_measure b /\ n_pos a < n_pos b).

(** The ordering the specification words as strictly increasing. *)
Definition strictly_increasing_calls (st : state) : Prop :=
  forall (i j : nat) (c1 c2 : synth_call),
    i < j ->
    session_calls st !! i = Some c1 ->
    session_calls st !! j = Some c2 ->
    (call_time c1 < call_time c2)%Q.

End Session.

Module Frame.

Import Sequencer.

(** The variables the timing of a session depends on.  Everything the
    engine does outside [playSong], [scheduleNote] and [nextNote] leaves
    them alone. *)
Definition core (st : state) :=
  (currentBpm st, currentMeasures st, currentPlayOpts st, nextNoteTime st,
   currentMeasure st, currentPos st, notes st).

Definition core_based (P : state -> Prop) : Prop :=
  forall st st' : state, core st = core st' -> P st -> P st'.

End Frame.

(* ================================================================== *)
(** * Concrete sessions                                                *)
(* ================================================================== *)

Module Scenario.

Import Sequencer.

(** The options the user interface passes, metronome on or off. *)
Definition metronome_on : playOpts :=
  {| enabled := Some true; accentDownbeat := Some true;
     metroPitch := Some 0.6%Q; banjoVolume := Some 0.5%Q;
     metroVolume := Some 0.5%Q |}.

Definition metronome_off : playOpts :=
  {| enabled := Some false; accentDownbeat := Some true;
     metroPitch := Some 0.6%Q; banjoVolume := Some 0.5%Q;
     metroVolume := Some 0.5%Q |}.

(** Generated measures: a G chord and a C chord, easy difficulty. *)
Definition g_easy : measure := default [] (Tab.generateMeasure "G" "easy" 0).
Definition c_easy : measure := default [] (Tab.generateMeasure "C" "easy" 1).

(** [n] wake-ups of the scheduling loop, 25 ms apart, the first one
    running timer [id]. *)
Fixpoint wakeups (n id : nat) : list input :=
  match n with
  | O => []
  | S n => Elapse 25 0.025%Q :: Fire id :: wakeups n (S id)
  end.

(** One measure is started and the first wake-up runs: the strum on
    position 0 is scheduled. *)
Definition strum : list input :=
  [PlaySong [g_easy] 120 (Some 1) metronome_off; Elapse 25 0.025%Q; Fire 0].

(** Two measures, scheduled by one late wake-up. *)
Definition two_measures : list input :=
  [PlaySong [g_easy; c_easy] 120 (Some 1) metronome_on; Elapse 5000 5; Fire 0].

(** An empty timeline is started, the first wake-up arms the natural-end
    timer (timer 1, due 3575 ms later), which then runs. *)
Definition empty_start : list input :=
  [PlaySong [] 90 (Some 7) metronome_off].

Definition empty_drain : list input :=
  [Elapse 25 0.025%Q; Fire 0; Elapse 3575 3.575%Q; Fire 1].

(** Session A (callback 1, one measure at 120 bpm) is scheduled to its
    end by wake-ups 25 ms apart; its natural-end timer (timer 81, due at
    5600 ms) is then pending.  The user stops A and starts session B
    (callback 2, two measures, four seconds of music), whose wake-ups run
    every 25 ms; at 5600 ms, 3.575 s into B, the timer of A runs. *)
Definition session_A : list input :=
  PlaySong [g_easy] 120 (Some 1) metronome_off :: wakeups 81 0.

Definition stale_drain : list input :=
  session_A ++
  [StopSong; PlaySong [g_easy; c_easy] 120 (Some 2) metronome_off] ++
  wakeups 143 82 ++
  [Fire 81].

(** B is then left to run to its own natural end. *)
Definition stale_drain_then_end : list input :=
  stale_drain ++ wakeups 18 225 ++ [Elapse 4000 4; Fire 243].

End Scenario.

(* ================================================================== *)
(** * Further predicates                                               *)
(* ================================================================== *)

Module Shape.

Import Sequencer.

(** A measure [scheduleNote] can index: rows 0 to 4 exist. *)
Definition five_rows (m : measure) : Prop := 5 <= length m.

Definition timeline_ok (i : input) : Prop :=
  match i with
  | PlaySong allMeasures _ _ _ => Forall five_rows allMeasures
  | _ => True
  end.

(** The grid position of rank [k]. *)
Definition grid_position (k : nat) : nat * nat := (k / 16, k mod 16).

Definition note_position (n : note_record) : nat * nat :=
  (n_measure n, n_pos n).

(** The three variables of the audio graph are null together. *)
Definition graph_consistent (st : state) : Prop :=
  (audioCtx st = None <-> banjoMasterGain st = None) /\
  (audioCtx st = None <-> metroMasterGain st = None).

(** The invariant of a session on a timeline of indexable measures. *)
Definition complete_so_far (st : state) : Prop :=
  Forall five_rows (currentMeasures st) /\
  currentPos st < 16 /\
  Session.grid_index (currentMeasure st) (currentPos st)
    <= 16 * length (currentMeasures st) /\
  note_position <$> notes st =
    grid_position <$> seq 0 (Session.grid_index (currentMeasure st) (currentPos st)).

Definition is_fire (i : input) : Prop :=
  match i with
  | Fire _ => True
  | _ => False
  end.

End Shape.

(* ================================================================== *)
(** * Songs                                                            *)
(* ================================================================== *)

Module Song.

Record progression : Type := {
  title : string;
  chords : list string
}.

(** The progressions, by key and by difficulty. *)
Definition PROGRESSIONS : gmap string (gmap string (list progression)) :=
  <["G" :=
      <["easy" :=
          [ {| title := "Mountain Spring"; chords := ["G"; "C"; "G"; "D"] |};
            {| title := "Creek Walk"; chords := ["G"; "G"; "C"; "G"] |};
            {| title := "Open Road"; chords := ["G"; "D"; "G"; "D"] |} ]]>
      (<["medium" :=
          [ {| title := "Blue Ridge"; chords := ["G"; "Em"; "C"; "D"] |};
            {| title := "Hollow Wind"; chords := ["G"; "C"; "Am"; "D7"] |};
            {| title := "River Bend"; chords := ["G"; "Am"; "D7"; "G"] |} ]]>
       ∅)]>
  (<["C" :=
      <["easy" :=
          [ {| title := "Sunday Porch"; chords := ["C"; "G"; "C"; "G"] |};
            {| title := "Easy Morning"; chords := ["C"; "C"; "G"; "C"] |};
            {| title := "Gentle Path"; chords := ["C"; "G"; "D7"; "C"] |} ]]>
      (<["medium" :=
          [ {| title := "Old Farmhouse"; chords := ["C"; "Am"; "G"; "D7"] |};
            {| title := "Evening Shade"; chords := ["C"; "G"; "Am"; "Em"] |};
            {| title := "Valley Song"; chords := ["C"; "Am"; "D7"; "G"] |} ]]>
       ∅)]>
  (<["D" :=
      <["easy" :=
          [ {| title := "Dusty Trail"; chords := ["D"; "G"; "D"; "G"] |};
            {| title := "High Country"; chords := ["D"; "D"; "G"; "D"] |};
            {| title := "Ridge Path"; chords := ["D"; "G"; "C"; "G"] |} ]]>
      (<["medium" :=
          [ {| title := "Pine Ridge"; chords := ["D"; "Em"; "G"; "D7"] |};
            {| title := "Blue Mountain"; chords := ["D"; "G"; "Em"; "D"] |};
            {| title := "Forest Song"; chords := ["D"; "G"; "C"; "D7"] |} ]]>
       ∅)]>
   ∅)).

(** The measures [buildTabHTML] hands to the audio engine:
    [allChords.map((ch, i) => generateMeasure(ch, difficulty, i))] from
    index [i] on.  [None] when one [generateMeasure] throws. *)
Fixpoint generate_from (i : nat) (allChords : list string) (difficulty : string)
  : option Sequencer.timeline :=
  match allChords with
  | [] => Some []
  | ch :: rest =>
      m ← Tab.generateMeasure ch difficulty (Z.of_nat i);
      ms ← generate_from (S i) rest difficulty;
      Some (m :: ms)
  end.

(** [allMeasures] of [buildTabHTML]: the progression is played twice. *)
Definition allMeasures (prog : progression) (difficulty : string)
  : option Sequencer.timeline :=
  let allChords := chords prog ++ chords prog in
  generate_from 0 allChords difficulty.

(** A test on every cell of a grid, with its row and position. *)
Definition all_cells (f : nat -> nat -> string -> bool) (m : Sequencer.measure)
  : bool :=
  forallb (fun b : bool => b)
    (imap (fun row r =>
             forallb (fun b : bool => b) (imap (fun pos c => f row pos c) r))
          m).

(** The rhythm of a generated measure for a chord whose first- and
    fifth-string frets are [fd] and [fg]: offbeat sixteenths are silent,
    the fifth string sounds its fret on beats 2 and 4 and nowhere else,
    the first string sounds on beat 1, and the hammer-on marker only
    appears on the first string at position 14. *)
Definition rhythm_cell (fd fg : Z) (row pos : nat) (c : string) : bool :=
  (if Nat.odd pos then String.eqb c "-" else true) &&
  (if row =? 4
   then (if (pos =? 4) || (pos =? 12)
         then String.eqb c (JS.toString fg) else String.eqb c "-")
   else true) &&
  (if (row =? 0) && (pos =? 0) then String.eqb c (JS.toString fd) else true) &&
  (if String.eqb c "h2" then (row =? 0) && (pos =? 14) else true).

End Song.

(** Vocabulary for statements about the rendered signal. *)
Module Signal.

Import KarplusStrong.

(** A sample that is a number (not [NaN]) of the range [-1, 1]. *)
Definition unit_sample (s : sample) : Prop :=
  exists q : Q, s = Some q /\ (-1 <= q /\ q <= 1)%Q.

(** Sample [n] of the signal the loop renders: the cell under the
    pointer when iteration [n] begins. *)
Definition ks_sample (random : nat -> Q) (decay : Q)
    (bufLen totalSamples n : nat) : sample :=
  read (delay (ks_run random decay bufLen totalSamples n))
       (Some (n mod bufLen)).

End Signal.

(* ================================================================== *)
(** * The earlier engine (audio.js): playing a song                    *)
(* ================================================================== *)

Module LegacyPlayer.

(** A source node [pluckString] returned, with the arguments of the
    call that created it. *)
Record source : Type := {
  src_id : nat;
  src_call : Sequencer.synth_call
}.

(** The closure handed to [setTimeout] by [playSong]: it holds the
    [onStop] of its call. *)
Record handler : Type := {
  h_id : nat;
  h_due : Q;
  h_onStop : option Sequencer.callback
}.

(** The variables of the engine ([eng]), its audio context with its
    [currentTime] in seconds, the timer clock in milliseconds, the next
    source and timer numbers, and three history variables: the sources
    created, the closures armed and the callbacks invoked so far. *)
Record player : Type := mkPlayer {
  eng : Legacy.state;
  audioCtx : option Q;
  clock : Q;
  nextSrc : nat;
  nextTimer : nat;
  created : list source;
  handlers : list handler;
  fired : list Sequencer.callback
}.

Definition set_eng (v : Legacy.state) (p : player) : player :=
  mkPlayer v (audioCtx p) (clock p) (nextSrc p) (nextTimer p) (created p)
    (handlers p) (fired p).

Definition set_audioCtx (v : option Q) (p : player) : player :=
  mkPlayer (eng p) v (clock p) (nextSrc p) (nextTimer p) (created p)
    (handlers p) (fired p).

Definition set_clock (v : Q) (p : player) : player :=
  mkPlayer (eng p) (audioCtx p) v (nextSrc p) (nextTimer p) (created p)
    (handlers p) (fired p).

Definition set_nextSrc (v : nat) (p : player) : player :=
  mkPlayer (eng p) (audioCtx p) (clock p) v (nextTimer p) (created p)
    (handlers p) (fired p).

Definition set_nextTimer (v : nat) (p : player) : player :=
  mkPlayer (eng p) (audioCtx p) (clock p) (nextSrc p) v (created p)
    (handlers p) (fired p).

Definition set_created (v : list source) (p : player) : player :=
  mkPlayer (eng p) (audioCtx p) (clock p) (nextSrc p) (nextTimer p) v
    (handlers p) (fired p).

Definition set_handlers (v : list handler) (p : player) : player :=
  mkPlayer (eng p) (audioCtx p) (clock p) (nextSrc p) (nextTimer p)
    (created p) v (fired p).

Definition set_fired (v : list Sequencer.callback) (p : player) : player :=
  mkPlayer (eng p) (audioCtx p) (clock p) (nextSrc p) (nextTimer p)
    (created p) (handlers p) v.

(** The page as loaded. *)
Definition init : player :=
  {| eng := Legacy.init; audioCtx := None; clock := 0%Q; nextSrc := 0;
     nextTimer := 0; created := []; handlers := []; fired := [] |}.

(** [getAudioCtx()]: nothing closes the context in this engine. *)
Definition getAudioCtx (p : player) : player :=
  match audioCtx p with
  | Some _ => p
  | None => set_audioCtx (Some 0%Q) p
  end.

Definition currentTime (p : player) : Q := default 0%Q (audioCtx p).

Definition stopSong (p : player) : player :=
  set_eng (Legacy.stopSong (eng p)) p.

(** The [pluckString] call for a sounding cell. *)
Definition pluck_of (str : nat) (fret : Z) (when : Q) : Sequencer.synth_call :=
  let midiNote := (Pitch.OPEN_MIDI !!! str + fret)%Z in
  let isDrone := str =? 4 in
  Sequencer.Pluck midiNote (if isDrone then 0.55%Q else 0.70%Q) when
    (if isDrone then 0.991%Q else 0.994%Q).

(** [for (let str = 0; str < 5; str++)] over the strings [strs]. *)
Fixpoint string_loop (m : Sequencer.measure) (pos : nat) (when : Q)
    (strs : list nat) : Sequencer.completion * list Sequencer.synth_call :=
  match strs with
  | [] => (Sequencer.Normal, [])
  | str :: rest =>
      match m !! str with
      | None => (Sequencer.Throw, [])
      | Some row =>
          let here := match Sequencer.read_cell (row !! pos) with
                      | Sequencer.Fret fret => [pluck_of str fret when]
                      | _ => []
                      end in
          let '(c, later) := string_loop m pos when rest in
          (c, here ++ later)
      end
  end.

(** [for (let pos = 0; pos < 16; pos++)] over the positions [poss]. *)
Fixpoint pos_loop (m : Sequencer.measure) (measureStart sixteenth : Q)
    (poss : list nat) : Sequencer.completion * list Sequencer.synth_call :=
  match poss with
  | [] => (Sequencer.Normal, [])
  | pos :: rest =>
      let when := (measureStart + inject_Z (Z.of_nat pos) * sixteenth)%Q in
      match string_loop m pos when (seq 0 5) with
      | (Sequencer.Throw, cs) => (Sequencer.Throw, cs)
      | (Sequencer.Normal, cs) =>
          let '(c, later) := pos_loop m measureStart sixteenth rest in
          (c, cs ++ later)
      end
  end.

(** [for (let m = 0; m < allMeasures.length; m++)] from measure number
    [m] on, [ms] being the measures left. *)
Fixpoint measure_loop (stopFlag : bool) (ms : Sequencer.timeline) (m : nat)
    (startTime sixteenth : Q)
  : Sequencer.completion * list Sequencer.synth_call :=
  match ms with
  | [] => (Sequencer.Normal, [])
  | measure :: rest =>
      if stopFlag then (Sequencer.Normal, []) else
      let measureStart :=
        (startTime + inject_Z (Z.of_nat m) * 16 * sixteenth)%Q in
      match pos_loop measure measureStart sixteenth (seq 0 16) with
      | (Sequencer.Throw, cs) => (Sequencer.Throw, cs)
      | (Sequencer.Normal, cs) =>
          let '(c, later) :=
            measure_loop stopFlag rest (S m) startTime sixteenth in
          (c, cs ++ later)
      end
  end.

(** The sources of a run of [pluckString] calls, numbered from [from]. *)
Definition sources_of (from : nat) (calls : list Sequencer.synth_call)
  : list source :=
  imap (fun i call => {| src_id := from + i; src_call := call |}) calls.

(** The head of [playSong]: [if (isPlaying) stopSong();] and
    [const ctx = getAudioCtx();]. *)
Definition begin_song (p : player) : player :=
  getAudioCtx (if Legacy.isPlaying (eng p) then stopSong p else p).

(** [isPlaying = true; stopFlag = false; activeSrcs = [];] and the
    [activeSrcs.push(src)] of the [pluckString] calls made: the new
    array has no [_timer]. *)
Definition push_sources (calls : list Sequencer.synth_call) (p : player)
  : player :=
  let srcs := sources_of (nextSrc p) calls in
  let e := {| Legacy.isPlaying := true;
              Legacy.stopFlag := false;
              Legacy.activeSrcs := src_id <$> srcs;
              Legacy.activeTimer := None;
              Legacy.timers := Legacy.timers (eng p);
              Legacy.stopped := Legacy.stopped (eng p) |} in
  set_nextSrc (nextSrc p + length calls)
    (set_created (created p ++ srcs) (set_eng e p)).

(** [(endTime - ctx.currentTime) * 1000]. *)
Definition msUntilEnd (measures : nat) (sixteenth startTime now : Q) : Q :=
  let totalDuration :=
    (inject_Z (Z.of_nat measures) * 16 * sixteenth + 3.5)%Q in
  let endTime := (startTime + totalDuration)%Q in
  ((endTime - now) * 1000)%Q.

(** [const timer = setTimeout(..., msUntilEnd); activeSrcs._timer = timer;]
    the delay is truncated to whole milliseconds and is at least zero. *)
Definition arm_end_timer (delay : Q) (onStop : option Sequencer.callback)
    (p : player) : player :=
  let id := nextTimer p in
  let h := {| h_id := id;
              h_due := (clock p + inject_Z (Z.max 0 (Qfloor delay)))%Q;
              h_onStop := onStop |} in
  let e := {| Legacy.isPlaying := Legacy.isPlaying (eng p);
              Legacy.stopFlag := Legacy.stopFlag (eng p);
              Legacy.activeSrcs := Legacy.activeSrcs (eng p);
              Legacy.activeTimer := Some id;
              Legacy.timers := Legacy.timers (eng p) ++ [id];
              Legacy.stopped := Legacy.stopped (eng p) |} in
  set_nextTimer (S id) (set_handlers (handlers p ++ [h]) (set_eng e p)).

(** [playSong(allMeasures, bpm, onStop)].  An exception leaves the
    variables as they are at the throw: no timer is armed.  As in the
    sequencer, the [pluckString] calls are recorded, not run, so that
    only a missing row throws here; and over the rationals
    [60 / bpm / 4] is 0 at a tempo of 0, where the code computes
    [Infinity]. *)
Definition playSong (allMeasures : Sequencer.timeline) (bpm : Q)
    (onStop : option Sequencer.callback) (p : player)
  : Sequencer.completion * player :=
  let p := begin_song p in
  let sixteenth := (60 / bpm / 4)%Q in
  let startTime := (currentTime p + 0.05)%Q in
  let '(c, calls) := measure_loop false allMeasures 0 startTime sixteenth in
  let p := push_sources calls p in
  match c with
  | Sequencer.Throw => (Sequencer.Throw, p)
  | Sequencer.Normal =>
      (Sequencer.Normal,
       arm_end_timer
         (msUntilEnd (length allMeasures) sixteenth startTime (currentTime p))
         onStop p)
  end.

(** The closure of the end-of-song timer. *)
Definition on_end (onStop : option Sequencer.callback) (p : player) : player :=
  let e := {| Legacy.isPlaying := false;
              Legacy.stopFlag := Legacy.stopFlag (eng p);
              Legacy.activeSrcs := [];
              Legacy.activeTimer := None;
              Legacy.timers := Legacy.timers (eng p);
              Legacy.stopped := Legacy.stopped (eng p) |} in
  let p := set_eng e p in
  match onStop with
  | Some cb => set_fired (fired p ++ [cb]) p
  | None => p
  end.

Definition pending (id : nat) (p : player) : bool :=
  existsb (Nat.eqb id) (Legacy.timers (eng p)).

Definition unqueue (id : nat) (p : player) : player :=
  let e := {| Legacy.isPlaying := Legacy.isPlaying (eng p);
              Legacy.stopFlag := Legacy.stopFlag (eng p);
              Legacy.activeSrcs := Legacy.activeSrcs (eng p);
              Legacy.activeTimer := Legacy.activeTimer (eng p);
              Legacy.timers :=
                Legacy.clearTimeout (Some id) (Legacy.timers (eng p));
              Legacy.stopped := Legacy.stopped (eng p) |} in
  set_eng e p.

(** The event loop runs the timer [id] if it is pending and due. *)
Definition fire (id : nat) (p : player) : player :=
  if pending id p then
    match List.find (fun h => h_id h =? id) (handlers p) with
    | Some h =>
        if Qle_bool (h_due h) (clock p)
        then on_end (h_onStop h) (unqueue id p)
        else p
    | None => p
    end
  else p.

Definition elapse (ms sec : Q) (p : player) : player :=
  let p := if Qle_bool 0%Q ms then set_clock (clock p + ms)%Q p else p in
  if Qle_bool 0%Q sec
  then set_audioCtx ((fun t => t + sec)%Q <$> audioCtx p) p
  else p.

Inductive input : Type :=
  | PlaySong (allMeasures : Sequencer.timeline) (bpm : Q)
             (onStop : option Sequencer.callback)
  | StopSong
  | Elapse (ms sec : Q)
  | Fire (id : nat).

(** An exception of [playSong] ends the task of the caller; the engine
    goes on from the variables as they are. *)
Definition step (p : player) (i : input) : player :=
  match i with
  | PlaySong allMeasures bpm onStop => snd (playSong allMeasures bpm onStop p)
  | StopSong => stopSong p
  | Elapse ms sec => elapse ms sec p
  | Fire id => fire id p
  end.

Definition run (p : player) (inputs : list input) : player :=
  fold_left step inputs p.

(** ** Vocabulary of the statements *)

(** The sources [playSong] created in going from [p] to [p']. *)
Definition new_sources (p p' : player) : list source :=
  drop (length (created p)) (created p').

(** Neither starts nor stops a song. *)
Definition passive (i : input) : Prop :=
  match i with
  | PlaySong _ _ _ | StopSong => False
  | Elapse _ _ | Fire _ => True
  end.

(** The inputs end in a session started with [onStop] that no later
    call has stopped or replaced. *)
Definition live_session (inputs : list input)
    (onStop : option Sequencer.callback) : Prop :=
  exists (before : list input) (allMeasures : Sequencer.timeline) (bpm : Q)
         (after : list input),
    inputs = before ++ PlaySong allMeasures bpm onStop :: after /\
    Forall passive after.

(** Two [pluckString] calls for the same note at the same time, the
    first one louder. *)
Definition same_note_louder (a b : Sequencer.synth_call) : Prop :=
  match a, b with
  | Sequencer.Pluck n1 g1 w1 d1, Sequencer.Pluck n2 g2 w2 d2 =>
      n1 = n2 /\ w1 = w2 /\ d1 = d2 /\ (g2 < g1)%Q
  | _, _ => False
  end.

(** The time of the sixteenth of rank [pos] in measure [m] of a song
    started at [startTime]. *)
Definition cell_time (startTime bpm : Q) (m pos : nat) : Q :=
  (startTime + inject_Z (Z.of_nat m) * 16 * (60 / bpm / 4)
   + inject_Z (Z.of_nat pos) * (60 / bpm / 4))%Q.

(** What holds of every state the engine reaches: at most one timer is
    pending, the one [activeSrcs._timer] names, and only while
    [isPlaying]. *)
Definition timer_inv (p : player) : Prop :=
  Forall (fun h => h_id h < nextTimer p) (handlers p) /\
  match Legacy.activeTimer (eng p) with
  | None => Legacy.timers (eng p) = []
  | Some id =>
      Legacy.timers (eng p) = [id] /\
      Legacy.isPlaying (eng p) = true /\
      is_Some (List.find (fun h => h_id h =? id) (handlers p))
  end.

(** The closure of the pending timer belongs to the live session. *)
Definition session_inv (inputs : list input) (p : player) : Prop :=
  timer_inv p /\
  forall (id : nat) (h : handler),
    Legacy.activeTimer (eng p) = Some id ->
    List.find (fun h => h_id h =? id) (handlers p) = Some h ->
    live_session inputs (h_onStop h).

(** The engine after a [playSong] that threw: flagged as playing, with
    nothing pending that could clear the flag. *)
Definition stuck (callbacks : list Sequencer.callback) (p : player) : Prop :=
  Legacy.isPlaying (eng p) = true /\
  Legacy.timers (eng p) = [] /\
  fired p = callbacks.

End LegacyPlayer.

(* ================================================================== *)
(** * Rendering a row of the tab (audio.js)                            *)
(* ================================================================== *)

(** Strings are taken as sequences of one-unit characters, which the
    cells and chord names of the program are. *)
Module Render.

(** An entry of [uiTabPositions[measure]]: the character box of a
    position. *)
Record position : Type := {
  leftCh : nat;
  widthCh : nat
}.

(** [uiTabPositions]: arrays filled by index, as maps. *)
Definition tab_positions : Type := gmap nat (gmap nat position).

Record rendered : Type := {
  chordLine : string;
  stringLines : list string
}.

Definition STR_NAMES : list string := ["d"; "B"; "G"; "D"; "g"].

(** [measure[strIdx][pos]] where a string is needed: [None] is the
    [TypeError] of a missing row or a missing cell. *)
Definition cell (measure : Sequencer.measure) (strIdx pos : nat)
  : option string :=
  row ← measure !! strIdx; row !! pos.

Fixpoint pad (n : nat) (fill : ascii) : string :=
  match n with
  | O => EmptyString
  | S n => String fill (pad n fill)
  end.

(** [s.padEnd(targetLength, fill)] for a one-character [fill]. *)
Definition padEnd (s : string) (targetLength : nat) (fill : ascii) : string :=
  s +:+ pad (targetLength - String.length s) fill.

(** The loop over the strings that widens [maxW]. *)
Fixpoint max_width (measure : Sequencer.measure) (pos : nat)
    (strs : list nat) (maxW : nat) : option nat :=
  match strs with
  | [] => Some maxW
  | strIdx :: rest =>
      c ← cell measure strIdx pos;
      max_width measure pos rest
        (if maxW <? String.length c then String.length c else maxW)
  end.

Definition colWidths (measure : Sequencer.measure) : option (list nat) :=
  mapM (fun pos => max_width measure pos (seq 0 5) 1) (seq 0 16).

Definition measureColWidths (measures : list Sequencer.measure)
  : option (list (list nat)) :=
  mapM colWidths measures.

(** [measureColWidths[m][pos]]. *)
Definition width (widths : list (list nat)) (m pos : nat) : nat :=
  (widths !!! m) !!! pos.

(** The loop over the positions that fills [uiTabPositions[m]]. *)
Fixpoint place_cells (widths : list (list nat)) (m : nat) (poss : list nat)
    (currentChOffset : nat) (entry : gmap nat position)
  : nat * gmap nat position :=
  match poss with
  | [] => (currentChOffset, entry)
  | pos :: rest =>
      let w := width widths m pos in
      place_cells widths m rest (currentChOffset + w)
        (<[pos := {| leftCh := currentChOffset; widthCh := w |}]> entry)
  end.

(** The loop over the measures [ms] that lays out the columns and the
    chord line. *)
Fixpoint place_measures (widths : list (list nat)) (chordNames : list string)
    (startMeasureIdx : nat) (ms : list nat) (currentChOffset : nat)
    (chordLine : string) (ui : tab_positions)
  : nat * string * tab_positions :=
  match ms with
  | [] => (currentChOffset, chordLine, ui)
  | m :: rest =>
      let mLengthBefore := currentChOffset in
      let globalMeasureIdx := startMeasureIdx + m in
      let entry := default ∅ (ui !! globalMeasureIdx) in
      let '(currentChOffset, entry) :=
        place_cells widths m (seq 0 16) currentChOffset entry in
      let currentChOffset := currentChOffset + 1 in
      let wMeasure := currentChOffset - mLengthBefore in
      let name := default EmptyString (chordNames !! m) in
      place_measures widths chordNames startMeasureIdx rest currentChOffset
        (chordLine +:+ padEnd name wMeasure " ")
        (<[globalMeasureIdx := entry]> ui)
  end.

(** The loop over the positions that writes the cells of measure [m] on
    the line of string [strIdx]. *)
Fixpoint line_cells (measures : list Sequencer.measure)
    (widths : list (list nat)) (strIdx m : nat) (poss : list nat)
    (line : string) : option string :=
  match poss with
  | [] => Some line
  | pos :: rest =>
      measure ← measures !! m;
      val ← cell measure strIdx pos;
      let w := width widths m pos in
      let val := if String.length val <? w then padEnd val w "-" else val in
      line_cells measures widths strIdx m rest (line +:+ val)
  end.

Fixpoint line_measures (measures : list Sequencer.measure)
    (widths : list (list nat)) (strIdx : nat) (ms : list nat) (line : string)
  : option string :=
  match ms with
  | [] => Some line
  | m :: rest =>
      line ← line_cells measures widths strIdx m (seq 0 16) line;
      line_measures measures widths strIdx rest (line +:+ "|")
  end.

(** [renderMeasureRow(measures, chordNames, startMeasureIdx)] with the
    [uiTabPositions] it updates. *)
Definition renderMeasureRow (measures : list Sequencer.measure)
    (chordNames : list string) (startMeasureIdx : nat) (ui : tab_positions)
  : option (rendered * tab_positions) :=
  widths ← measureColWidths measures;
  let ms := seq 0 (length measures) in
  let '(_, chordLine, ui) :=
    place_measures widths chordNames startMeasureIdx ms 2 "  " ui in
  stringLines ←
    mapM (fun line : option string => line)
         (imap (fun strIdx name =>
                  line_measures measures widths strIdx ms (name +:+ "|"))
               STR_NAMES);
  Some ({| chordLine := chordLine; stringLines := stringLines |}, ui).

(** ** Vocabulary of the statements *)

(** Every cell of the 5 by 16 grid exists. *)
Definition full_grid (measure : Sequencer.measure) : Prop :=
  Forall (fun strIdx =>
            Forall (fun pos => is_Some (cell measure strIdx pos)) (seq 0 16))
         (seq 0 5).

(** The box recorded for position [pos] of measure [g]. *)
Definition box (ui : tab_positions) (g pos : nat) : option position :=
  entry ← ui !! g; entry !! pos.

End Render.

(* ================================================================== *)
(** * The rows of the tab and the beat cursor (audio.js)               *)
(* ================================================================== *)

Module TabView.

(** [arr.slice(start, start + 4)]. *)
Definition slice4 {A : Type} (start : nat) (arr : list A) : list A :=
  take 4 (drop start arr).

(** The loop of [buildTabHTML] over the rows [rows]: the lines it
    renders and the [uiTabPositions] it leaves.  The markup it wraps
    around the lines is not modelled. *)
Fixpoint render_rows (allChords : list string)
    (allMeasures : list Sequencer.measure) (rows : list nat)
    (ui : Render.tab_positions)
  : option (list Render.rendered * Render.tab_positions) :=
  match rows with
  | [] => Some ([], ui)
  | row :: rest =>
      let start := row * 4 in
      r ← Render.renderMeasureRow (slice4 start allMeasures)
             (slice4 start allChords) start ui;
      rs ← render_rows allChords allMeasures rest (snd r);
      Some (fst r :: fst rs, snd rs)
  end.

(** The data [buildTabHTML(progression, difficulty)] produces:
    [lastAllMeasures], the two rendered rows, and [uiTabPositions],
    which it resets first. *)
Definition buildTab (progression : Song.progression) (difficulty : string)
  : option (Sequencer.timeline * list Render.rendered * Render.tab_positions) :=
  allMeasures ← Song.allMeasures progression difficulty;
  let allChords := Song.chords progression ++ Song.chords progression in
  r ← render_rows allChords allMeasures [0; 1] ∅;
  Some (allMeasures, fst r, snd r).

(** What [updateVisualBeat(measureIdx, pos)] does to the beat cursors:
    nothing when the measure has no positions; else it shows the cursor
    of row [rowIdx] at the box of the position, which throws when the
    position has none. *)
Inductive beat : Type :=
  | NoCursor
  | Cursor (rowIdx : nat) (posData : Render.position)
  | CursorError.

Definition updateVisualBeat (ui : Render.tab_positions) (measureIdx pos : nat)
  : beat :=
  match ui !! measureIdx with
  | None => NoCursor
  | Some entry =>
      match entry !! pos with
      | Some posData => Cursor (measureIdx / 4) posData
      | None => CursorError
      end
  end.

End TabView.

(* ================================================================== *)
(** * Songs the synthesizers accept                                    *)
(* ================================================================== *)

(** The engine records the calls of [pluckString] and [metronomeClick]
    without running them.  In the browser these calls can themselves
    end in an exception: a fret so negative that the frequency
    underflows to zero makes [pluckString] ask for an array of infinite
    length ([RangeError]), and the oscillator rejects a ramp to a
    frequency of zero.  The statements about what a whole pass or a whole
    song schedules are therefore made for the songs of the
    specification's data model: measures of at least five rows whose
    cells are plain text and, where they name a fret, name a
    non-negative one that a number represents exactly; a positive tempo;
    a positive metronome pitch. *)
Module Score.

Definition MAX_SAFE_INTEGER : Z := 9007199254740991.

(** Only characters of the ASCII range. *)
Definition plain (c : string) : bool :=
  forallb (fun a => nat_of_ascii a <? 128) (list_ascii_of_string c).

Definition cell_ok (c : string) : bool :=
  plain c &&
  match Sequencer.read_cell (Some c) with
  | Sequencer.Fret fret =>
      ((0 <=? fret) && (fret + 79 <=? MAX_SAFE_INTEGER))%Z
  | _ => true
  end.

Definition measure_ok (m : Sequencer.measure) : bool :=
  (5 <=? length m) && forallb (forallb cell_ok) m.

Definition opts_ok (o : Sequencer.playOpts) : bool :=
  match Sequencer.metroPitch o with
  | Some pitch => negb (Qle_bool pitch 0)
  | None => true
  end.

Definition tempo_ok (bpm : Q) : bool := negb (Qle_bool bpm 0).

Definition input_ok (i : Sequencer.input) : bool :=
  match i with
  | Sequencer.PlaySong allMeasures bpm _ opts =>
      tempo_ok bpm && forallb measure_ok allMeasures && opts_ok opts
  | _ => true
  end.

(** A run in which every song started is one the synthesizers accept. *)
Definition songs_ok (inputs : list Sequencer.input) : Prop :=
  forallb input_ok inputs = true.

End Score.

(* ================================================================== *)
(** * Wake-ups and the session they belong to                          *)
(* ================================================================== *)

Module Lifecycle.

Import Sequencer.

(** Every pending wake-up of the scheduling loop is the one [timerID]
    names, and the engine is flagged as playing: as in the fresh engine,
    after a stop, during a session and after its natural end. *)
Definition wakeups_owned (st : state) : Prop :=
  Forall (fun t => action t = RunScheduler ->
                   isPlaying st = true /\ timerID st = Some (tid t))
         (timers st).

(** The user starts a measure with the metronome on and stops at once. *)
Definition start_then_stop : list input :=
  [PlaySong [Scenario.g_easy] 120 (Some 3) Scenario.metronome_on; StopSong].

(** What the event loop does next: the wake-up left pending runs, and
    four seconds later the wake-up it armed. *)
Definition after_the_stop : list input :=
  [Elapse 25 0.025%Q; Fire 225; Elapse 4000 4; Fire 227].

End Lifecycle.

(* ================================================================== *)
(** * Properties of the pitch mapper                                   *)
(* ================================================================== *)

Lemma midiToFreq_pos (note : Z) : (0 < Pitch.midiToFreq note)%R.
Proof.
  unfold Pitch.midiToFreq.
  apply Rmult_lt_0_compat; [lraR | apply exp_pos].
Qed.

Lemma midiToFreq_semitone (note : Z) :
  Pitch.midiToFreq (note + 1) =
  (Pitch.midiToFreq note * Rpower 2 (1 / 12))%R.
Proof.
  unfold Pitch.midiToFreq.
  rewrite plus_IZR, Rmult_assoc, <- Rpower_plus.
  do 2 f_equal. field.
Qed.

Lemma midiToFreq_increasing (a b : Z) :
  (a < b)%Z -> (Pitch.midiToFreq a < Pitch.midiToFreq b)%R.
Proof.
  intros Hab. unfold Pitch.midiToFreq.
  apply Rmult_lt_compat_l; [lraR |].
  apply Rpower_lt; [lraR |].
  apply IZR_lt in Hab. lraR.
Qed.

Lemma open_string_defined (str : nat) :
  str < 5 -> exists open, Pitch.OPEN_MIDI !! str = Some open.
Proof.
  intros H. do 5 (destruct str as [|str]; [eexists; reflexivity |]). lia.
Qed.

(** C6.  For every string index 0-4 and every integer fret (so for every
    non-negative one), the frequency of (string, fret) is defined and
    positive, one more fret multiplies it by exactly [2^(1/12)], and it
    is strictly increasing in the fret. *)
Theorem pitchToFrequency_semitone_monotone (str : nat) (fret : Z) :
  str < 5 ->
  exists f : R,
    Pitch.pitchToFrequency str fret = Some f /\
    (0 < f)%R /\
    Pitch.pitchToFrequency str (fret + 1) = Some (f * Rpower 2 (1 / 12))%R /\
    forall fret' : Z, (fret < fret')%Z ->
      exists f' : R,
        Pitch.pitchToFrequency str fret' = Some f' /\ (f < f')%R.
Proof.
  intros Hstr. destruct (open_string_defined str Hstr) as [open Hopen].
  unfold Pitch.pitchToFrequency. rewrite Hopen. cbn.
  eexists. split; [reflexivity |].
  split; [apply midiToFreq_pos |].
  split.
  - rewrite Z.add_assoc. now rewrite midiToFreq_semitone.
  - intros fret' Hlt. eexists. split; [reflexivity |].
    apply midiToFreq_increasing. lia.
Qed.

Lemma pitchToFrequency_witness :
  exists f : R,
    Pitch.pitchToFrequency 4 0 = Some f /\
    (0 < f)%R /\
    Pitch.pitchToFrequency 4 (0 + 1) = Some (f * Rpower 2 (1 / 12))%R /\
    forall fret' : Z, (0 < fret')%Z ->
      exists f' : R,
        Pitch.pitchToFrequency 4 fret' = Some f' /\ (f < f')%R.
Proof. apply (pitchToFrequency_semitone_monotone 4 0). lia. Defined.

(* ================================================================== *)
(** * Properties of the tab generator                                  *)
(* ================================================================== *)

Lemma chord_in_table (chordName : string) (c : Tab.chord) :
  Tab.CHORD_LIB !! chordName = Some c ->
  chordName ∈ ["G"; "C"; "D"; "D7"; "Em"; "Am"].
Proof.
  unfold Tab.CHORD_LIB. intros H.
  repeat (apply lookup_insert_Some in H as [[<- _] | [_ H]];
          [repeat constructor |]).
  rewrite lookup_empty in H. discriminate.
Qed.

(** The grid only depends on the outcome of the tests on [variation]. *)
Lemma generateMeasure_checked (chordName difficulty : string) (variation : Z) :
  chordName ∈ ["G"; "C"; "D"; "D7"; "Em"; "Am"] ->
  exists m, Tab.generateMeasure chordName difficulty variation = Some m /\
            Tab.grid_ok m = true.
Proof.
  intros Hin. unfold Tab.generateMeasure.
  assert (Hcases : chordName = "G" \/ chordName = "C" \/ chordName = "D" \/
                   chordName = "D7" \/ chordName = "Em" \/ chordName = "Am").
  { repeat (apply elem_of_cons in Hin as [Hin | Hin]; [auto 10 |]).
    apply elem_of_nil in Hin. contradiction. }
  destruct Hcases as [-> | [-> | [-> | [-> | [-> | ->]]]]];
    (destruct (String.eqb difficulty "easy");
     [ destruct (JS.rem variation 2 =? 1)%Z
     | destruct (JS.rem variation 3 =? 0)%Z,
                (JS.rem variation 3 =? 1)%Z,
                (JS.rem variation 4 =? 0)%Z ];
     eexists; split; vm_compute; reflexivity).
Qed.

Lemma cell_ok_cases (c : string) :
  Tab.cell_ok c = true ->
  c = "-" \/ c = "h2" \/
  exists d : Z, (0 <= d <= 4)%Z /\ c = JS.toString d.
Proof.
  unfold Tab.cell_ok. intros H.
  repeat (apply orb_prop in H as [H | H]);
    apply String.eqb_eq in H; subst; auto;
    right; right;
    [exists 0%Z | exists 1%Z | exists 2%Z | exists 3%Z | exists 4%Z];
    (split; [lia | reflexivity]).
Qed.

Lemma grid_ok_shape (m : Sequencer.measure) :
  Tab.grid_ok m = true ->
  length m = 5 /\
  forall (str : nat) (row : list string), m !! str = Some row ->
    length row = 16 /\
    forall (pos : nat) (c : string), row !! pos = Some c ->
      Tab.cell_ok c = true.
Proof.
  unfold Tab.grid_ok. intros H.
  apply andb_prop in H as [Hlen Hrows].
  apply Nat.eqb_eq in Hlen. split; [exact Hlen |].
  intros str row Hrow.
  rewrite forallb_forall in Hrows.
  assert (Hr : In row m) by (apply list_elem_of_In; eapply list_elem_of_lookup_2; eauto).
  apply Hrows in Hr. apply andb_prop in Hr as [Hl Hcells].
  apply Nat.eqb_eq in Hl. split; [exact Hl |].
  intros pos c Hc. rewrite forallb_forall in Hcells. apply Hcells.
  apply list_elem_of_In. eapply list_elem_of_lookup_2; eauto.
Qed.

Lemma Math_round_R_ge_1 (x : R) : (/ 2 <= x)%R -> (1 <= JS.Math_round_R x)%Z.
Proof.
  intros Hx. unfold JS.Math_round_R.
  destruct (base_Int_part (x + / 2)) as [_ Hlow].
  assert (H0 : (0 < IZR (Int_part (x + / 2)))%R) by lraR.
  apply lt_IZR in H0. lia.
Qed.

Lemma midiToFreq_le_1760 (note : Z) :
  (note <= 93)%Z -> (Pitch.midiToFreq note <= 1760)%R.
Proof.
  intros Hn. unfold Pitch.midiToFreq.
  assert (Hp : (Rpower 2 ((IZR note - 69) / 12) <= Rpower 2 (INR 2))%R).
  { apply Rle_Rpower; [lraR |]. apply IZR_le in Hn. simpl. lraR. }
  rewrite Rpower_pow in Hp by lraR. simpl in Hp. lraR.
Qed.

Lemma bufLen_ge_1 (sampleRate : R) (note : Z) :
  (1000 <= sampleRate)%R -> (note <= 93)%Z ->
  (1 <= Pitch.bufLen sampleRate (Pitch.midiToFreq note))%Z.
Proof.
  intros Hsr Hn. unfold Pitch.bufLen. apply Math_round_R_ge_1.
  pose proof (midiToFreq_pos note) as Hpos.
  pose proof (midiToFreq_le_1760 note Hn) as Hle.
  apply Rmult_le_reg_r with (r := Pitch.midiToFreq note); [exact Hpos |].
  unfold Rdiv. rewrite Rmult_assoc, Rinv_l by lraR. lraR.
Qed.

Lemma open_midi_le_79 (str : nat) (open : Z) :
  Pitch.OPEN_MIDI !! str = Some open -> (open <= 79)%Z.
Proof.
  do 5 (destruct str as [|str]; [intros [= <-]; lia |]). discriminate.
Qed.

(** C10.  For a chord of the chord table, any difficulty and any
    variation index, [generateMeasure] returns a grid of exactly 5 rows
    of 16 cells; every cell is ["-"], ["h2"] or a one-digit string of
    value 0 to 4; the sequencer never takes its unparseable-fret branch
    on such a cell; and (on a context whose sample rate is at least
    1000 Hz) every delay line allocated for such a cell has length at
    least 1. *)
Theorem generateMeasure_well_formed
    (chordName difficulty : string) (variation : Z) (sampleRate : R) :
  is_Some (Tab.CHORD_LIB !! chordName) ->
  (1000 <= sampleRate)%R ->
  exists m : Sequencer.measure,
    Tab.generateMeasure chordName difficulty variation = Some m /\
    length m = 5 /\
    forall (str : nat) (row : list string), m !! str = Some row ->
      length row = 16 /\
      forall (pos : nat) (c : string), row !! pos = Some c ->
        (c = "-" \/ c = "h2" \/
         exists d : Z, (0 <= d <= 4)%Z /\ c = JS.toString d /\
                       String.length c = 1 /\ JS.parseInt c = Some d) /\
        Sequencer.read_cell (Some c) <> Sequencer.Unparseable /\
        forall fret : Z, Sequencer.read_cell (Some c) = Sequencer.Fret fret ->
          exists f : R,
            Pitch.pitchToFrequency str fret = Some f /\
            (1 <= Pitch.bufLen sampleRate f)%Z.
Proof.
  intros [ch Hch] Hsr.
  destruct (generateMeasure_checked chordName difficulty variation
              (chord_in_table _ _ Hch)) as (m & Hm & Hok).
  exists m. split; [exact Hm |].
  destruct (grid_ok_shape m Hok) as [Hlen Hrows].
  split; [exact Hlen |].
  intros str row Hrow. destruct (Hrows str row Hrow) as [Hl Hcells].
  split; [exact Hl |].
  intros pos c Hc.
  assert (Hstr : str < 5) by (rewrite <- Hlen; eapply lookup_lt_Some; eauto).
  destruct (open_string_defined str Hstr) as [open Hopen].
  pose proof (open_midi_le_79 str open Hopen) as Hopen79.
  assert (Hbuf : forall fret : Z, (fret <= 4)%Z ->
            exists f : R, Pitch.pitchToFrequency str fret = Some f /\
                          (1 <= Pitch.bufLen sampleRate f)%Z).
  { intros fret Hf. unfold Pitch.pitchToFrequency. rewrite Hopen. cbn.
    eexists. split; [reflexivity |]. apply bufLen_ge_1; [exact Hsr | lia]. }
  destruct (cell_ok_cases c (Hcells pos c Hc)) as [-> | [-> | (d & Hd & ->)]].
  - split; [auto |]. split; [discriminate |]. intros fret [=].
  - split; [auto |]. split; [discriminate |].
    intros fret [= <-]. apply Hbuf. lia.
  - assert (Hcases : d = 0%Z \/ d = 1%Z \/ d = 2%Z \/ d = 3%Z \/ d = 4%Z) by lia.
    destruct Hcases as [-> | [-> | [-> | [-> | ->]]]];
      (split;
         [right; right;
          match goal with |- context [JS.toString ?n] => exists n end;
          split; [lia |]; split; [reflexivity |]; split; reflexivity |];
       split; [discriminate |];
       intros fret [= <-]; apply Hbuf; lia).
Qed.

Lemma generateMeasure_well_formed_witness :
  exists m : Sequencer.measure,
    Tab.generateMeasure "D" "medium" 1 = Some m /\
    length m = 5 /\
    forall (str : nat) (row : list string), m !! str = Some row ->
      length row = 16 /\
      forall (pos : nat) (c : string), row !! pos = Some c ->
        (c = "-" \/ c = "h2" \/
         exists d : Z, (0 <= d <= 4)%Z /\ c = JS.toString d /\
                       String.length c = 1 /\ JS.parseInt c = Some d) /\
        Sequencer.read_cell (Some c) <> Sequencer.Unparseable /\
        forall fret : Z, Sequencer.read_cell (Some c) = Sequencer.Fret fret ->
          exists f : R,
            Pitch.pitchToFrequency str fret = Some f /\
            (1 <= Pitch.bufLen 44100 f)%Z.
Proof.
  apply (generateMeasure_well_formed "D" "medium" 1 44100).
  - eexists. reflexivity.
  - lraR.
Defined.

(* ================================================================== *)
(** * Properties of the string synthesizer                             *)
(* ================================================================== *)

Section KarplusStrongFacts.

Import KarplusStrong.

Variable random : nat -> Q.
Variables (decay : Q) (bufLen totalSamples : nat).

Local Abbreviation run := (ks_run random decay bufLen totalSamples).

Lemma ks_loop_snoc (count from : nat) (s : ks_state) :
  ks_loop decay bufLen (S count) from s =
  ks_body decay bufLen (from + count) (ks_loop decay bufLen count from s).
Proof.
  revert from s. induction count as [|count IH]; intros from s.
  - cbn. now rewrite Nat.add_0_r.
  - change (ks_loop decay bufLen (S (S count)) from s)
      with (ks_loop decay bufLen (S count) (S from) (ks_body decay bufLen from s)).
    rewrite IH. cbn [ks_loop]. now rewrite Nat.add_succ_r.
Qed.

(** One more iteration is the loop body applied to the state reached. *)
Lemma ks_run_S (n : nat) : run (S n) = ks_body decay bufLen n (run n).
Proof. unfold ks_run. now rewrite ks_loop_snoc. Qed.

Lemma ks_run_out_length (n : nat) : length (out (run n)) = totalSamples.
Proof.
  induction n as [|n IH].
  - cbn. apply length_replicate.
  - rewrite ks_run_S. cbn. now rewrite length_insert.
Qed.

Lemma ks_run_delay_length (n : nat) : length (delay (run n)) = bufLen.
Proof.
  induction n as [|n IH].
  - cbn. unfold seed_noise. now rewrite length_fmap, length_seq.
  - rewrite ks_run_S. cbn. unfold write.
    destruct (ptr (run n)); [now rewrite length_insert | exact IH].
Qed.

(** The read pointer walks the delay line circularly. *)
Lemma ks_run_ptr (n : nat) : 0 < bufLen -> ptr (run n) = Some (n mod bufLen).
Proof.
  intros Hpos. induction n as [|n IH].
  - cbn. now rewrite Nat.Div0.mod_0_l.
  - rewrite ks_run_S. cbn. rewrite IH. cbn.
    destruct (Nat.eqb_spec bufLen 0) as [-> | _]; [lia |].
    f_equal. rewrite Nat.Div0.add_mod_idemp_l. f_equal. lia.
Qed.

(** Sample [n] of the output is written by iteration [n] and never
    overwritten. *)
Lemma ks_run_out_lookup (k n : nat) :
  n < k -> n < totalSamples ->
  out (run k) !! n = Some (read (delay (run n)) (ptr (run n))).
Proof.
  intros Hnk Hn. induction k as [|k IH]; [lia |].
  rewrite ks_run_S. cbn.
  destruct (decide (n = k)) as [-> | Hne].
  - apply list_lookup_insert_eq. now rewrite ks_run_out_length.
  - rewrite list_lookup_insert_ne by congruence. apply IH. lia.
Qed.

Lemma seed_noise_lookup (i : nat) :
  i < bufLen -> seed_noise random bufLen !! i = Some (Some (random i * 2 - 1)%Q).
Proof.
  intros Hi. unfold seed_noise. rewrite list_lookup_fmap.
  now rewrite lookup_seq_lt.
Qed.

End KarplusStrongFacts.

Lemma Math_round_nearest (x : Q) :
  (x - (1 # 2) < inject_Z (JS.Math_round x) /\
   inject_Z (JS.Math_round x) <= x + (1 # 2))%Q.
Proof.
  unfold JS.Math_round.
  pose proof (Qfloor_le (x + (1 # 2))) as Hle.
  pose proof (Qlt_floor (x + (1 # 2))) as Hlt.
  rewrite inject_Z_plus in Hlt. change (inject_Z 1) with 1%Q in Hlt.
  split; lraQ.
Qed.

Lemma Qdiv_pos (a b : Q) : (0 < a -> 0 < b -> 0 < a / b)%Q.
Proof.
  intros Ha Hb. apply Qlt_shift_div_l; [exact Hb | lraQ].
Qed.


(* ================================================================== *)
(** * The sequencer: framing, loop rule, termination                   *)
(* ================================================================== *)

Section SequencerFrame.

Import Sequencer Frame.

Lemma core_getAudioCtx (st : state) : core (getAudioCtx st) = core st.
Proof. unfold getAudioCtx. now destruct (audioCtx st). Qed.

Lemma core_setTimeout (a : timer_action) (d : Q) (st : state) :
  core (snd (setTimeout a d st)) = core st.
Proof. reflexivity. Qed.

Lemma core_clearTimeout (id : option nat) (st : state) :
  core (clearTimeout id st) = core st.
Proof. now destruct id. Qed.

Lemma core_set_timerID (id : option nat) (st : state) :
  core (set_timerID id st) = core st.
Proof. reflexivity. Qed.

Lemma core_stopSong (st : state) : core (stopSong st) = core st.
Proof.
  unfold stopSong, clearTimeout. cbn.
  destruct (timerID st); cbn; now destruct (audioCtx st).
Qed.

Lemma core_elapse (ms sec : Q) (st : state) : core (elapse ms sec st) = core st.
Proof. unfold elapse. now destruct (Qle_bool 0 ms), (Qle_bool 0 sec). Qed.

Lemma core_on_drain (st : state) : core (on_drain st) = core st.
Proof.
  unfold on_drain. destruct (isPlaying st); [| reflexivity].
  cbn. now destruct (masterOnStop st).
Qed.

Lemma core_updateAudioSettings (bVol mVol mPitch : Q) (mEnabled mAccent : bool)
    (st : state) :
  core (updateAudioSettings bVol mVol mPitch mEnabled mAccent st) = core st.
Proof.
  unfold updateAudioSettings, getAudioCtx.
  destruct st; cbn. repeat (case_match; cbn); reflexivity.
Qed.

(** One unfolding of the scheduling loop. *)
Lemma scheduler_loop_eq (fuel : nat) (st0 : state) :
  scheduler_loop fuel st0 =
  let st := getAudioCtx st0 in
  if Qlt_le_dec (nextNoteTime st) (currentTime st + SCHEDULE_AHEAD_TIME)%Q then
    if length (currentMeasures st) <=? currentMeasure st then
      Some (Normal,
            snd (setTimeout RunDrain
                   ((nextNoteTime st - currentTime st) * 1000 + 3500)%Q st))
    else
      match fuel with
      | O => None
      | S fuel' =>
          match scheduleNote (currentMeasure st) (currentPos st)
                             (nextNoteTime st) st with
          | (Throw, st') => Some (Throw, st')
          | (Normal, st') => scheduler_loop fuel' (nextNote st')
          end
      end
  else
    Some (Normal,
          set_timerID (Some (nextTimer st))
            (snd (setTimeout RunScheduler LOOKAHEAD st))).
Proof. destruct fuel; reflexivity. Qed.

(** Loop rule: a property of the session variables that [scheduleNote]
    (at the current position) and [nextNote] preserve is preserved by
    the scheduling loop. *)
Lemma scheduler_loop_preserves (P : state -> Prop) :
  core_based P ->
  (forall (st : state) (c : completion) (st' : state),
     P st -> currentMeasure st < length (currentMeasures st) ->
     scheduleNote (currentMeasure st) (currentPos st) (nextNoteTime st) st
       = (c, st') ->
     P st') ->
  (forall st : state, P st -> P (nextNote st)) ->
  forall (fuel : nat) (st : state) (c : completion) (st' : state),
    P st -> scheduler_loop fuel st = Some (c, st') -> P st'.
Proof.
  intros Hcore Hnote Hnext.
  induction fuel as [|fuel IH]; intros st c st' HP Hrun;
    rewrite scheduler_loop_eq in Hrun; cbn zeta in Hrun;
    assert (HP1 : P (getAudioCtx st))
      by (eapply Hcore; [symmetry; apply core_getAudioCtx | exact HP]);
    destruct (Qlt_le_dec _ _);
    try (injection Hrun as <- <-; eapply Hcore; [| exact HP1]; reflexivity);
    destruct (Nat.leb_spec (length (currentMeasures (getAudioCtx st)))
                           (currentMeasure (getAudioCtx st)));
    try (injection Hrun as <- <-; eapply Hcore; [| exact HP1]; reflexivity);
    try discriminate.
  destruct (scheduleNote _ _ _ _) as [[|] st1] eqn:E.
  - eapply IH; [| exact Hrun]. apply Hnext. eapply Hnote; eauto.
  - injection Hrun as <- <-. eapply Hnote; eauto.
Qed.

(** Unfolding equations of the environment. *)
Lemma run_cons (st : state) (i : input) (rest : list input) :
  run st (i :: rest) = step st i ≫= fun st' => run st' rest.
Proof. reflexivity. Qed.

Lemma run_step (st st1 : state) (i : input) (rest : list input) :
  step st i = Some st1 -> run st (i :: rest) = run st1 rest.
Proof. intros H. rewrite run_cons, H. reflexivity. Qed.

Lemma run_app (st st1 : state) (l1 l2 : list input) :
  run st l1 = Some st1 -> run st (l1 ++ l2) = run st1 l2.
Proof.
  revert st. induction l1 as [|i l1 IH]; intros st H.
  - injection H as ->. reflexivity.
  - rewrite run_cons in H. destruct (step st i) as [s|] eqn:E; [| discriminate].
    rewrite <- app_comm_cons, (run_step st s i _ E). now apply IH.
Qed.

Lemma step_PlaySong (m : timeline) (bpm : Q) (cb : option callback)
    (opts : playOpts) (st : state) :
  step st (PlaySong m bpm cb opts) = snd <$> playSong m bpm cb opts st.
Proof. reflexivity. Qed.

Lemma step_StopSong (st : state) : step st StopSong = Some (stopSong st).
Proof. reflexivity. Qed.

Lemma step_UpdateAudioSettings (bVol mVol mPitch : Q) (mE mA : bool)
    (st : state) :
  step st (UpdateAudioSettings bVol mVol mPitch mE mA) =
  Some (updateAudioSettings bVol mVol mPitch mE mA st).
Proof. reflexivity. Qed.

Lemma step_Elapse (ms sec : Q) (st : state) :
  step st (Elapse ms sec) = Some (elapse ms sec st).
Proof. reflexivity. Qed.

Lemma step_Fire (id : nat) (st : state) : step st (Fire id) = fire id st.
Proof. reflexivity. Qed.

Lemma playSong_unfold (m : timeline) (bpm : Q) (cb : option callback)
    (opts : playOpts) (st : state) :
  playSong m bpm cb opts st =
  scheduler_loop (scheduler_fuel (playSong_setup m bpm cb opts st))
                 (playSong_setup m bpm cb opts st).
Proof. reflexivity. Qed.

Lemma scheduler_unfold (st : state) :
  scheduler st = scheduler_loop (scheduler_fuel st) st.
Proof. reflexivity. Qed.

Lemma core_playSong_setup (m : timeline) (bpm : Q) (cb : option callback)
    (opts : playOpts) (st : state) :
  core (playSong_setup m bpm cb opts st) =
  (bpm, m, opts,
   (currentTime (getAudioCtx (if isPlaying st then stopSong st else st)) + 0.1)%Q,
   0, 0, []).
Proof.
  unfold playSong_setup. rewrite core_updateAudioSettings. reflexivity.
Qed.

(** The loop rule lifted to one input of the environment. *)
Lemma step_preserves (G : input -> Prop) (P : state -> Prop) :
  core_based P ->
  (forall (st : state) (c : completion) (st' : state),
     P st -> currentMeasure st < length (currentMeasures st) ->
     scheduleNote (currentMeasure st) (currentPos st) (nextNoteTime st) st
       = (c, st') ->
     P st') ->
  (forall st : state, P st -> P (nextNote st)) ->
  (forall (st : state) (m : timeline) (bpm : Q) (cb : option callback)
          (opts : playOpts) (t : Q),
     G (PlaySong m bpm cb opts) ->
     core st = (bpm, m, opts, t, 0, 0, []) -> P st) ->
  forall (i : input) (st st1 : state),
    G i -> P st -> step st i = Some st1 -> P st1.
Proof.
  intros Hcore Hnote Hnext Hplay i st st1 Hi HP Hstep.
  destruct i as [m bpm cb opts | | bVol mVol mPitch mE mA | ms sec | id].
  - rewrite step_PlaySong, playSong_unfold in Hstep.
    destruct (scheduler_loop _ _) as [[c st2]|] eqn:Hs; [| discriminate].
    injection Hstep as <-.
    eapply (scheduler_loop_preserves P Hcore Hnote Hnext); [| exact Hs].
    eapply (Hplay _ m bpm cb opts); [exact Hi |].
    apply core_playSong_setup.
  - rewrite step_StopSong in Hstep. injection Hstep as <-.
    eapply Hcore; [| exact HP]. symmetry. apply core_stopSong.
  - rewrite step_UpdateAudioSettings in Hstep. injection Hstep as <-.
    eapply Hcore; [| exact HP]. symmetry. apply core_updateAudioSettings.
  - rewrite step_Elapse in Hstep. injection Hstep as <-.
    eapply Hcore; [| exact HP]. symmetry. apply core_elapse.
  - rewrite step_Fire in Hstep. unfold fire in Hstep.
    destruct (List.find _ _) as [t|]; [| now injection Hstep as <-].
    destruct (Qle_bool _ _); [| now injection Hstep as <-].
    assert (HP1 : P (clearTimeout (Some id) st))
      by (eapply Hcore; [| exact HP]; symmetry; apply core_clearTimeout).
    destruct (action t).
    + rewrite scheduler_unfold in Hstep.
      destruct (scheduler_loop _ _) as [[c st2]|] eqn:Hs; [| discriminate].
      injection Hstep as <-.
      eapply (scheduler_loop_preserves P Hcore Hnote Hnext); [| exact Hs].
      exact HP1.
    + injection Hstep as <-.
      eapply Hcore; [| exact HP1]. symmetry. apply core_on_drain.
Qed.

(** The same for a whole run of the engine, from any state. *)
Lemma run_preserves (G : input -> Prop) (P : state -> Prop) :
  core_based P ->
  (forall (st : state) (c : completion) (st' : state),
     P st -> currentMeasure st < length (currentMeasures st) ->
     scheduleNote (currentMeasure st) (currentPos st) (nextNoteTime st) st
       = (c, st') ->
     P st') ->
  (forall st : state, P st -> P (nextNote st)) ->
  (forall (st : state) (m : timeline) (bpm : Q) (cb : option callback)
          (opts : playOpts) (t : Q),
     G (PlaySong m bpm cb opts) ->
     core st = (bpm, m, opts, t, 0, 0, []) -> P st) ->
  forall (inputs : list input) (st st' : state),
    Forall G inputs -> P st -> run st inputs = Some st' -> P st'.
Proof.
  intros Hcore Hnote Hnext Hplay.
  induction inputs as [|i inputs IH]; intros st st' HG HP Hrun.
  - injection Hrun as <-. exact HP.
  - apply Forall_cons in HG as [Hi HG]. rewrite run_cons in Hrun.
    destruct (step st i) as [st1|] eqn:Hstep; [| discriminate].
    apply (IH st1 st' HG); [| exact Hrun].
    eapply (step_preserves G P); eauto.
Qed.

End SequencerFrame.

(* ================================================================== *)
(** * The sequencer: what one scheduling step does                     *)
(* ================================================================== *)

Section SequencerSteps.

Import Sequencer Frame Session.

Lemma string_loop_calls (m : measure) (pos : nat) (time : Q) (strs : list nat) :
  Forall (fun c => is_click c = false /\ call_time c = time)
         (snd (string_loop m pos time strs)).
Proof.
  induction strs as [|str strs IH]; cbn; [constructor |].
  destruct (m !! str) as [row|]; [| constructor].
  destruct (string_loop m pos time strs) as [c later]. cbn in *.
  apply Forall_app. split; [| exact IH].
  destruct (read_cell (row !! pos)); repeat constructor.
Qed.

Lemma click_calls_time (o : playOpts) (pos : nat) (time : Q) :
  Forall (fun c => call_time c = time) (click_calls o pos time).
Proof. unfold click_calls. case_match; repeat constructor. Qed.

(** [scheduleNote] records one call and touches nothing else of the
    session. *)
Lemma scheduleNote_spec (measureIdx pos : nat) (time : Q) (st : state)
    (c : completion) (st' : state) :
  scheduleNote measureIdx pos time st = (c, st') ->
  exists plucks : list synth_call,
    Forall (fun c => is_click c = false /\ call_time c = time) plucks /\
    st' = set_notes
            (notes st ++
             [{| n_measure := measureIdx; n_pos := pos; n_time := time;
                 n_calls := click_calls (currentPlayOpts st) pos time ++ plucks |}])
            (getAudioCtx st).
Proof.
  unfold scheduleNote. intros H.
  assert (Hn : notes (getAudioCtx st) = notes st)
    by (unfold getAudioCtx; now destruct (audioCtx st)).
  assert (Ho : currentPlayOpts (getAudioCtx st) = currentPlayOpts st)
    by (unfold getAudioCtx; now destruct (audioCtx st)).
  assert (Hm : currentMeasures (getAudioCtx st) = currentMeasures st)
    by (unfold getAudioCtx; now destruct (audioCtx st)).
  rewrite Hn, Ho, Hm in H.
  destruct (currentMeasures st !! measureIdx) as [m|].
  - pose proof (string_loop_calls m pos time (seq 0 5)) as Hcalls.
    destruct (string_loop m pos time (seq 0 5)) as [c0 plucks].
    injection H as <- <-. exists plucks. split; [exact Hcalls | reflexivity].
  - injection H as <- <-. exists []. split; [constructor | reflexivity].
Qed.

Lemma core_scheduleNote (measureIdx pos : nat) (time : Q) (st : state)
    (c : completion) (st' : state) :
  scheduleNote measureIdx pos time st = (c, st') ->
  exists r : note_record,
    core st' = (currentBpm st, currentMeasures st, currentPlayOpts st,
                nextNoteTime st, currentMeasure st, currentPos st,
                notes st ++ [r]) /\
    n_measure r = measureIdx /\ n_pos r = pos /\ n_time r = time /\
    (exists plucks : list synth_call,
       n_calls r = click_calls (currentPlayOpts st) pos time ++ plucks /\
       Forall (fun c => is_click c = false /\ call_time c = time) plucks).
Proof.
  intros H. apply scheduleNote_spec in H as (plucks & Hp & ->).
  eexists. split.
  - pose proof (core_getAudioCtx st) as Hc. unfold core in *. cbn.
    injection Hc as -> -> -> -> -> -> _. reflexivity.
  - cbn. repeat split; eauto.
Qed.

(** [nextNote] moves to the next grid position and adds one sixteenth
    note at the current tempo. *)
Lemma nextNote_spec (st : state) :
  currentPos st < 16 ->
  currentPos (nextNote st) < 16 /\
  grid_index (currentMeasure (nextNote st)) (currentPos (nextNote st)) =
    S (grid_index (currentMeasure st) (currentPos st)) /\
  nextNoteTime (nextNote st) =
    (nextNoteTime st + 0.25 * (60 / currentBpm st))%Q /\
  currentBpm (nextNote st) = currentBpm st /\
  currentMeasures (nextNote st) = currentMeasures st /\
  currentPlayOpts (nextNote st) = currentPlayOpts st /\
  notes (nextNote st) = notes st.
Proof.
  intros Hpos. unfold nextNote, grid_index. cbn.
  destruct (Nat.eqb_spec (currentPos st) 15) as [E | E]; cbn;
    repeat split; try reflexivity; lia.
Qed.

Lemma nextNote_frame (st : state) :
  currentBpm (nextNote st) = currentBpm st /\
  currentMeasures (nextNote st) = currentMeasures st /\
  currentPlayOpts (nextNote st) = currentPlayOpts st /\
  notes (nextNote st) = notes st.
Proof.
  unfold nextNote. cbn. destruct (currentPos st =? 15); cbn; auto.
Qed.

(** ** Termination of the scheduling loop *)

Lemma scheduler_loop_total (fuel : nat) (st : state) :
  currentPos st < 16 ->
  16 * length (currentMeasures st)
    <= fuel + grid_index (currentMeasure st) (currentPos st) ->
  exists r, scheduler_loop fuel st = Some r.
Proof.
  revert st. induction fuel as [|fuel IH]; intros st Hpos Hfuel;
    rewrite scheduler_loop_eq; cbn zeta;
    pose proof (core_getAudioCtx st) as Hc; unfold core in Hc;
    injection Hc as _ Hm _ _ Hcm Hcp _;
    destruct (Qlt_le_dec _ _); eauto;
    destruct (Nat.leb_spec (length (currentMeasures (getAudioCtx st)))
                           (currentMeasure (getAudioCtx st))); eauto;
    unfold grid_index in Hfuel; rewrite Hm, Hcm in *; try lia.
  destruct (scheduleNote _ _ _ _) as [[|] st1] eqn:E; eauto.
  apply core_scheduleNote in E as (r & Hcore & _).
  unfold core in Hcore. injection Hcore as _ Hm1 _ _ Hcm1 Hcp1 _.
  assert (Hpos1 : currentPos st1 < 16) by (rewrite Hcp1, Hcp; exact Hpos).
  destruct (nextNote_spec st1 Hpos1) as (Hp2 & Hg2 & _ & _ & Hm2 & _).
  apply IH; [exact Hp2 |].
  rewrite Hg2, Hm2. unfold grid_index. rewrite Hm1, Hcm1, Hcp1, Hm, Hcm, Hcp.
  lia.
Qed.

Lemma scheduler_total (st : state) :
  currentPos st < 16 -> exists r, scheduler st = Some r.
Proof.
  intros Hpos. apply scheduler_loop_total; [exact Hpos |].
  unfold scheduler_fuel. lia.
Qed.

Lemma position_invariant (inputs : list input) (st st' : state) :
  currentPos st < 16 -> run st inputs = Some st' -> currentPos st' < 16.
Proof.
  intros Hpos Hrun.
  apply (run_preserves (fun _ => True) (fun s => currentPos s < 16))
    with (inputs := inputs) (st := st); auto.
  - intros s s' Hc. unfold core in Hc. now injection Hc as _ _ _ _ _ -> _.
  - intros s c s' Hs _ E. apply core_scheduleNote in E as (r & Hc & _).
    unfold core in Hc. now injection Hc as _ _ _ _ _ -> _.
  - intros s Hs. now apply nextNote_spec.
  - intros s m bpm cb opts t _ Hc. unfold core in Hc.
    injection Hc as _ _ _ _ _ -> _. lia.
  - now apply Forall_forall.
Qed.

(** Every run of the engine from a state with a valid position goes
    through: no scheduling pass exhausts its fuel. *)
Lemma run_total (inputs : list input) (st : state) :
  currentPos st < 16 -> exists st', run st inputs = Some st'.
Proof.
  revert st. induction inputs as [|i inputs IH]; intros st Hpos;
    [eexists; reflexivity |].
  assert (Hstep : exists st1, step st i = Some st1).
  { destruct i as [m bpm cb opts | | bVol mVol mPitch mE mA | ms sec | id].
    - rewrite step_PlaySong, playSong_unfold, <- scheduler_unfold.
      destruct (scheduler_total (playSong_setup m bpm cb opts st)) as [r ->];
        [| eexists; reflexivity].
      pose proof (core_playSong_setup m bpm cb opts st) as Hc.
      unfold core in Hc. injection Hc as _ _ _ _ _ -> _. lia.
    - rewrite step_StopSong. eauto.
    - rewrite step_UpdateAudioSettings. eauto.
    - rewrite step_Elapse. eauto.
    - rewrite step_Fire. unfold fire.
      destruct (List.find _ _) as [t|]; eauto.
      destruct (Qle_bool _ _); eauto.
      destruct (action t); eauto.
      destruct (scheduler_total (clearTimeout (Some id) st)) as [r ->];
        [| eexists; reflexivity].
      exact Hpos. }
  destruct Hstep as [st1 Hstep]. rewrite run_cons, Hstep.
  apply IH. apply (position_invariant [i] st st1 Hpos).
  now rewrite run_cons, Hstep.
Qed.

End SequencerSteps.

(* ================================================================== *)
(** * The sequencer: timing of a session                               *)
(* ================================================================== *)

Section SessionTiming.

Import Sequencer Frame Session.

Lemma sixteenth_pos (bpm : Q) : (0 < bpm)%Q -> (0 < sixteenth bpm)%Q.
Proof.
  intros H. unfold sixteenth.
  assert (0 < 60 / bpm)%Q by (apply Qdiv_pos; [reflexivity | exact H]).
  lraQ.
Qed.

Lemma grid_time_S (t0 six : Q) (k : nat) :
  (grid_time t0 six (S k) == grid_time t0 six k + six)%Q.
Proof.
  unfold grid_time. rewrite Nat2Z.inj_succ. unfold Z.succ.
  rewrite inject_Z_plus. ring.
Qed.

Lemma grid_time_le (t0 six : Q) (a b : nat) :
  (0 < six)%Q -> a <= b -> (grid_time t0 six a <= grid_time t0 six b)%Q.
Proof.
  intros Hsix Hab. unfold grid_time.
  apply Qplus_le_r. apply Qmult_le_compat_r; [| lraQ].
  rewrite <- Zle_Qle. lia.
Qed.

Lemma grid_time_lt (t0 six : Q) (a b : nat) :
  (0 < six)%Q -> a < b -> (grid_time t0 six a < grid_time t0 six b)%Q.
Proof.
  intros Hsix Hab. unfold grid_time.
  apply Qplus_lt_r. apply Qmult_lt_compat_r; [exact Hsix |].
  rewrite <- Zlt_Qlt. lia.
Qed.

Lemma session_inv_core (t0 : Q) : core_based (session_inv t0).
Proof.
  intros st st' Hc. unfold core in Hc.
  injection Hc as Hb _ _ Ht Hm Hp Hn.
  unfold session_inv. now rewrite Hb, Ht, Hm, Hp, Hn.
Qed.

Lemma session_inv_scheduleNote (t0 : Q) (st : state) (c : completion)
    (st' : state) :
  session_inv t0 st ->
  scheduleNote (currentMeasure st) (currentPos st) (nextNoteTime st) st
    = (c, st') ->
  session_inv t0 st'.
Proof.
  intros (Hbpm & Hpos & Htime & Hgrid & Hsorted) E.
  apply core_scheduleNote in E
    as (r & Hc & Hrm & Hrp & Hrt & plucks & Hcalls & Hplucks).
  unfold core in Hc. injection Hc as Hb _ _ Ht Hm Hp Hn.
  unfold session_inv. rewrite Hb, Ht, Hm, Hp, Hn.
  assert (Hidx : note_index r = grid_index (currentMeasure st) (currentPos st))
    by (unfold note_index; now rewrite Hrm, Hrp).
  split; [exact Hbpm |]. split; [exact Hpos |]. split; [exact Htime |].
  split.
  - apply Forall_app. split; [exact Hgrid |].
    constructor; [| constructor].
    unfold note_on_grid. rewrite Hidx, Hrp, Hrt.
    split; [exact Hpos |]. split; [lia |]. split; [exact Htime |].
    rewrite Hcalls. apply Forall_app. split.
    + apply click_calls_time.
    + eapply Forall_impl; [exact Hplucks |]. now intros x [_ Hx].
  - apply StronglySorted_app_2; [| exact Hsorted | repeat constructor].
    intros a b Ha Hb'. apply list_elem_of_singleton in Hb' as ->.
    rewrite Hidx.
    rewrite Forall_forall in Hgrid. now apply Hgrid in Ha as (_ & Hle & _).
Qed.

Lemma session_inv_nextNote (t0 : Q) (st : state) :
  session_inv t0 st -> session_inv t0 (nextNote st).
Proof.
  intros (Hbpm & Hpos & Htime & Hgrid & Hsorted).
  destruct (nextNote_spec st Hpos) as (Hp' & Hg' & Ht' & Hb' & _ & _ & Hn').
  unfold session_inv. rewrite Hg', Ht', Hb', Hn'.
  split; [exact Hbpm |]. split; [exact Hp' |].
  split; [| split; [| exact Hsorted]].
  - rewrite grid_time_S, Htime. reflexivity.
  - eapply Forall_impl; [exact Hgrid |].
    intros n (H1 & H2 & H3 & H4).
    split; [exact H1 |]. split; [lia |]. split; [exact H3 | exact H4].
Qed.

(** From the fresh engine, every session whose tempo is positive keeps
    all its [scheduleNote] calls on one time grid. *)
Lemma session_timing (inputs : list input) (st : state) :
  Forall tempo_positive inputs ->
  run init inputs = Some st ->
  exists t0 : Q, session_inv t0 st.
Proof.
  intros HG Hrun.
  apply (run_preserves tempo_positive (fun s => exists t0, session_inv t0 s))
    with (inputs := inputs) (st := init); auto.
  - intros s s' Hc [t0 H]. exists t0. eapply session_inv_core; eauto.
  - intros s c s' [t0 H] _ E. exists t0.
    eapply session_inv_scheduleNote; eauto.
  - intros s [t0 H]. exists t0. now apply session_inv_nextNote.
  - intros s m bpm cb opts t Hbpm Hc. exists t.
    unfold core in Hc. injection Hc as Hb _ _ Ht Hm Hp Hn.
    unfold session_inv. rewrite Hb, Ht, Hm, Hp, Hn.
    split; [exact Hbpm |]. split; [lia |].
    split; [| split; constructor].
    unfold grid_time, grid_index. cbn. ring.
  - exists 0%Q. unfold session_inv. cbn.
    split; [reflexivity |]. split; [lia |].
    split; [| split; constructor].
    unfold grid_time, grid_index. cbn. ring.
Qed.

Lemma StronglySorted_lookup {A : Type} (R : A -> A -> Prop) (l : list A)
    (i j : nat) (a b : A) :
  StronglySorted R l -> i < j -> l !! i = Some a -> l !! j = Some b -> R a b.
Proof.
  intros Hs. revert i j. induction Hs as [|x l Hs IH Hx]; intros i j Hij Ha Hb.
  - discriminate.
  - destruct j as [|j]; [lia |]. cbn in Hb.
    destruct i as [|i]; cbn in Ha.
    + injection Ha as <-. rewrite List.Forall_forall in Hx. apply Hx.
      apply list_elem_of_In. eapply list_elem_of_lookup_2; eauto.
    + apply (IH i j); [lia | exact Ha | exact Hb].
Qed.

Lemma same_time_sorted (t : Q) (l : list synth_call) :
  Forall (fun c => call_time c = t) l ->
  StronglySorted (fun c1 c2 => (call_time c1 <= call_time c2)%Q) l.
Proof.
  induction 1 as [|c l Hc Hl IH]; constructor; [exact IH |].
  rewrite Hc. apply List.Forall_forall. intros c' Hin.
  rewrite Forall_forall in Hl. apply list_elem_of_In in Hin.
  rewrite (Hl c' Hin). apply Qle_refl.
Qed.

Lemma elem_of_concat {A : Type} (x : A) (ls : list (list A)) :
  x ∈ concat ls -> exists l : list A, x ∈ l /\ l ∈ ls.
Proof.
  induction ls as [|l ls IH]; cbn; intros Hx.
  - now apply elem_of_nil in Hx.
  - apply elem_of_app in Hx as [Hx | Hx].
    + exists l. split; [exact Hx | constructor].
    + destruct (IH Hx) as (l' & H1 & H2). exists l'.
      split; [exact H1 | now constructor].
Qed.

(** Calls on one grid, recorded in grid order, are in time order. *)
Lemma grid_calls_sorted (t0 six : Q) (cur : nat) (l : list note_record) :
  (0 < six)%Q ->
  Forall (note_on_grid t0 six cur) l ->
  StronglySorted (fun a b => note_index a <= note_index b) l ->
  StronglySorted (fun c1 c2 => (call_time c1 <= call_time c2)%Q)
                 (concat (n_calls <$> l)).
Proof.
  intros Hsix Hgrid Hs. induction Hs as [|a l Hs IH Ha]; [constructor |].
  apply Forall_cons in Hgrid as [(Hpa & Hia & Hta & Hca) Hgrid].
  cbn. apply StronglySorted_app_2;
    [| eapply same_time_sorted; eauto | now apply IH].
  intros c1 c2 H1 H2.
  apply elem_of_concat in H2 as (calls & H2 & Hcalls).
  apply list_elem_of_fmap in Hcalls as (b & -> & Hb).
  rewrite Forall_forall in Hgrid. rewrite Forall_forall in Hca.
  destruct (Hgrid b Hb) as (_ & _ & Htb & Hcb). rewrite Forall_forall in Hcb.
  rewrite (Hca c1 H1), (Hcb c2 H2), Hta, Htb.
  apply grid_time_le; [exact Hsix |].
  rewrite List.Forall_forall in Ha. apply Ha. now apply list_elem_of_In.
Qed.

End SessionTiming.

(* ================================================================== *)
(** * Ordering of the scheduled sounds                                 *)
(* ================================================================== *)

Section Ordering.

Import Sequencer Frame Session.

Lemma earlier_index (a b : note_record) :
  n_pos a < 16 -> n_pos b < 16 ->
  (earlier a b <-> note_index a < note_index b).
Proof. unfold earlier, note_index, grid_index. lia. Qed.

(** C3.  From the fresh engine, along any run in which every session is
    started with a positive tempo (the run itself always goes through):
    the start times of the sounds of the current session are
    non-decreasing in scheduling order; the time scheduled for position
    0 of measure N+1 is the time scheduled for position 15 of measure N
    plus one sixteenth note, [0.25 * (60 / bpm)], at the tempo of the
    session; every sound starts at the time of its position; and each
    step of [nextNote] adds one sixteenth note at the tempo in effect
    when it runs. *)
Theorem session_times_monotone (inputs : list input) :
  Forall tempo_positive inputs ->
  exists st : state,
    run init inputs = Some st /\
    (forall (i j : nat) (c1 c2 : synth_call),
       i <= j ->
       session_calls st !! i = Some c1 ->
       session_calls st !! j = Some c2 ->
       (call_time c1 <= call_time c2)%Q) /\
    (forall (N : nat) (a b : note_record),
       a ∈ notes st -> b ∈ notes st ->
       n_measure a = N -> n_pos a = 15 ->
       n_measure b = S N -> n_pos b = 0 ->
       (n_time b == n_time a + 0.25 * (60 / currentBpm st))%Q) /\
    (forall (n : note_record) (c : synth_call),
       n ∈ notes st -> c ∈ n_calls n -> call_time c = n_time n) /\
    (forall s : state,
       nextNoteTime (nextNote s) =
       (nextNoteTime s + 0.25 * (60 / currentBpm s))%Q).
Proof.
  intros HG.
  destruct (run_total inputs init) as [st Hrun]; [cbn; lia |].
  exists st. split; [exact Hrun |].
  destruct (session_timing inputs st HG Hrun)
    as (t0 & Hbpm & Hpos & Htime & Hgrid & Hsorted).
  pose proof (sixteenth_pos _ Hbpm) as Hsix.
  split; [| split; [| split]].
  - intros i j c1 c2 Hij H1 H2.
    destruct (decide (i = j)) as [-> | Hne].
    + rewrite H1 in H2. injection H2 as ->. apply Qle_refl.
    + apply (StronglySorted_lookup
               (fun x y => (call_time x <= call_time y)%Q)
               (session_calls st) i j c1 c2); [| lia | exact H1 | exact H2].
      eapply grid_calls_sorted; eauto.
  - intros N a b Ha Hb Ham Hap Hbm Hbp.
    rewrite Forall_forall in Hgrid.
    destruct (Hgrid a Ha) as (_ & _ & Hta & _).
    destruct (Hgrid b Hb) as (_ & _ & Htb & _).
    assert (Hidx : note_index b = S (note_index a))
      by (unfold note_index, grid_index; lia).
    rewrite Htb, Hta, Hidx, grid_time_S. reflexivity.
  - intros n c Hn Hc. rewrite Forall_forall in Hgrid.
    destruct (Hgrid n Hn) as (_ & _ & _ & Hcalls).
    rewrite Forall_forall in Hcalls. now apply Hcalls.
  - intros s. unfold nextNote. cbn. now destruct (currentPos s =? 15).
Qed.

Lemma session_times_monotone_witness :
  exists st : state,
    run init Scenario.two_measures = Some st /\
    (forall (i j : nat) (c1 c2 : synth_call),
       i <= j ->
       session_calls st !! i = Some c1 ->
       session_calls st !! j = Some c2 ->
       (call_time c1 <= call_time c2)%Q) /\
    (forall (N : nat) (a b : note_record),
       a ∈ notes st -> b ∈ notes st ->
       n_measure a = N -> n_pos a = 15 ->
       n_measure b = S N -> n_pos b = 0 ->
       (n_time b == n_time a + 0.25 * (60 / currentBpm st))%Q) /\
    (forall (n : note_record) (c : synth_call),
       n ∈ notes st -> c ∈ n_calls n -> call_time c = n_time n) /\
    (forall s : state,
       nextNoteTime (nextNote s) =
       (nextNoteTime s + 0.25 * (60 / currentBpm s))%Q).
Proof.
  apply (session_times_monotone Scenario.two_measures).
  repeat constructor.
Defined.

(** C8, as the code has it.  Along any run from the fresh engine with
    positive tempos: the sounds emitted for one grid position (the click
    and every string of a strum) share one start time; the sounds of a
    later grid position start strictly later than those of an earlier
    one; and positions are scheduled in grid order.  Start times are
    therefore non-decreasing, not strictly increasing, in scheduling
    order. *)
Theorem session_times_by_position (inputs : list input) :
  Forall tempo_positive inputs ->
  exists st : state,
    run init inputs = Some st /\
    (forall (a b : note_record) (ca cb : synth_call),
       a ∈ notes st -> b ∈ notes st ->
       ca ∈ n_calls a -> cb ∈ n_calls b ->
       (n_measure a = n_measure b -> n_pos a = n_pos b ->
        (call_time ca == call_time cb)%Q) /\
       (earlier a b -> (call_time ca < call_time cb)%Q)) /\
    (forall (i j : nat) (a b : note_record),
       i < j -> notes st !! i = Some a -> notes st !! j = Some b ->
       ~ earlier b a).
Proof.
  intros HG.
  destruct (run_total inputs init) as [st Hrun]; [cbn; lia |].
  exists st. split; [exact Hrun |].
  destruct (session_timing inputs st HG Hrun)
    as (t0 & Hbpm & Hpos & Htime & Hgrid & Hsorted).
  pose proof (sixteenth_pos _ Hbpm) as Hsix.
  rewrite Forall_forall in Hgrid.
  split.
  - intros a b ca cb Ha Hb Hca Hcb.
    destruct (Hgrid a Ha) as (Hpa & _ & Hta & Hcalls_a).
    destruct (Hgrid b Hb) as (Hpb & _ & Htb & Hcalls_b).
    rewrite Forall_forall in Hcalls_a. rewrite Forall_forall in Hcalls_b.
    rewrite (Hcalls_a ca Hca), (Hcalls_b cb Hcb), Hta, Htb.
    split.
    + intros Hm Hp. unfold note_index. rewrite Hm, Hp. reflexivity.
    + intros He. apply grid_time_lt; [exact Hsix |].
      now apply earlier_index.
  - intros i j a b Hij Ha Hb He.
    pose proof (StronglySorted_lookup _ _ i j a b Hsorted Hij Ha Hb) as Hle.
    assert (Hpa : n_pos a < 16).
    { apply (Hgrid a). eapply list_elem_of_lookup_2; eauto. }
    assert (Hpb : n_pos b < 16).
    { apply (Hgrid b). eapply list_elem_of_lookup_2; eauto. }
    apply (earlier_index b a Hpb Hpa) in He. cbv beta in Hle. lia.
Qed.

Lemma session_times_by_position_witness :
  exists st : state,
    run init Scenario.strum = Some st /\
    (forall (a b : note_record) (ca cb : synth_call),
       a ∈ notes st -> b ∈ notes st ->
       ca ∈ n_calls a -> cb ∈ n_calls b ->
       (n_measure a = n_measure b -> n_pos a = n_pos b ->
        (call_time ca == call_time cb)%Q) /\
       (earlier a b -> (call_time ca < call_time cb)%Q)) /\
    (forall (i j : nat) (a b : note_record),
       i < j -> notes st !! i = Some a -> notes st !! j = Some b ->
       ~ earlier b a).
Proof.
  apply (session_times_by_position Scenario.strum).
  repeat constructor.
Defined.

(** C8 as stated fails: in the session [Scenario.strum] the four strings
    of the strum on position 0 are scheduled one after the other for the
    same start time. *)
Lemma strum_not_strictly_increasing :
  exists st : state,
    run init Scenario.strum = Some st /\
    Forall tempo_positive Scenario.strum /\
    session_calls st !! 0 = Some (Pluck 74 0.45 0.1 0.994) /\
    session_calls st !! 1 = Some (Pluck 71 0.45 0.1 0.994) /\
    ~ strictly_increasing_calls st.
Proof.
  eexists. split; [vm_compute; reflexivity |].
  split; [repeat constructor |].
  split; [reflexivity |]. split; [reflexivity |].
  intros H.
  specialize (H 0 1 _ _ (Nat.lt_0_1) eq_refl eq_refl).
  vm_compute in H. discriminate.
Qed.

End Ordering.

(* ================================================================== *)
(** * Metronome placement                                              *)
(* ================================================================== *)

Section Metronome.

Import Sequencer Frame Session.



End Metronome.

(* ================================================================== *)
(** * Starting and stopping                                            *)
(* ================================================================== *)

Section StartStop.

Import Sequencer Frame Session.

Lemma filter_Forall {A : Type} (P : A -> Prop) (f : A -> bool) (l : list A) :
  Forall P l -> Forall P (List.filter f l).
Proof.
  rewrite !Forall_forall. intros H x Hx.
  apply list_elem_of_In, List.filter_In in Hx as [Hx _].
  apply H. now apply list_elem_of_In.
Qed.

Lemma filter_all {A : Type} (f : A -> bool) (l : list A) :
  Forall (fun x => f x = true) l -> List.filter f l = l.
Proof.
  induction 1 as [|x l Hx Hl IH]; [reflexivity |].
  cbn. now rewrite Hx, IH.
Qed.

Lemma filter_twice {A : Type} (f : A -> bool) (l : list A) :
  List.filter f (List.filter f l) = List.filter f l.
Proof.
  apply filter_all. apply Forall_forall. intros x Hx.
  now apply list_elem_of_In, List.filter_In in Hx as [_ Hx].
Qed.

(** What the operations outside the scheduling loop do to the timer
    queue. *)
Lemma timers_stopSong (st : state) :
  timers (stopSong st) = timers (clearTimeout (timerID st) st).
Proof.
  unfold stopSong, clearTimeout. destruct st; cbn.
  repeat (case_match; cbn); reflexivity.
Qed.

Lemma no_wakeup_clearTimeout (id : option nat) (st : state) :
  no_wakeup st -> no_wakeup (clearTimeout id st).
Proof.
  unfold no_wakeup, clearTimeout. destruct id; [| auto].
  cbn. apply filter_Forall.
Qed.

Lemma no_wakeup_stopSong (st : state) : no_wakeup st -> no_wakeup (stopSong st).
Proof.
  intros H. unfold no_wakeup. rewrite timers_stopSong.
  now apply no_wakeup_clearTimeout.
Qed.

Lemma timers_elapse (ms sec : Q) (st : state) :
  timers (elapse ms sec st) = timers st /\
  timerID (elapse ms sec st) = timerID st.
Proof. unfold elapse. now destruct (Qle_bool 0 ms), (Qle_bool 0 sec). Qed.

Lemma timers_updateAudioSettings (bVol mVol mPitch : Q) (mE mA : bool)
    (st : state) :
  timers (updateAudioSettings bVol mVol mPitch mE mA st) = timers st.
Proof.
  unfold updateAudioSettings, getAudioCtx. destruct st; cbn.
  repeat (case_match; cbn); reflexivity.
Qed.

Lemma timers_on_drain (st : state) : timers (on_drain st) = timers st.
Proof.
  unfold on_drain. destruct (isPlaying st); [| reflexivity].
  cbn. now destruct (masterOnStop st).
Qed.

Lemma notes_on_drain (st : state) : notes (on_drain st) = notes st.
Proof.
  unfold on_drain. destruct (isPlaying st); [| reflexivity].
  cbn. now destruct (masterOnStop st).
Qed.

Lemma find_some_action (id : nat) (st : state) (t : timer) :
  no_wakeup st ->
  List.find (fun t => tid t =? id) (timers st) = Some t ->
  action t = RunDrain.
Proof.
  unfold no_wakeup. rewrite Forall_forall. intros H Hf.
  apply List.find_some in Hf as [Hin _]. apply H. now apply list_elem_of_In.
Qed.

(** Once nothing has been scheduled and no wake-up is pending, nothing
    is scheduled until the next [playSong]. *)
Lemma quiet_run (rest : list input) (st : state) :
  Forall not_play rest ->
  notes st = [] -> no_wakeup st ->
  exists st' : state,
    run st rest = Some st' /\ notes st' = [] /\ no_wakeup st'.
Proof.
  revert st. induction rest as [|i rest IH]; intros st HG Hn Hw;
    [exists st; auto |].
  apply Forall_cons in HG as [Hi HG].
  assert (Hstep : exists st1, step st i = Some st1 /\
                              notes st1 = [] /\ no_wakeup st1).
  { destruct i as [m bpm cb opts | | bVol mVol mPitch mE mA | ms sec | id];
      [contradiction | | | |].
    - rewrite step_StopSong. eexists. split; [reflexivity |]. split.
      + pose proof (core_stopSong st) as Hc. unfold core in Hc.
        injection Hc as _ _ _ _ _ _ ->. exact Hn.
      + now apply no_wakeup_stopSong.
    - rewrite step_UpdateAudioSettings.
      eexists. split; [reflexivity |]. split.
      + pose proof (core_updateAudioSettings bVol mVol mPitch mE mA st) as Hc.
        unfold core in Hc. injection Hc as _ _ _ _ _ _ ->. exact Hn.
      + unfold no_wakeup. now rewrite timers_updateAudioSettings.
    - rewrite step_Elapse. eexists. split; [reflexivity |]. split.
      + pose proof (core_elapse ms sec st) as Hc. unfold core in Hc.
        injection Hc as _ _ _ _ _ _ ->. exact Hn.
      + unfold no_wakeup. now rewrite (proj1 (timers_elapse ms sec st)).
    - rewrite step_Fire. unfold fire.
      destruct (List.find _ _) as [t|] eqn:Hf; [| eauto].
      destruct (Qle_bool _ _); [| eauto].
      rewrite (find_some_action id st t Hw Hf).
      eexists. split; [reflexivity |]. split.
      + rewrite notes_on_drain. exact Hn.
      + unfold no_wakeup. rewrite timers_on_drain.
        now apply no_wakeup_clearTimeout. }
  destruct Hstep as (st1 & Hstep & Hn1 & Hw1).
  destruct (IH st1 HG Hn1 Hw1) as (st' & Hrun & H').
  exists st'. split; [| exact H']. now rewrite (run_step st st1 i rest Hstep).
Qed.

(** The state [playSong] hands to its first scheduling pass. *)
Lemma playSong_setup_spec (m : timeline) (bpm : Q) (cb : option callback)
    (opts : playOpts) (st : state) :
  let s := playSong_setup m bpm cb opts st in
  exists t : Q,
    audioCtx s = Some t /\
    nextNoteTime s = (t + 0.1)%Q /\
    notes s = [] /\
    isPlaying s = true /\
    masterOnStop s = cb /\
    currentMeasures s = m /\
    currentPos s = 0 /\
    timers s = timers (if isPlaying st then stopSong st else st).
Proof.
  unfold playSong_setup.
  generalize (if isPlaying st then stopSong st else st). intros s0.
  unfold updateAudioSettings, getAudioCtx, currentTime. destruct s0; cbn.
  repeat (case_match; cbn in *; simplify_eq); eexists; repeat split.
Qed.

(** The first, synchronous pass of the scheduling loop schedules
    nothing: the first event lies at the end of the look-ahead window,
    not within it.  It only arms the wake-up timer. *)
Lemma playSong_first_pass (m : timeline) (bpm : Q) (cb : option callback)
    (opts : playOpts) (st : state) :
  exists (st1 : state) (t : timer),
    playSong m bpm cb opts st = Some (Normal, st1) /\
    notes st1 = [] /\
    isPlaying st1 = true /\
    timerID st1 = Some (tid t) /\
    action t = RunScheduler /\
    timers st1 = timers (if isPlaying st then stopSong st else st) ++ [t] /\
    masterOnStop st1 = cb /\
    currentMeasures st1 = m /\
    currentPos st1 = 0 /\
    is_Some (audioCtx st1).
Proof.
  destruct (playSong_setup_spec m bpm cb opts st)
    as (t & Hctx & Htime & Hnotes & Hplay & Hcb & Hm & Hpos & Htimers).
  rewrite playSong_unfold, scheduler_loop_eq.
  generalize dependent (playSong_setup m bpm cb opts st). intros s.
  intros Hctx Htime Hnotes Hplay Hcb Hm Hpos Htimers. cbv zeta.
  assert (Hs : getAudioCtx s = s) by (unfold getAudioCtx; now rewrite Hctx).
  rewrite Hs. unfold currentTime. rewrite Hctx, Htime. cbn [default].
  destruct (Qlt_le_dec _ _) as [Hlt | _].
  { unfold SCHEDULE_AHEAD_TIME in Hlt. now apply Qlt_irrefl in Hlt. }
  exists (set_timerID (Some (nextTimer s))
            (snd (setTimeout RunScheduler LOOKAHEAD s))).
  exists {| tid := nextTimer s;
            due := (clock s + inject_Z (Z.max 0 (Qfloor LOOKAHEAD)))%Q;
            action := RunScheduler |}.
  split; [reflexivity |].
  split; [exact Hnotes |]. split; [exact Hplay |].
  split; [reflexivity |]. split; [reflexivity |].
  split; [cbn; now rewrite Htimers |].
  split; [exact Hcb |]. split; [exact Hm |]. split; [exact Hpos |].
  cbn. rewrite Hctx. eauto.
Qed.

Lemma wakeups_owned_start (st : state) :
  Lifecycle.wakeups_owned st ->
  no_wakeup (if isPlaying st then stopSong st else st).
Proof.
  unfold Lifecycle.wakeups_owned, no_wakeup. intros H.
  destruct (isPlaying st) eqn:Hplay.
  - rewrite timers_stopSong. unfold clearTimeout.
    destruct (timerID st) as [id|] eqn:Hid; cbn.
    + apply Forall_forall. intros t Ht.
      apply list_elem_of_In, List.filter_In in Ht as [Ht Hne].
      apply list_elem_of_In in Ht. rewrite Forall_forall in H.
      specialize (H t Ht).
      destruct (action t); [| reflexivity].
      destruct (H eq_refl) as [_ Hown].
      assert (Hsame : tid t = id) by congruence.
      rewrite Hsame, Nat.eqb_refl in Hne. discriminate.
    + eapply Forall_impl; [exact H |]. intros t Ht. cbn in Ht.
      destruct (action t); [| reflexivity].
      now destruct (Ht eq_refl).
  - eapply Forall_impl; [exact H |]. intros t Ht. cbn in Ht.
    destruct (action t); [| reflexivity].
    now destruct (Ht eq_refl).
Qed.

(** Stop right after start, from a state in which every pending wake-up
    belongs to the running session (the fresh engine, the engine after a
    stop, a running session, its natural end): [playSong] returns
    having scheduled nothing and armed one wake-up; if time then passes
    without that timer running and [stopSong] is called, the wake-up is
    cancelled and, whatever happens next short of another [playSong]
    (time passing, timers running, further stops), no synthesizer is
    ever invoked. *)
Theorem stop_right_after_start (st : state) (m : timeline) (bpm : Q)
    (cb : option callback) (opts : playOpts) (waiting rest : list input) :
  Lifecycle.wakeups_owned st ->
  Forall is_elapse waiting ->
  Forall not_play rest ->
  exists st1 st2 st3 : state,
    playSong m bpm cb opts st = Some (Normal, st1) /\
    session_calls st1 = [] /\
    ~ no_wakeup st1 /\
    run st1 (waiting ++ [StopSong]) = Some st2 /\
    no_wakeup st2 /\
    run st2 rest = Some st3 /\
    session_calls st3 = [].
Proof.
  intros Hw Hwait Hrest.
  destruct (playSong_first_pass m bpm cb opts st)
    as (st1 & t & Hplay & Hn1 & _ & Hid & Hact & Htimers & _).
  assert (Hw0 : no_wakeup (if isPlaying st then stopSong st else st))
    by (now apply wakeups_owned_start).
  assert (Hwaiting : forall s : state,
            exists s', run s waiting = Some s' /\ notes s' = notes s /\
                       timers s' = timers s /\ timerID s' = timerID s).
  { clear -Hwait. induction Hwait as [|i l Hi Hl IH]; intros s; [eauto |].
    destruct i; try contradiction.
    rewrite (run_step s (elapse ms sec s) (Elapse ms sec) l (step_Elapse ms sec s)).
    destruct (IH (elapse ms sec s)) as (s' & Hr & Hn & Ht & Hid).
    exists s'. split; [exact Hr |].
    pose proof (core_elapse ms sec s) as Hc. unfold core in Hc.
    injection Hc as _ _ _ _ _ _ Hn'.
    destruct (timers_elapse ms sec s) as [Ht' Hid'].
    rewrite Hn, Ht, Hid. auto. }
  destruct (Hwaiting st1) as (s' & Hr & Hn' & Ht' & Hid').
  assert (Hn2 : notes (stopSong s') = []).
  { pose proof (core_stopSong s') as Hc. unfold core in Hc.
    injection Hc as _ _ _ _ _ _ ->. now rewrite Hn'. }
  assert (Hw2 : no_wakeup (stopSong s')).
  { unfold no_wakeup. rewrite timers_stopSong, Hid', Hid. cbn.
    rewrite Ht', Htimers, List.filter_app. apply Forall_app. split.
    - now apply filter_Forall.
    - cbn. rewrite Nat.eqb_refl. constructor. }
  destruct (quiet_run rest (stopSong s') Hrest Hn2 Hw2) as (st3 & Hrun3 & Hn3 & _).
  exists st1, (stopSong s'), st3.
  split; [exact Hplay |].
  split; [unfold session_calls; now rewrite Hn1 |].
  split.
  { unfold no_wakeup. rewrite Htimers. intros H.
    apply Forall_app in H as [_ H]. apply Forall_cons in H as [H _].
    congruence. }
  split; [now rewrite (run_app st1 s' waiting [StopSong] Hr) |].
  split; [exact Hw2 |].
  split; [exact Hrun3 |].
  unfold session_calls. now rewrite Hn3.
Qed.

Lemma stop_right_after_start_witness :
  exists st1 st2 st3 : state,
    playSong [Scenario.g_easy] 120 (Some 1) Scenario.metronome_on init
      = Some (Normal, st1) /\
    session_calls st1 = [] /\
    ~ no_wakeup st1 /\
    run st1 ([Elapse 10 0.01%Q] ++ [StopSong]) = Some st2 /\
    no_wakeup st2 /\
    run st2 [Elapse 15 0.015%Q; Fire 0; Elapse 5000 5; Fire 1; StopSong]
      = Some st3 /\
    session_calls st3 = [].
Proof.
  apply (stop_right_after_start init [Scenario.g_easy] 120 (Some 1)
           Scenario.metronome_on [Elapse 10 0.01%Q]
           [Elapse 15 0.015%Q; Fire 0; Elapse 5000 5; Fire 1; StopSong]).
  - constructor.
  - repeat constructor.
  - repeat constructor.
Defined.

(** ** An empty timeline *)

Lemma empty_timeline_quiet (rest : list input) (st st' : state) :
  Forall not_play rest ->
  currentMeasures st = [] -> notes st = [] ->
  run st rest = Some st' ->
  currentMeasures st' = [] /\ notes st' = [].
Proof.
  intros HG Hm Hn Hrun.
  apply (run_preserves not_play
           (fun s => currentMeasures s = [] /\ notes s = []))
    with (inputs := rest) (st := st); auto.
  - intros s s' Hc. unfold core in Hc.
    injection Hc as _ Hm' _ _ _ _ Hn'. now rewrite Hm', Hn'.
  - intros s c s' [Hs _] Hlt _. rewrite Hs in Hlt. cbn in Hlt. lia.
  - intros s [Hs1 Hs2]. destruct (nextNote_frame s) as (_ & Hm' & _ & Hn').
    now rewrite Hm', Hn'.
  - intros s m bpm cb opts t [].
Qed.

(** C2, as the code has it.  [playSong] with an empty timeline is not a
    no-op: from any state it returns with a session flagged as running,
    the audio graph built, the callback stored and the wake-up timer
    armed.  It schedules no sound and no click, neither in its first
    pass nor at any later time before the next [playSong]; and on the
    fresh engine the first wake-up arms the natural-end timer, which
    invokes the completion callback when it runs 3575 ms later. *)
Theorem empty_timeline_session (st : state) (bpm : Q) (cb : callback)
    (opts : playOpts) (rest : list input) :
  Forall not_play rest ->
  exists st1 st2 st3 : state,
    playSong [] bpm (Some cb) opts st = Some (Normal, st1) /\
    isPlaying st1 = true /\
    is_Some (audioCtx st1) /\
    masterOnStop st1 = Some cb /\
    ~ no_wakeup st1 /\
    session_calls st1 = [] /\
    run st1 rest = Some st2 /\
    session_calls st2 = [] /\
    run init (PlaySong [] bpm (Some cb) opts :: Scenario.empty_drain)
      = Some st3 /\
    session_calls st3 = [] /\
    isPlaying st3 = false /\
    fired st3 = [cb].
Proof.
  intros Hrest.
  destruct (playSong_first_pass [] bpm (Some cb) opts st)
    as (st1 & t & Hplay & Hn1 & Hp1 & Hid & Hact & Htimers
        & Hcb & Hm & Hpos & Hctx).
  destruct (run_total rest st1) as [st2 Hrun]; [lia |].
  destruct (empty_timeline_quiet rest st1 st2 Hrest Hm Hn1 Hrun) as [_ Hn2].
  exists st1, st2. eexists.
  split; [exact Hplay |]. split; [exact Hp1 |]. split; [exact Hctx |].
  split; [exact Hcb |].
  split.
  { unfold no_wakeup. rewrite Htimers. intros H.
    apply Forall_app in H as [_ H]. apply Forall_cons in H as [H _].
    congruence. }
  split; [unfold session_calls; now rewrite Hn1 |].
  split; [exact Hrun |].
  split; [unfold session_calls; now rewrite Hn2 |].
  split; [vm_compute; reflexivity |].
  repeat split.
Qed.

Lemma empty_timeline_session_witness :
  exists st1 st2 st3 : state,
    playSong [] 90 (Some 7) Scenario.metronome_on init = Some (Normal, st1) /\
    isPlaying st1 = true /\
    is_Some (audioCtx st1) /\
    masterOnStop st1 = Some 7 /\
    ~ no_wakeup st1 /\
    session_calls st1 = [] /\
    run st1 [Elapse 25 0.025%Q; Fire 0; StopSong] = Some st2 /\
    session_calls st2 = [] /\
    run init (PlaySong [] 90 (Some 7) Scenario.metronome_on
                :: Scenario.empty_drain) = Some st3 /\
    session_calls st3 = [] /\
    isPlaying st3 = false /\
    fired st3 = [7].
Proof.
  apply (empty_timeline_session init 90 7 Scenario.metronome_on
           [Elapse 25 0.025%Q; Fire 0; StopSong]).
  repeat constructor.
Defined.

(** C2 as stated fails: on the fresh engine, [playSong] with an empty
    timeline flags a session as running, creates the audio context and
    arms a timer; the first wake-up arms the natural-end timer, and when
    that runs the completion callback is invoked. *)
Lemma empty_timeline_not_noop :
  exists st1 st2 : state,
    run init Scenario.empty_start = Some st1 /\
    isPlaying init = false /\ isPlaying st1 = true /\
    audioCtx init = None /\ audioCtx st1 = Some 0%Q /\
    timers init = [] /\
    timers st1 = [{| tid := 0; due := 25; action := RunScheduler |}] /\
    run st1 Scenario.empty_drain = Some st2 /\
    fired init = [] /\ fired st2 = [7].
Proof.
  eexists. eexists.
  split; [vm_compute; reflexivity |].
  do 6 (split; [reflexivity |]).
  split; [vm_compute; reflexivity |].
  split; reflexivity.
Qed.

End StartStop.

(* ================================================================== *)
(** * Completion callback and stop                                     *)
(* ================================================================== *)

Section Completion.

Import Sequencer Frame Session.

(** C1 does not hold of the engine: [stopSong] cancels the wake-up timer
    but not the natural-end timer, whose closure reads [isPlaying] and
    [masterOnStop] when it runs.  In [Scenario.stale_drain] session A is
    stopped after it has armed that timer, session B is started, and 3.575
    seconds into B (four seconds of music) the timer of A runs: it finds
    [isPlaying] set, clears it and invokes the callback of B, while B is
    still in its second measure with its wake-up pending.  When B later
    reaches its own natural end, its timer finds [isPlaying] cleared and
    invokes nothing. *)
Theorem stale_drain_fires_next_callback :
  exists stA st st' : state,
    run init Scenario.session_A = Some stA /\
    isPlaying stA = true /\
    fired stA = [] /\
    timers stA = [{| tid := 81; due := 5600; action := RunDrain |}] /\
    run init Scenario.stale_drain = Some st /\
    masterOnStop st = Some 2 /\
    fired st = [2] /\
    isPlaying st = false /\
    length (currentMeasures st) = 2 /\
    currentMeasure st = 1 /\
    currentPos st = 13 /\
    timers st = [{| tid := 225; due := 5625; action := RunScheduler |}] /\
    run init Scenario.stale_drain_then_end = Some st' /\
    currentMeasure st' = 2 /\
    timers st' = [] /\
    fired st' = [2].
Proof.
  eexists. eexists. eexists.
  split; [vm_compute; reflexivity |].
  do 3 (split; [reflexivity |]).
  split; [vm_compute; reflexivity |].
  do 7 (split; [reflexivity |]).
  split; [vm_compute; reflexivity |].
  split; [reflexivity |]. split; reflexivity.
Qed.

(** In both engines [stopSong] is idempotent.  In the sequencer, when
    [isPlaying] is false and the timer [timerID] names is no longer
    pending, [stopSong] leaves the whole playback state as it is (it
    only closes the audio context if one is still open, and changes
    nothing at all if none is); in the earlier engine, when nothing is
    playing, it leaves everything the program can observe as it is. *)
Theorem stopSong_idempotent_idle (st : state) (old : Legacy.state) :
  stopSong (stopSong st) = stopSong st /\
  (idle st ->
   playback_view (stopSong st) = playback_view st /\
   audioCtx (stopSong st) = None /\
   (audioCtx st = None -> stopSong st = st)) /\
  Legacy.stopSong (Legacy.stopSong old) = Legacy.stopSong old /\
  (Legacy.idle old ->
   Legacy.playback_view (Legacy.stopSong old) = Legacy.playback_view old).
Proof.
  split; [| split; [| split]].
  - unfold stopSong, clearTimeout. destruct st as
      [ctx bg mg pl bpm ms po cb nt cm cp [id|] ck ts ntm ns fd];
      destruct ctx; cbn; try reflexivity;
      now rewrite filter_twice.
  - intros [Hplay Htimer].
    assert (Hts : timers (clearTimeout (timerID st) st) = timers st).
    { unfold clearTimeout. destruct (timerID st) as [id|] eqn:E; [| reflexivity].
      cbn. apply filter_all. specialize (Htimer id eq_refl).
      eapply Forall_impl; [exact Htimer |].
      intros t Ht. cbn in Ht. now apply negb_true_iff, Nat.eqb_neq. }
    unfold stopSong, playback_view.
    destruct st as [ctx bg mg pl bpm ms po cb nt cm cp tid ck ts ntm ns fd].
    cbn in *. subst pl.
    unfold clearTimeout in *. destruct tid as [id|]; cbn in *;
      destruct ctx; cbn; rewrite ?Hts;
      (split; [reflexivity |]; split; [reflexivity |]);
      intros; try discriminate; reflexivity.
  - unfold Legacy.stopSong. destruct old as [pl sf srcs [id|] ts stp]; cbn;
      now rewrite ?app_nil_r.
  - intros (Hplay & Hsrcs & Htimer).
    destruct old as [pl sf srcs tm ts stp]. cbn in *. subst.
    unfold Legacy.playback_view. cbn. now rewrite app_nil_r.
Qed.

Lemma stopSong_idempotent_idle_witness :
  stopSong (stopSong init) = stopSong init /\
  (playback_view (stopSong init) = playback_view init /\
   audioCtx (stopSong init) = None /\
   (audioCtx init = None -> stopSong init = init)) /\
  Legacy.stopSong (Legacy.stopSong Legacy.init) = Legacy.stopSong Legacy.init /\
  Legacy.playback_view (Legacy.stopSong Legacy.init)
  = Legacy.playback_view Legacy.init.
Proof.
  destruct (stopSong_idempotent_idle init Legacy.init) as (H1 & H2 & H3 & H4).
  split; [exact H1 |].
  split; [apply H2; split; [reflexivity | intros id Hid; discriminate] |].
  split; [exact H3 |].
  apply H4. repeat split.
Defined.

End Completion.

(* ================================================================== *)
(** * Songs the synthesizers accept: what a session schedules          *)
(* ================================================================== *)

Section AcceptedSongs.

Import Sequencer Frame Session Shape.

Lemma measure_ok_five_rows (m : measure) :
  Score.measure_ok m = true -> five_rows m.
Proof.
  unfold Score.measure_ok, five_rows. intros H.
  apply andb_prop in H as [H _]. now apply Nat.leb_le in H.
Qed.

Lemma songs_ok_timeline (inputs : list input) :
  Score.songs_ok inputs -> Forall timeline_ok inputs.
Proof.
  unfold Score.songs_ok. intros H. rewrite forallb_forall in H.
  apply Forall_forall. intros i Hi. apply list_elem_of_In in Hi.
  specialize (H i Hi). destruct i; try exact I. cbn in *.
  apply andb_prop in H as [H _]. apply andb_prop in H as [_ H].
  rewrite forallb_forall in H. apply Forall_forall. intros m Hm.
  apply measure_ok_five_rows, H. now apply list_elem_of_In.
Qed.


End AcceptedSongs.


(* ================================================================== *)
(** * Further properties of the sequencer                              *)
(* ================================================================== *)

Section SequencerMore.

Import Sequencer Frame Session Shape.

(** A property kept by each primitive the scheduling loop is made of is
    kept by the loop. *)
Lemma scheduler_loop_prims (P : state -> Prop) :
  (forall st, P st -> P (getAudioCtx st)) ->
  (forall a d st, P st -> P (snd (setTimeout a d st))) ->
  (forall id st, P st -> P (set_timerID id st)) ->
  (forall v st, P st -> P (set_notes v st)) ->
  (forall st, P st -> P (nextNote st)) ->
  forall (fuel : nat) (st : state) (c : completion) (st' : state),
    P st -> scheduler_loop fuel st = Some (c, st') -> P st'.
Proof.
  intros Hctx Htimeout Hid Hnotes Hnext.
  assert (Hexit : forall (st : state) (c : completion) (st' : state),
            P st ->
            Some (Normal,
                  set_timerID (Some (nextTimer (getAudioCtx st)))
                    (snd (setTimeout RunScheduler LOOKAHEAD (getAudioCtx st))))
            = Some (c, st') -> P st').
  { intros st c st' HP E.
    replace st' with
      (set_timerID (Some (nextTimer (getAudioCtx st)))
         (snd (setTimeout RunScheduler LOOKAHEAD (getAudioCtx st))))
      by congruence.
    now apply Hid, Htimeout, Hctx. }
  assert (Hend : forall (st : state) (d : Q) (c : completion) (st' : state),
            P st ->
            Some (Normal, snd (setTimeout RunDrain d (getAudioCtx st)))
            = Some (c, st') -> P st').
  { intros st d c st' HP E.
    replace st' with (snd (setTimeout RunDrain d (getAudioCtx st)))
      by congruence.
    now apply Htimeout, Hctx. }
  induction fuel as [|fuel IH]; intros st c st' HP Hrun;
    rewrite scheduler_loop_eq in Hrun; cbv zeta in Hrun;
    (destruct (Qlt_le_dec _ _); [| eapply Hexit; [exact HP | exact Hrun]]);
    (destruct (Nat.leb_spec (length (currentMeasures (getAudioCtx st)))
                            (currentMeasure (getAudioCtx st)));
     [eapply Hend; [exact HP | exact Hrun] |]);
    [discriminate |].
  destruct (scheduleNote _ _ _ _) as [[|] st1] eqn:E.
  - eapply IH; [| exact Hrun].
    apply scheduleNote_spec in E as (plucks & _ & ->).
    now apply Hnext, Hnotes, Hctx, Hctx.
  - assert (Hst : st1 = st') by congruence. subst st'.
    apply scheduleNote_spec in E as (plucks & _ & ->).
    now apply Hnotes, Hctx, Hctx.
Qed.

(** What the loop never touches. *)
Lemma scheduler_loop_control (fuel : nat) (st : state) (c : completion)
    (st' : state) :
  scheduler_loop fuel st = Some (c, st') ->
  isPlaying st' = isPlaying st /\
  masterOnStop st' = masterOnStop st /\
  fired st' = fired st /\
  clock st' = clock st.
Proof.
  intros H.
  apply (scheduler_loop_prims
           (fun s => isPlaying s = isPlaying st /\
                     masterOnStop s = masterOnStop st /\
                     fired s = fired st /\ clock s = clock st))
    with (fuel := fuel) (st := st) (c := c); auto.
  - intros s Hs. unfold getAudioCtx. now destruct (audioCtx s).
  - intros s Hs. unfold nextNote. cbn. now destruct (currentPos s =? 15).
Qed.

Lemma stopSong_control (st : state) :
  isPlaying (stopSong st) = false /\
  masterOnStop (stopSong st) = masterOnStop st /\
  fired (stopSong st) = fired st.
Proof.
  unfold stopSong, clearTimeout. destruct st; cbn.
  repeat (case_match; cbn); auto.
Qed.

Lemma updateAudioSettings_control (bVol mVol mPitch : Q) (mE mA : bool)
    (st : state) :
  isPlaying (updateAudioSettings bVol mVol mPitch mE mA st) = isPlaying st /\
  masterOnStop (updateAudioSettings bVol mVol mPitch mE mA st)
  = masterOnStop st /\
  fired (updateAudioSettings bVol mVol mPitch mE mA st) = fired st.
Proof.
  unfold updateAudioSettings, getAudioCtx. destruct st; cbn.
  repeat (case_match; cbn); auto.
Qed.

Lemma elapse_control (ms sec : Q) (st : state) :
  isPlaying (elapse ms sec st) = isPlaying st /\
  masterOnStop (elapse ms sec st) = masterOnStop st /\
  fired (elapse ms sec st) = fired st.
Proof. unfold elapse. now destruct (Qle_bool 0 ms), (Qle_bool 0 sec). Qed.

Lemma playSong_setup_fired (m : timeline) (bpm : Q) (cb : option callback)
    (opts : playOpts) (st : state) :
  fired (playSong_setup m bpm cb opts st) = fired st.
Proof.
  unfold playSong_setup.
  assert (H : fired (if isPlaying st then stopSong st else st) = fired st)
    by (destruct (isPlaying st); [apply stopSong_control | reflexivity]).
  revert H. generalize (if isPlaying st then stopSong st else st). intros s0 <-.
  unfold updateAudioSettings, getAudioCtx. destruct s0; cbn.
  repeat (case_match; cbn); reflexivity.
Qed.

(** X1.  The completion callback is invoked by nothing but a due
    natural-end timer that runs while [isPlaying] is set: it is then the
    callback stored by the latest [playSong], it is invoked once, and
    [isPlaying] is cleared.  No call of [playSong], [stopSong] or
    [updateAudioSettings], no passing of time and no wake-up of the
    scheduling loop invokes a callback. *)
Theorem callback_only_from_drain_timer (st st' : state) (i : input) :
  step st i = Some st' ->
  fired st' = fired st \/
  exists (id : nat) (t : timer) (cb : callback),
    i = Fire id /\
    t ∈ timers st /\ tid t = id /\ action t = RunDrain /\
    (due t <= clock st)%Q /\
    isPlaying st = true /\
    masterOnStop st = Some cb /\
    fired st' = fired st ++ [cb] /\
    isPlaying st' = false.
Proof.
  intros Hstep.
  destruct i as [m bpm cb opts | | bVol mVol mPitch mE mA | ms sec | id].
  - left. rewrite step_PlaySong, playSong_unfold in Hstep.
    destruct (scheduler_loop _ _) as [[c s]|] eqn:E; [| discriminate].
    assert (Hs : s = st') by (cbn in Hstep; congruence). subst s.
    apply scheduler_loop_control in E as (_ & _ & -> & _).
    apply playSong_setup_fired.
  - left. rewrite step_StopSong in Hstep.
    assert (Hs : stopSong st = st') by congruence. subst st'.
    apply stopSong_control.
  - left. rewrite step_UpdateAudioSettings in Hstep.
    assert (Hs : updateAudioSettings bVol mVol mPitch mE mA st = st')
      by congruence. subst st'.
    apply updateAudioSettings_control.
  - left. rewrite step_Elapse in Hstep.
    assert (Hs : elapse ms sec st = st') by congruence. subst st'.
    apply elapse_control.
  - rewrite step_Fire in Hstep. unfold fire in Hstep.
    destruct (List.find _ _) as [t|] eqn:Hf;
      [| left; congruence].
    destruct (Qle_bool (due t) (clock st)) eqn:Hdue; [| left; congruence].
    apply List.find_some in Hf as [Hin Hid].
    apply Nat.eqb_eq in Hid. apply list_elem_of_In in Hin.
    apply Qle_bool_iff in Hdue.
    destruct (action t) eqn:Hact.
    + left. rewrite scheduler_unfold in Hstep.
      destruct (scheduler_loop _ _) as [[c s]|] eqn:E; [| discriminate].
      assert (Hs : s = st') by (cbn in Hstep; congruence). subst s.
      apply scheduler_loop_control in E as (_ & _ & -> & _).
      reflexivity.
    + assert (Hs : on_drain (clearTimeout (Some id) st) = st') by congruence.
      subst st'. unfold on_drain.
      change (isPlaying (clearTimeout (Some id) st)) with (isPlaying st).
      destruct (isPlaying st) eqn:Hp; [| now left].
      change (masterOnStop (set_isPlaying false (clearTimeout (Some id) st)))
        with (masterOnStop st).
      destruct (masterOnStop st) as [cb|] eqn:Hcb; [| now left].
      right. exists id, t, cb. repeat split; auto.
Qed.

Lemma callback_only_from_drain_timer_witness :
  exists st st' : state,
    run init (Scenario.empty_start ++
              [Elapse 25 0.025%Q; Fire 0; Elapse 3575 3.575%Q]) = Some st /\
    step st (Fire 1) = Some st' /\
    (fired st' = fired st \/
     exists (id : nat) (t : timer) (cb : callback),
       Fire 1 = Fire id /\
       t ∈ timers st /\ tid t = id /\ action t = RunDrain /\
       (due t <= clock st)%Q /\
       isPlaying st = true /\
       masterOnStop st = Some cb /\
       fired st' = fired st ++ [cb] /\
       isPlaying st' = false).
Proof.
  eexists. eexists.
  split; [vm_compute; reflexivity |].
  split; [vm_compute; reflexivity |].
  apply (callback_only_from_drain_timer _ _ (Fire 1)).
  vm_compute. reflexivity.
Defined.

(** The relation between the states before and after inputs other than
    [playSong]: the stored callback is the same, and either no callback
    was invoked (and an engine that was not playing is still not
    playing), or the engine was playing, its callback was invoked once
    and it is no longer playing. *)
Lemma step_callback_once (st st' : state) (i : input) :
  not_play i ->
  step st i = Some st' ->
  masterOnStop st' = masterOnStop st /\
  ((fired st' = fired st /\ (isPlaying st = false -> isPlaying st' = false)) \/
   (exists cb : callback,
      isPlaying st = true /\ masterOnStop st = Some cb /\
      fired st' = fired st ++ [cb] /\ isPlaying st' = false)).
Proof.
  intros Hi Hstep.
  destruct i as [m bpm cb opts | | bVol mVol mPitch mE mA | ms sec | id];
    [contradiction | | | |].
  - rewrite step_StopSong in Hstep.
    assert (Hs : stopSong st = st') by congruence. subst st'.
    destruct (stopSong_control st) as (Hp & Hcb & Hf). auto.
  - rewrite step_UpdateAudioSettings in Hstep.
    assert (Hs : updateAudioSettings bVol mVol mPitch mE mA st = st')
      by congruence. subst st'.
    destruct (updateAudioSettings_control bVol mVol mPitch mE mA st)
      as (Hp & Hcb & Hf).
    rewrite Hp. auto.
  - rewrite step_Elapse in Hstep.
    assert (Hs : elapse ms sec st = st') by congruence. subst st'.
    destruct (elapse_control ms sec st) as (Hp & Hcb & Hf).
    rewrite Hp. auto.
  - rewrite step_Fire in Hstep. unfold fire in Hstep.
    destruct (List.find _ _) as [t|] eqn:Hf;
      [| assert (st = st') by congruence; subst; auto].
    destruct (Qle_bool (due t) (clock st)) eqn:Hdue;
      [| assert (st = st') by congruence; subst; auto].
    destruct (action t) eqn:Hact.
    + rewrite scheduler_unfold in Hstep.
      destruct (scheduler_loop _ _) as [[c s]|] eqn:E; [| discriminate].
      assert (Hs : s = st') by (cbn in Hstep; congruence). subst s.
      apply scheduler_loop_control in E as (Hp & Hcb & Hfd & _).
      split; [exact Hcb |]. left. split; [exact Hfd |].
      intros H. rewrite Hp. exact H.
    + assert (Hs : on_drain (clearTimeout (Some id) st) = st') by congruence.
      subst st'. unfold on_drain.
      change (isPlaying (clearTimeout (Some id) st)) with (isPlaying st).
      destruct (isPlaying st) eqn:Hp; [| auto].
      change (masterOnStop (set_isPlaying false (clearTimeout (Some id) st)))
        with (masterOnStop st).
      destruct (masterOnStop st) as [cb|] eqn:Hcb.
      * split; [exact Hcb |]. right. exists cb. auto.
      * split; [exact Hcb |]. left. split; [reflexivity | discriminate].
Qed.

(** X2.  Between two calls of [playSong] the completion callback is
    invoked at most once, and only if the engine was playing: after any
    inputs other than [playSong], either no callback was invoked, or
    exactly one was, the one stored by the latest [playSong], and the
    engine is no longer playing.  An engine that is not playing invokes
    nothing and stays not playing. *)
Theorem callback_at_most_once (st st' : state) (rest : list input) :
  Forall not_play rest ->
  run st rest = Some st' ->
  masterOnStop st' = masterOnStop st /\
  ((fired st' = fired st /\ (isPlaying st = false -> isPlaying st' = false)) \/
   (exists cb : callback,
      isPlaying st = true /\ masterOnStop st = Some cb /\
      fired st' = fired st ++ [cb] /\ isPlaying st' = false)).
Proof.
  intros HG. revert st. induction HG as [|i rest Hi HG IH]; intros st Hrun.
  - assert (st = st') by (cbn in Hrun; congruence). subst. auto.
  - rewrite run_cons in Hrun.
    destruct (step st i) as [s|] eqn:Hstep; [| discriminate].
    destruct (step_callback_once st s i Hi Hstep) as [Hcb1 H1].
    destruct (IH s Hrun) as [Hcb2 H2].
    split; [congruence |].
    destruct H1 as [[Hf1 Hp1] | (cb & Hp & Hcb & Hf1 & Hp1)].
    + destruct H2 as [[Hf2 Hp2] | (cb & Hp & Hcb & Hf2 & Hp2)].
      * left. split; [congruence | auto].
      * right. exists cb. destruct (isPlaying st) eqn:E.
        -- repeat split; congruence.
        -- rewrite Hp1 in Hp by reflexivity. discriminate.
    + destruct H2 as [[Hf2 Hp2] | (cb' & Hp' & _)]; [| congruence].
      right. exists cb. repeat split; auto; congruence.
Qed.

Lemma callback_at_most_once_witness :
  exists st st' : state,
    run init Scenario.empty_start = Some st /\
    run st (Scenario.empty_drain ++ [Elapse 25 0.025%Q; Fire 1; StopSong])
      = Some st' /\
    masterOnStop st' = masterOnStop st /\
    ((fired st' = fired st /\
      (isPlaying st = false -> isPlaying st' = false)) \/
     (exists cb : callback,
        isPlaying st = true /\ masterOnStop st = Some cb /\
        fired st' = fired st ++ [cb] /\ isPlaying st' = false)).
Proof.
  eexists. eexists.
  split; [vm_compute; reflexivity |].
  split; [vm_compute; reflexivity |].
  apply (callback_at_most_once _ _
           (Scenario.empty_drain ++ [Elapse 25 0.025%Q; Fire 1; StopSong])).
  - repeat constructor.
  - vm_compute. reflexivity.
Defined.

(** ** Completion of [scheduleNote] *)

Lemma string_loop_normal (m : measure) (pos : nat) (time : Q) (strs : list nat) :
  Forall (fun str => str < length m) strs ->
  fst (string_loop m pos time strs) = Normal.
Proof.
  induction 1 as [|str strs Hstr Hrest IH]; [reflexivity |].
  cbn [string_loop]. destruct (m !! str) as [row|] eqn:E.
  - destruct (string_loop m pos time strs) as [c later]. exact IH.
  - apply lookup_ge_None in E. unfold measure in *. lia.
Qed.

Lemma string_loop_throw (m : measure) (pos : nat) (time : Q) (strs : list nat) :
  Exists (fun str => length m <= str) strs ->
  fst (string_loop m pos time strs) = Throw.
Proof.
  induction 1 as [str strs Hstr | str strs Hrest IH]; cbn [string_loop].
  - destruct (m !! str) as [row|] eqn:E; [| reflexivity].
    apply lookup_lt_Some in E. unfold measure in *. lia.
  - destruct (m !! str) as [row|]; [| reflexivity].
    destruct (string_loop m pos time strs) as [c later]. exact IH.
Qed.

Lemma scheduleNote_completion (measureIdx pos : nat) (time : Q) (st : state)
    (c : completion) (st' : state) (m : measure) :
  scheduleNote measureIdx pos time st = (c, st') ->
  currentMeasures st !! measureIdx = Some m ->
  c = fst (string_loop m pos time (seq 0 5)).
Proof.
  unfold scheduleNote. intros H Hm.
  assert (Hms : currentMeasures (getAudioCtx st) = currentMeasures st)
    by (unfold getAudioCtx; now destruct (audioCtx st)).
  rewrite Hms, Hm in H.
  destruct (string_loop m pos time (seq 0 5)) as [c0 plucks].
  cbn. congruence.
Qed.

Lemma five_rows_normal (m : measure) (pos : nat) (time : Q) :
  five_rows m -> fst (string_loop m pos time (seq 0 5)) = Normal.
Proof.
  intros H. apply string_loop_normal. unfold five_rows in H.
  cbn. repeat constructor; lia.
Qed.

Lemma short_measure_throw (m : measure) (pos : nat) (time : Q) :
  length m < 5 -> fst (string_loop m pos time (seq 0 5)) = Throw.
Proof.
  intros H. apply string_loop_throw. apply Exists_exists.
  exists (length m). split; [| lia].
  apply elem_of_seq. lia.
Qed.

(** Loop rule for properties of the session variables that hold before
    and after a whole iteration ([scheduleNote] then [nextNote]). *)
Lemma scheduler_loop_body (P : state -> Prop) :
  core_based P ->
  (forall (st : state) (c : completion) (st' : state),
     P st -> currentMeasure st < length (currentMeasures st) ->
     scheduleNote (currentMeasure st) (currentPos st) (nextNoteTime st) st
       = (c, st') ->
     c = Normal /\ P (nextNote st')) ->
  forall (fuel : nat) (st : state) (c : completion) (st' : state),
    P st -> scheduler_loop fuel st = Some (c, st') -> c = Normal /\ P st'.
Proof.
  intros Hcore Hbody.
  induction fuel as [|fuel IH]; intros st c st' HP Hrun;
    rewrite scheduler_loop_eq in Hrun; cbv zeta in Hrun;
    assert (HP1 : P (getAudioCtx st))
      by (eapply Hcore; [symmetry; apply core_getAudioCtx | exact HP]);
    (destruct (Qlt_le_dec _ _);
     [| split; [congruence |];
        eapply Hcore; [| exact HP1];
        assert (Hs : set_timerID (Some (nextTimer (getAudioCtx st)))
                       (snd (setTimeout RunScheduler LOOKAHEAD (getAudioCtx st)))
                     = st') by congruence;
        now rewrite <- Hs]);
    (destruct (Nat.leb_spec (length (currentMeasures (getAudioCtx st)))
                            (currentMeasure (getAudioCtx st)));
     [split; [congruence |];
      eapply Hcore; [| exact HP1];
      match type of Hrun with
      | Some (_, ?s) = _ =>
          assert (Hs : s = st') by congruence; now rewrite <- Hs
      end |]);
    [discriminate |].
  destruct (scheduleNote _ _ _ _) as [c1 st1] eqn:E.
  destruct (Hbody _ _ _ HP1 H E) as [-> HP2].
  eapply IH; eauto.
Qed.

Lemma run_body (G : input -> Prop) (P : state -> Prop) :
  core_based P ->
  (forall (st : state) (c : completion) (st' : state),
     P st -> currentMeasure st < length (currentMeasures st) ->
     scheduleNote (currentMeasure st) (currentPos st) (nextNoteTime st) st
       = (c, st') ->
     c = Normal /\ P (nextNote st')) ->
  (forall (st : state) (m : timeline) (bpm : Q) (cb : option callback)
          (opts : playOpts) (t : Q),
     G (PlaySong m bpm cb opts) ->
     core st = (bpm, m, opts, t, 0, 0, []) -> P st) ->
  forall (inputs : list input) (st st' : state),
    Forall G inputs -> P st -> run st inputs = Some st' -> P st'.
Proof.
  intros Hcore Hbody Hplay.
  induction inputs as [|i inputs IH]; intros st st' HG HP Hrun.
  - assert (st = st') by (cbn in Hrun; congruence). now subst.
  - apply Forall_cons in HG as [Hi HG]. rewrite run_cons in Hrun.
    destruct (step st i) as [st1|] eqn:Hstep; [| discriminate].
    apply (IH st1 st' HG); [| exact Hrun]. clear IH Hrun.
    destruct i as [m bpm cb opts | | bVol mVol mPitch mE mA | ms sec | id].
    + rewrite step_PlaySong, playSong_unfold in Hstep.
      destruct (scheduler_loop _ _) as [[c st2]|] eqn:Hs; [| discriminate].
      assert (st2 = st1) by (cbn in Hstep; congruence). subst st2.
      eapply (scheduler_loop_body P Hcore Hbody); [| exact Hs].
      eapply (Hplay _ m bpm cb opts); [exact Hi |].
      apply core_playSong_setup.
    + rewrite step_StopSong in Hstep.
      assert (stopSong st = st1) by congruence. subst st1.
      eapply Hcore; [| exact HP]. symmetry. apply core_stopSong.
    + rewrite step_UpdateAudioSettings in Hstep.
      assert (updateAudioSettings bVol mVol mPitch mE mA st = st1)
        by congruence. subst st1.
      eapply Hcore; [| exact HP]. symmetry. apply core_updateAudioSettings.
    + rewrite step_Elapse in Hstep.
      assert (elapse ms sec st = st1) by congruence. subst st1.
      eapply Hcore; [| exact HP]. symmetry. apply core_elapse.
    + rewrite step_Fire in Hstep. unfold fire in Hstep.
      destruct (List.find _ _) as [t|];
        [| assert (st = st1) by congruence; now subst].
      destruct (Qle_bool _ _);
        [| assert (st = st1) by congruence; now subst].
      assert (HP1 : P (clearTimeout (Some id) st))
        by (eapply Hcore; [| exact HP]; symmetry; apply core_clearTimeout).
      destruct (action t).
      * rewrite scheduler_unfold in Hstep.
        destruct (scheduler_loop _ _) as [[c st2]|] eqn:Hs; [| discriminate].
        assert (st2 = st1) by (cbn in Hstep; congruence). subst st2.
        eapply (scheduler_loop_body P Hcore Hbody); [| exact Hs].
        exact HP1.
      * assert (on_drain (clearTimeout (Some id) st) = st1) by congruence.
        subst st1.
        eapply Hcore; [| exact HP1]. symmetry. apply core_on_drain.
Qed.

Lemma grid_position_index (measureIdx pos : nat) :
  pos < 16 -> grid_position (grid_index measureIdx pos) = (measureIdx, pos).
Proof.
  intros H. unfold grid_position, grid_index. f_equal.
  - symmetry. apply (Nat.div_unique _ 16 measureIdx pos); lia.
  - symmetry. apply (Nat.mod_unique _ 16 measureIdx pos); lia.
Qed.

Lemma complete_so_far_run (inputs : list input) (st : state) :
  Forall timeline_ok inputs ->
  run init inputs = Some st ->
  complete_so_far st.
Proof.
  intros HG Hrun.
  apply (run_body timeline_ok complete_so_far)
    with (inputs := inputs) (st := init); auto.
  - intros s s' Hc. unfold core in Hc. injection Hc as _ Hm _ _ Hcm Hcp Hn.
    unfold complete_so_far. now rewrite Hm, Hcm, Hcp, Hn.
  - intros s c s' (Hrows & Hpos & Hle & Hnotes) Hlt E.
    destruct (lookup_lt_is_Some_2 (currentMeasures s) (currentMeasure s) Hlt)
      as [m Hm].
    assert (Hfive : five_rows m).
    { rewrite Forall_forall in Hrows. apply Hrows.
      eapply list_elem_of_lookup_2; eauto. }
    split.
    { rewrite (scheduleNote_completion _ _ _ _ _ _ m E Hm).
      now apply five_rows_normal. }
    apply core_scheduleNote in E as (r & Hc & Hrm & Hrp & _).
    unfold core in Hc. injection Hc as _ Hm1 _ _ Hcm1 Hcp1 Hn1.
    assert (Hpos1 : currentPos s' < 16) by (now rewrite Hcp1).
    destruct (nextNote_spec s' Hpos1) as (Hp2 & Hg2 & _ & _ & Hm2 & _ & Hn2).
    unfold complete_so_far. rewrite Hg2, Hm2, Hn2, Hm1, Hn1, Hcm1, Hcp1.
    split; [exact Hrows |]. split; [exact Hp2 |].
    split; [unfold grid_index in *; lia |].
    rewrite seq_S, !fmap_app, Hnotes. cbn. do 2 f_equal.
    unfold note_position. rewrite Hrm, Hrp.
    symmetry. now apply grid_position_index.
  - intros s m bpm cb opts t Hok Hc. unfold core in Hc.
    injection Hc as _ Hm _ _ Hcm Hcp Hn.
    unfold complete_so_far. rewrite Hm, Hcm, Hcp, Hn.
    split; [exact Hok |]. split; [lia |].
    split; [unfold grid_index; lia | reflexivity].
  - unfold complete_so_far. cbn.
    split; [constructor |]. split; [lia |]. split; [lia | reflexivity].
Qed.

Lemma scheduler_loop_normal (fuel : nat) (st : state) (c : completion)
    (st' : state) :
  Forall five_rows (currentMeasures st) ->
  scheduler_loop fuel st = Some (c, st') -> c = Normal.
Proof.
  intros Hrows Hrun.
  apply (scheduler_loop_body
           (fun s => Forall five_rows (currentMeasures s)))
    with (fuel := fuel) (st := st) (st' := st'); auto.
  - intros s s' Hc. unfold core in Hc. injection Hc as _ Hm _ _ _ _ _.
    now rewrite Hm.
  - intros s c0 s' Hs Hlt E.
    destruct (lookup_lt_is_Some_2 (currentMeasures s) (currentMeasure s) Hlt)
      as [m Hm].
    split.
    + rewrite (scheduleNote_completion _ _ _ _ _ _ m E Hm).
      apply five_rows_normal. rewrite Forall_forall in Hs. apply Hs.
      eapply list_elem_of_lookup_2; eauto.
    + apply core_scheduleNote in E as (r & Hc & _).
      unfold core in Hc. injection Hc as _ Hm1 _ _ _ _ _.
      destruct (nextNote_frame s') as (_ & Hm2 & _). now rewrite Hm2, Hm1.
Qed.

(** X4.  A measure with fewer than five rows stalls playback: when the
    position to schedule lies in such a measure, the scheduling pass
    ends in the [TypeError] of [scheduleNote], after that call was
    recorded (with its click and the strings before the missing row);
    the position and the next event time are not advanced, no timer is
    armed, so the wake-up is not re-armed, [isPlaying] stays as it is
    and no callback is invoked. *)
Theorem short_measure_stalls (st : state) (m : measure) :
  (nextNoteTime st < currentTime (getAudioCtx st) + SCHEDULE_AHEAD_TIME)%Q ->
  currentMeasures st !! currentMeasure st = Some m ->
  length m < 5 ->
  exists (st' : state) (r : note_record),
    scheduler st = Some (Throw, st') /\
    notes st' = notes st ++ [r] /\
    note_position r = (currentMeasure st, currentPos st) /\
    timers st' = timers st /\
    timerID st' = timerID st /\
    currentMeasure st' = currentMeasure st /\
    currentPos st' = currentPos st /\
    nextNoteTime st' = nextNoteTime st /\
    isPlaying st' = isPlaying st /\
    fired st' = fired st.
Proof.
  intros Hdue Hm Hshort.
  assert (Hframe : currentMeasures (getAudioCtx st) = currentMeasures st /\
                   currentMeasure (getAudioCtx st) = currentMeasure st /\
                   currentPos (getAudioCtx st) = currentPos st /\
                   nextNoteTime (getAudioCtx st) = nextNoteTime st /\
                   timers (getAudioCtx st) = timers st /\
                   timerID (getAudioCtx st) = timerID st /\
                   isPlaying (getAudioCtx st) = isPlaying st /\
                   fired (getAudioCtx st) = fired st /\
                   notes (getAudioCtx st) = notes st /\
                   getAudioCtx (getAudioCtx st) = getAudioCtx st).
  { unfold getAudioCtx. destruct (audioCtx st) eqn:E; cbn; rewrite ?E; auto 12. }
  destruct Hframe as (Hms & Hcm & Hcp & Hnt & Hts & Hid & Hpl & Hfd & Hns & Hgg).
  pose proof (lookup_lt_Some _ _ _ Hm) as Hlt.
  rewrite scheduler_unfold. unfold scheduler_fuel.
  destruct (length (currentMeasures st)) as [|k] eqn:Hlen; [lia |].
  replace (16 * S k) with (S (15 + 16 * k)) by lia.
  rewrite scheduler_loop_eq. cbv zeta.
  rewrite Hnt, Hms, Hcm, Hcp, Hlen.
  destruct (Qlt_le_dec _ _) as [_ | Hge]; [| lraQ].
  destruct (Nat.leb_spec (S k) (currentMeasure st)); [lia |].
  destruct (scheduleNote _ _ _ _) as [c st1] eqn:E.
  assert (Hc : c = Throw).
  { rewrite (scheduleNote_completion _ _ _ _ _ _ m E) by (now rewrite Hms).
    now apply short_measure_throw. }
  subst c.
  apply scheduleNote_spec in E as (plucks & _ & ->).
  eexists. eexists. split; [reflexivity |].
  rewrite Hgg. cbn. rewrite Hns, Hts, Hid, Hcm, Hcp, Hnt, Hpl, Hfd.
  repeat split.
Qed.

Lemma short_measure_stalls_witness :
  exists st : state,
    run init [PlaySong [[["0"]]] 120 (Some 1) Scenario.metronome_on;
              Elapse 25 0.025%Q] = Some st /\
    exists (st' : state) (r : note_record),
      scheduler st = Some (Throw, st') /\
      notes st' = notes st ++ [r] /\
      note_position r = (currentMeasure st, currentPos st) /\
      timers st' = timers st /\
      timerID st' = timerID st /\
      currentMeasure st' = currentMeasure st /\
      currentPos st' = currentPos st /\
      nextNoteTime st' = nextNoteTime st /\
      isPlaying st' = isPlaying st /\
      fired st' = fired st.
Proof.
  eexists. split; [vm_compute; reflexivity |].
  apply (short_measure_stalls _ [["0"]]).
  - vm_compute. reflexivity.
  - reflexivity.
  - cbn. lia.
Defined.

(** ** The audio graph *)

Lemma graph_consistent_getAudioCtx (st : state) :
  graph_consistent st -> graph_consistent (getAudioCtx st).
Proof.
  unfold graph_consistent, getAudioCtx. destruct st; cbn.
  destruct audioCtx0; cbn; [auto |]. intros _. split; split; discriminate.
Qed.

Lemma graph_consistent_stopSong (st : state) :
  graph_consistent st ->
  audioCtx (stopSong st) = None /\
  banjoMasterGain (stopSong st) = None /\
  metroMasterGain (stopSong st) = None.
Proof.
  unfold graph_consistent, stopSong, clearTimeout. destruct st; cbn.
  intros [[H1 _] [H2 _]].
  destruct timerID0, audioCtx0; cbn; auto.
Qed.

Lemma graph_consistent_updateAudioSettings (bVol mVol mPitch : Q)
    (mE mA : bool) (st : state) :
  graph_consistent st ->
  graph_consistent (updateAudioSettings bVol mVol mPitch mE mA st) /\
  audioCtx (updateAudioSettings bVol mVol mPitch mE mA st) = audioCtx st.
Proof.
  unfold graph_consistent, updateAudioSettings, getAudioCtx.
  destruct st; cbn. intros [[H1 H1'] [H2 H2']].
  destruct audioCtx0, banjoMasterGain0, metroMasterGain0; cbn;
    try (specialize (H1 eq_refl)); try (specialize (H2 eq_refl));
    try (specialize (H1' eq_refl)); try (specialize (H2' eq_refl));
    try discriminate;
    (split; [split; split; (discriminate || reflexivity) | reflexivity]).
Qed.

Lemma graph_consistent_elapse (ms sec : Q) (st : state) :
  graph_consistent st -> graph_consistent (elapse ms sec st).
Proof.
  unfold graph_consistent, elapse. destruct st; cbn.
  intros [[H1 H1'] [H2 H2']].
  destruct (Qle_bool 0 ms), (Qle_bool 0 sec), audioCtx0; cbn;
    (split; split; intros H; try discriminate; auto;
     try (apply H1' in H; discriminate); try (apply H2' in H; discriminate)).
Qed.

Lemma graph_consistent_on_drain (st : state) :
  graph_consistent st -> graph_consistent (on_drain st).
Proof.
  unfold graph_consistent, on_drain. destruct st; cbn.
  destruct isPlaying0; cbn; [| auto]. now destruct masterOnStop0.
Qed.

Lemma getAudioCtx_idem (st : state) :
  getAudioCtx (getAudioCtx st) = getAudioCtx st.
Proof. unfold getAudioCtx. destruct (audioCtx st) eqn:E; cbn; now rewrite ?E. Qed.

Lemma scheduler_loop_getAudioCtx (fuel : nat) (st : state) :
  scheduler_loop fuel (getAudioCtx st) = scheduler_loop fuel st.
Proof.
  rewrite (scheduler_loop_eq fuel (getAudioCtx st)), (scheduler_loop_eq fuel st).
  now rewrite getAudioCtx_idem.
Qed.

Lemma graph_consistent_scheduler_loop (fuel : nat) (st : state)
    (c : completion) (st' : state) :
  graph_consistent st ->
  scheduler_loop fuel st = Some (c, st') ->
  graph_consistent st'.
Proof.
  intros H Hrun.
  apply (scheduler_loop_prims graph_consistent)
    with (fuel := fuel) (st := st) (c := c); auto.
  - apply graph_consistent_getAudioCtx.
  - intros s Hs. unfold graph_consistent, nextNote in *. cbn.
    now destruct (currentPos s =? 15).
Qed.

Lemma graph_consistent_playSong_setup (m : timeline) (bpm : Q)
    (cb : option callback) (opts : playOpts) (st : state) :
  graph_consistent st ->
  graph_consistent (playSong_setup m bpm cb opts st).
Proof.
  intros H. unfold playSong_setup.
  apply graph_consistent_updateAudioSettings.
  assert (H0 : graph_consistent (getAudioCtx
                 (if isPlaying st then stopSong st else st))).
  { apply graph_consistent_getAudioCtx. destruct (isPlaying st); [| exact H].
    destruct (graph_consistent_stopSong st H) as (H1 & H2 & H3).
    unfold graph_consistent. rewrite H1, H2, H3. auto. }
  exact H0.
Qed.

Lemma graph_consistent_step (st st' : state) (i : input) :
  graph_consistent st -> step st i = Some st' -> graph_consistent st'.
Proof.
  intros H Hstep.
  destruct i as [m bpm cb opts | | bVol mVol mPitch mE mA | ms sec | id].
  - rewrite step_PlaySong, playSong_unfold in Hstep.
    destruct (scheduler_loop _ _) as [[c s]|] eqn:E; [| discriminate].
    assert (s = st') by (cbn in Hstep; congruence). subst s.
    eapply graph_consistent_scheduler_loop; [| exact E].
    now apply graph_consistent_playSong_setup.
  - rewrite step_StopSong in Hstep.
    assert (stopSong st = st') by congruence. subst st'.
    destruct (graph_consistent_stopSong st H) as (H1 & H2 & H3).
    unfold graph_consistent. rewrite H1, H2, H3. auto.
  - rewrite step_UpdateAudioSettings in Hstep.
    assert (updateAudioSettings bVol mVol mPitch mE mA st = st')
      by congruence. subst st'.
    now apply graph_consistent_updateAudioSettings.
  - rewrite step_Elapse in Hstep.
    assert (elapse ms sec st = st') by congruence. subst st'.
    now apply graph_consistent_elapse.
  - rewrite step_Fire in Hstep. unfold fire in Hstep.
    destruct (List.find _ _) as [t|];
      [| assert (st = st') by congruence; now subst].
    destruct (Qle_bool _ _);
      [| assert (st = st') by congruence; now subst].
    destruct (action t).
    + rewrite scheduler_unfold in Hstep.
      destruct (scheduler_loop _ _) as [[c s]|] eqn:E; [| discriminate].
      assert (s = st') by (cbn in Hstep; congruence). subst s.
      eapply graph_consistent_scheduler_loop; [| exact E]. exact H.
    + assert (on_drain (clearTimeout (Some id) st) = st') by congruence.
      subst st'. apply graph_consistent_on_drain. exact H.
Qed.

Lemma graph_consistent_run (inputs : list input) (st st' : state) :
  graph_consistent st -> run st inputs = Some st' -> graph_consistent st'.
Proof.
  revert st. induction inputs as [|i inputs IH]; intros st H Hrun.
  - assert (st = st') by (cbn in Hrun; congruence). now subst.
  - rewrite run_cons in Hrun.
    destruct (step st i) as [s|] eqn:Hstep; [| discriminate].
    apply (IH s); [| exact Hrun]. eapply graph_consistent_step; eauto.
Qed.

(** X5.  Along any run from the fresh engine the audio context and the
    two bus gains are null together or set together; a stop leaves all
    three null (the graph is torn down), and any scheduling pass, which
    calls [getAudioCtx], leaves all three set. *)
Theorem audio_graph_lifecycle (inputs : list input) :
  exists st : state,
    run init inputs = Some st /\
    graph_consistent st /\
    (audioCtx (stopSong st) = None /\
     banjoMasterGain (stopSong st) = None /\
     metroMasterGain (stopSong st) = None) /\
    exists (c : completion) (st' : state),
      scheduler st = Some (c, st') /\
      is_Some (audioCtx st') /\
      is_Some (banjoMasterGain st') /\
      is_Some (metroMasterGain st').
Proof.
  destruct (run_total inputs init) as [st Hrun]; [cbn; lia |].
  exists st. split; [exact Hrun |].
  assert (H : graph_consistent st).
  { eapply graph_consistent_run; [| exact Hrun].
    unfold graph_consistent. cbn. auto. }
  split; [exact H |].
  split; [now apply graph_consistent_stopSong |].
  assert (Hpos : currentPos st < 16)
    by (eapply position_invariant; [| exact Hrun]; cbn; lia).
  destruct (scheduler_total st Hpos) as [[c st'] Hs].
  exists c, st'. split; [exact Hs |].
  rewrite scheduler_unfold in Hs.
  assert (Hctx : is_Some (audioCtx st')).
  { rewrite <- scheduler_loop_getAudioCtx in Hs.
    apply (scheduler_loop_prims (fun s => is_Some (audioCtx s)))
      with (fuel := scheduler_fuel st) (st := getAudioCtx st) (c := c);
      [| auto | auto | auto | | | exact Hs].
    - intros s Hs'. unfold getAudioCtx.
      destruct (audioCtx s) eqn:E; [now rewrite E | cbn; eauto].
    - intros s Hs'. unfold nextNote. cbn.
      destruct (currentPos s =? 15); exact Hs'.
    - unfold getAudioCtx. destruct (audioCtx st) eqn:E; cbn; rewrite ?E; eauto. }
  pose proof (graph_consistent_scheduler_loop _ _ _ _ H Hs) as [[_ H1] [_ H2]].
  split; [exact Hctx |].
  destruct Hctx as [t Ht].
  split.
  - destruct (banjoMasterGain st'); [eauto |].
    specialize (H1 eq_refl). congruence.
  - destruct (metroMasterGain st'); [eauto |].
    specialize (H2 eq_refl). congruence.
Qed.

(** X6.  [updateAudioSettings] is safe at any time.  It leaves the
    playback state (session, timers, callbacks) as it is.  If no audio
    graph exists it changes nothing.  On a consistent graph it keeps the
    context, sets the instrument bus to [bVol / 0.5 * 0.65] and the
    metronome bus to [mVol / 0.5 * 1], or to 0 when the metronome is
    disabled whatever its volume; and applying the same settings twice
    is the same as applying them once. *)
Theorem updateAudioSettings_live (bVol mVol mPitch : Q) (mEnabled mAccent : bool)
    (st : state) :
  graph_consistent st ->
  let st' := updateAudioSettings bVol mVol mPitch mEnabled mAccent st in
  playback_view st' = playback_view st /\
  audioCtx st' = audioCtx st /\
  graph_consistent st' /\
  (audioCtx st = None -> st' = st) /\
  (is_Some (audioCtx st) ->
   banjoMasterGain st' = Some (bVol / 0.5 * 0.65)%Q /\
   metroMasterGain st' =
     Some (if mEnabled then (mVol / 0.5 * 1)%Q else 0%Q)) /\
  updateAudioSettings bVol mVol mPitch mEnabled mAccent st' = st'.
Proof.
  unfold graph_consistent, updateAudioSettings, getAudioCtx, playback_view.
  destruct st as [ctx bg mg pl bpm ms po cb nt cm cp tm ck ts ntm ns fd].
  cbn. intros [[H1 H1'] [H2 H2']].
  destruct ctx as [t|], bg as [b|], mg as [g|]; cbn;
    try (specialize (H1 eq_refl)); try (specialize (H2 eq_refl));
    try (specialize (H1' eq_refl)); try (specialize (H2' eq_refl));
    try discriminate.
  - repeat split; try discriminate; auto.
  - repeat split; try discriminate; auto;
      match goal with
      | Hsome : is_Some None |- _ => destruct Hsome as [x Hx]; discriminate
      end.
Qed.

Lemma updateAudioSettings_live_witness :
  exists st : state,
    run init Scenario.strum = Some st /\
    let st' := updateAudioSettings 0.25%Q 0.5%Q 0.6%Q false true st in
    playback_view st' = playback_view st /\
    audioCtx st' = audioCtx st /\
    graph_consistent st' /\
    (audioCtx st = None -> st' = st) /\
    (is_Some (audioCtx st) ->
     banjoMasterGain st' = Some (0.25 / 0.5 * 0.65)%Q /\
     metroMasterGain st' = Some 0%Q) /\
    updateAudioSettings 0.25%Q 0.5%Q 0.6%Q false true st' = st'.
Proof.
  eexists. split; [vm_compute; reflexivity |].
  apply (updateAudioSettings_live 0.25%Q 0.5%Q 0.6%Q false true).
  unfold graph_consistent. cbn. split; split; discriminate.
Defined.

(** X7.  [playSong] on a consistent graph, from any state: it returns
    normally with a running session at measure 0, position 0, the
    callback stored, and the first event 0.1 s ahead of the audio clock.
    If a session was running, or no context was open, the session runs
    on a fresh context whose clock starts at zero (the old graph was
    torn down); if the engine was not playing and a context was still
    open, that context is reused.  The bus gains are set from the
    options (defaults 0.5): the metronome bus is at 0 unless [enabled]
    is [true]. *)
Theorem playSong_starts_session (m : timeline) (bpm : Q) (cb : option callback)
    (opts : playOpts) (st : state) :
  graph_consistent st ->
  exists (st1 : state) (ct : Q),
    playSong m bpm cb opts st = Some (Normal, st1) /\
    isPlaying st1 = true /\
    currentMeasures st1 = m /\ currentBpm st1 = bpm /\
    currentPlayOpts st1 = opts /\ masterOnStop st1 = cb /\
    currentMeasure st1 = 0 /\ currentPos st1 = 0 /\
    notes st1 = [] /\ fired st1 = fired st /\
    audioCtx st1 = Some ct /\
    nextNoteTime st1 = (ct + 0.1)%Q /\
    (isPlaying st = true \/ audioCtx st = None -> ct = 0%Q) /\
    (isPlaying st = false -> forall t : Q, audioCtx st = Some t -> ct = t) /\
    banjoMasterGain st1 =
      Some (default 0.5%Q (banjoVolume opts) / 0.5 * 0.65)%Q /\
    metroMasterGain st1 =
      Some (if clickEnabled opts
            then (default 0.5%Q (metroVolume opts) / 0.5 * 1)%Q else 0%Q).
Proof.
  intros H.
  assert (Hsetup : let s := playSong_setup m bpm cb opts st in
    exists ct : Q,
      isPlaying s = true /\ currentMeasures s = m /\ currentBpm s = bpm /\
      currentPlayOpts s = opts /\ masterOnStop s = cb /\
      currentMeasure s = 0 /\ currentPos s = 0 /\ notes s = [] /\
      fired s = fired st /\ audioCtx s = Some ct /\
      nextNoteTime s = (ct + 0.1)%Q /\
      (isPlaying st = true \/ audioCtx st = None -> ct = 0%Q) /\
      (isPlaying st = false -> forall t : Q, audioCtx st = Some t -> ct = t) /\
      banjoMasterGain s =
        Some (default 0.5%Q (banjoVolume opts) / 0.5 * 0.65)%Q /\
      metroMasterGain s =
        Some (if clickEnabled opts
              then (default 0.5%Q (metroVolume opts) / 0.5 * 1)%Q else 0%Q)).
  { unfold playSong_setup, updateAudioSettings, getAudioCtx, currentTime,
      stopSong, clearTimeout.
    unfold graph_consistent in H.
    destruct st as [ctx bg mg pl bpm0 ms po cb0 nt cm cp tm ck ts ntm ns fd].
    cbn in *. destruct H as [[H1 H1'] [H2 H2']].
    destruct ctx as [t|], bg as [b|], mg as [g|];
      try (specialize (H1 eq_refl)); try (specialize (H2 eq_refl));
      try (specialize (H1' eq_refl)); try (specialize (H2' eq_refl));
      try discriminate;
      destruct pl, tm as [id|]; cbn;
      eexists; repeat split; try reflexivity;
      try (intros [? | ?]; (discriminate || reflexivity));
      try (intros; congruence). }
  cbv zeta in Hsetup.
  destruct Hsetup as (ct & Hp & Hm & Hb & Ho & Hcb & Hcm & Hcp & Hn & Hf
                      & Hctx & Hnt & Hfresh & Hreuse & Hbg & Hmg).
  rewrite playSong_unfold, scheduler_loop_eq.
  generalize dependent (playSong_setup m bpm cb opts st). intros s.
  intros Hp Hm Hb Ho Hcb Hcm Hcp Hn Hf Hctx Hnt Hbg Hmg. cbv zeta.
  assert (Hs : getAudioCtx s = s) by (unfold getAudioCtx; now rewrite Hctx).
  rewrite Hs. unfold currentTime. rewrite Hctx, Hnt. cbn [default].
  destruct (Qlt_le_dec _ _) as [Hlt | _].
  { unfold SCHEDULE_AHEAD_TIME in Hlt. now apply Qlt_irrefl in Hlt. }
  exists (set_timerID (Some (nextTimer s))
            (snd (setTimeout RunScheduler LOOKAHEAD s))), ct.
  split; [reflexivity |].
  cbn. rewrite Hp, Hm, Hb, Ho, Hcb, Hcm, Hcp, Hn, Hf, Hctx, Hnt, Hbg, Hmg.
  repeat split; auto.
Qed.

Lemma playSong_starts_session_witness :
  exists (st1 : state) (ct : Q),
    playSong [Scenario.g_easy] 100 (Some 3) Scenario.metronome_off init
      = Some (Normal, st1) /\
    isPlaying st1 = true /\
    currentMeasures st1 = [Scenario.g_easy] /\ currentBpm st1 = 100%Q /\
    currentPlayOpts st1 = Scenario.metronome_off /\
    masterOnStop st1 = Some 3 /\
    currentMeasure st1 = 0 /\ currentPos st1 = 0 /\
    notes st1 = [] /\ fired st1 = fired init /\
    audioCtx st1 = Some ct /\
    nextNoteTime st1 = (ct + 0.1)%Q /\
    (isPlaying init = true \/ audioCtx init = None -> ct = 0%Q) /\
    (isPlaying init = false ->
     forall t : Q, audioCtx init = Some t -> ct = t) /\
    banjoMasterGain st1 =
      Some (default 0.5%Q (banjoVolume Scenario.metronome_off) / 0.5 * 0.65)%Q /\
    metroMasterGain st1 =
      Some (if clickEnabled Scenario.metronome_off
            then (default 0.5%Q (metroVolume Scenario.metronome_off) / 0.5 * 1)%Q
            else 0%Q).
Proof.
  apply (playSong_starts_session [Scenario.g_easy] 100 (Some 3)
           Scenario.metronome_off init).
  unfold graph_consistent. cbn. auto.
Defined.

End SequencerMore.

(* ================================================================== *)
(** * Further properties of the tab generator                          *)
(* ================================================================== *)

Import Sequencer Shape.

Lemma chord_names (chordName : string) :
  is_Some (Tab.CHORD_LIB !! chordName) <->
  chordName ∈ ["G"; "C"; "D"; "D7"; "Em"; "Am"].
Proof.
  split.
  - intros [c Hc]. eapply chord_in_table; eauto.
  - intros Hin.
    repeat (apply elem_of_cons in Hin as [-> | Hin]; [eexists; reflexivity |]).
    now apply elem_of_nil in Hin.
Qed.

Lemma generateMeasure_fails_iff_unknown_chord_aux
    (chordName difficulty : string) (variation : Z) :
  Tab.CHORD_LIB !! chordName = None ->
  Tab.generateMeasure chordName difficulty variation = None.
Proof. intros Hnone. unfold Tab.generateMeasure. now rewrite Hnone. Qed.

(** X8.  [generateMeasure] throws exactly for a chord name that is not
    a key of [CHORD_LIB]; for every other name, every difficulty (any
    string other than ["easy"] is treated as medium) and every variation
    it returns a measure. *)
Theorem generateMeasure_fails_iff_unknown_chord
    (chordName difficulty : string) (variation : Z) :
  Tab.generateMeasure chordName difficulty variation = None <->
  Tab.CHORD_LIB !! chordName = None.
Proof.
  split.
  - intros Hnone. destruct (Tab.CHORD_LIB !! chordName) as [c|] eqn:E;
      [| reflexivity].
    destruct (generateMeasure_checked chordName difficulty variation
                (chord_in_table _ _ E)) as (m & Hm & _).
    congruence.
  - intros Hnone. unfold Tab.generateMeasure. now rewrite Hnone.
Qed.

Lemma forallb_id_lookup (l : list bool) (i : nat) (b : bool) :
  forallb (fun b : bool => b) l = true -> l !! i = Some b -> b = true.
Proof.
  intros H Hi. rewrite forallb_forall in H. apply H.
  apply list_elem_of_In. eapply list_elem_of_lookup_2; eauto.
Qed.

Lemma all_cells_lookup (f : nat -> nat -> string -> bool) (m : measure)
    (row pos : nat) (r : list string) (c : string) :
  Song.all_cells f m = true ->
  m !! row = Some r -> r !! pos = Some c -> f row pos c = true.
Proof.
  unfold Song.all_cells. intros H Hr Hc.
  assert (H1 : forallb (fun b : bool => b) (imap (fun pos c => f row pos c) r)
               = true).
  { eapply (forallb_id_lookup _ row); [exact H |].
    rewrite list_lookup_imap. unfold measure in *. now rewrite Hr. }
  eapply (forallb_id_lookup _ pos); [exact H1 |].
  rewrite list_lookup_imap. now rewrite Hc.
Qed.

Lemma generateMeasure_rhythm_checked (chordName difficulty : string)
    (variation : Z) :
  chordName ∈ ["G"; "C"; "D"; "D7"; "Em"; "Am"] ->
  exists (m : measure) (fd fB fG fD fg : Z),
    Tab.frets <$> Tab.CHORD_LIB !! chordName = Some [fd; fB; fG; fD; fg] /\
    Tab.generateMeasure chordName difficulty variation = Some m /\
    Song.all_cells (Song.rhythm_cell fd fg) m = true.
Proof.
  intros Hin. unfold Tab.generateMeasure.
  assert (Hcases : chordName = "G" \/ chordName = "C" \/ chordName = "D" \/
                   chordName = "D7" \/ chordName = "Em" \/ chordName = "Am").
  { repeat (apply elem_of_cons in Hin as [Hin | Hin]; [auto 10 |]).
    apply elem_of_nil in Hin. contradiction. }
  destruct Hcases as [-> | [-> | [-> | [-> | [-> | ->]]]]];
    (destruct (String.eqb difficulty "easy");
     [ destruct (JS.rem variation 2 =? 1)%Z
     | destruct (JS.rem variation 3 =? 0)%Z,
                (JS.rem variation 3 =? 1)%Z,
                (JS.rem variation 4 =? 0)%Z ];
     do 6 eexists;
     (split; [vm_compute; reflexivity |
              split; vm_compute; reflexivity])).
Qed.

(** X9.  The rhythm of every generated measure, for a chord of the
    table with first-string fret [fd] and fifth-string fret [fg], any
    difficulty and variation: the offbeat sixteenths (odd positions) are
    silent on every string; the fifth string sounds exactly on positions
    4 and 12, always its chord fret; the first string sounds its chord
    fret on position 0; and the hammer-on marker can only stand on the
    first string at position 14. *)
Theorem generateMeasure_rhythm (chordName difficulty : string) (variation : Z) :
  is_Some (Tab.CHORD_LIB !! chordName) ->
  exists (m : measure) (fd fB fG fD fg : Z),
    Tab.frets <$> Tab.CHORD_LIB !! chordName = Some [fd; fB; fG; fD; fg] /\
    Tab.generateMeasure chordName difficulty variation = Some m /\
    forall (row pos : nat) (r : list string) (c : string),
      m !! row = Some r -> r !! pos = Some c ->
      (Nat.odd pos = true -> c = "-") /\
      (row = 4 -> (pos = 4 \/ pos = 12) -> c = JS.toString fg) /\
      (row = 4 -> pos <> 4 -> pos <> 12 -> c = "-") /\
      (row = 0 -> pos = 0 -> c = JS.toString fd) /\
      (c = "h2" -> row = 0 /\ pos = 14).
Proof.
  intros Hsome. apply chord_names in Hsome.
  destruct (generateMeasure_rhythm_checked chordName difficulty variation Hsome)
    as (m & fd & fB & fG & fD & fg & Hfrets & Hm & Hcells).
  exists m, fd, fB, fG, fD, fg. split; [exact Hfrets |]. split; [exact Hm |].
  intros row pos r c Hr Hc.
  pose proof (all_cells_lookup _ m row pos r c Hcells Hr Hc) as H.
  unfold Song.rhythm_cell in H.
  repeat (apply andb_prop in H as [H ?]).
  split; [| split; [| split; [| split]]].
  - intros Hodd. rewrite Hodd in H. now apply String.eqb_eq.
  - intros -> Hpos. cbn in H2.
    destruct Hpos as [-> | ->]; cbn in H2; now apply String.eqb_eq.
  - intros -> H4 H12. cbn in H2.
    apply Nat.eqb_neq in H4, H12. rewrite H4, H12 in H2.
    now apply String.eqb_eq.
  - intros -> ->. cbn in H1. now apply String.eqb_eq.
  - intros ->. cbn in H0. apply andb_prop in H0 as [Hrow Hpos].
    apply Nat.eqb_eq in Hrow, Hpos. auto.
Qed.

Lemma generateMeasure_rhythm_witness :
  exists (m : measure) (fd fB fG fD fg : Z),
    Tab.frets <$> Tab.CHORD_LIB !! "Am" = Some [fd; fB; fG; fD; fg] /\
    Tab.generateMeasure "Am" "medium" 4 = Some m /\
    forall (row pos : nat) (r : list string) (c : string),
      m !! row = Some r -> r !! pos = Some c ->
      (Nat.odd pos = true -> c = "-") /\
      (row = 4 -> (pos = 4 \/ pos = 12) -> c = JS.toString fg) /\
      (row = 4 -> pos <> 4 -> pos <> 12 -> c = "-") /\
      (row = 0 -> pos = 0 -> c = JS.toString fd) /\
      (c = "h2" -> row = 0 /\ pos = 14).
Proof.
  apply (generateMeasure_rhythm "Am" "medium" 4).
  eexists. reflexivity.
Defined.

(** ** Songs *)

Lemma generate_from_spec (allChords : list string) (difficulty : string) (i : nat) :
  Forall (fun ch => is_Some (Tab.CHORD_LIB !! ch)) allChords ->
  exists ms : timeline,
    Song.generate_from i allChords difficulty = Some ms /\
    length ms = length allChords /\
    Forall (fun m => Tab.grid_ok m = true) ms.
Proof.
  intros H. revert i. induction H as [|ch rest Hch Hrest IH]; intros i.
  - exists []. repeat split. constructor.
  - apply chord_names in Hch.
    destruct (generateMeasure_checked ch difficulty (Z.of_nat i) Hch)
      as (m & Hm & Hok).
    destruct (IH (S i)) as (ms & Hms & Hlen & Hall).
    exists (m :: ms). cbn [Song.generate_from]. rewrite Hm, Hms. cbn.
    repeat split; [now rewrite Hlen | now constructor].
Qed.

Lemma generate_from_fails (allChords : list string) (difficulty : string)
    (i : nat) :
  Exists (fun ch => Tab.CHORD_LIB !! ch = None) allChords ->
  Song.generate_from i allChords difficulty = None.
Proof.
  intros H. revert i. induction H as [ch rest Hch | ch rest Hrest IH]; intros i;
    cbn [Song.generate_from].
  - apply (generateMeasure_fails_iff_unknown_chord_aux ch difficulty (Z.of_nat i))
      in Hch. now rewrite Hch.
  - destruct (Tab.generateMeasure ch difficulty (Z.of_nat i)); [| reflexivity].
    cbn. now rewrite IH.
Qed.

Lemma grid_ok_five_rows (m : measure) : Tab.grid_ok m = true -> five_rows m.
Proof.
  intros H. destruct (grid_ok_shape m H) as [Hlen _].
  unfold five_rows. unfold measure in *. lia.
Qed.

(** X10.  The song [buildTabHTML] hands to the audio engine.  If every
    chord of the progression is in [CHORD_LIB], it has twice as many
    measures as the progression has chords, each a well-formed 5 by 16
    grid the sequencer can index; if some chord is not in the table,
    building the song throws. *)
Theorem allMeasures_builds (prog : Song.progression) (difficulty : string) :
  (Forall (fun ch => is_Some (Tab.CHORD_LIB !! ch)) (Song.chords prog) ->
   exists ms : timeline,
     Song.allMeasures prog difficulty = Some ms /\
     length ms = 2 * length (Song.chords prog) /\
     Forall (fun m => Tab.grid_ok m = true) ms /\
     Forall five_rows ms) /\
  (Exists (fun ch => Tab.CHORD_LIB !! ch = None) (Song.chords prog) ->
   Song.allMeasures prog difficulty = None).
Proof.
  unfold Song.allMeasures. split.
  - intros H.
    destruct (generate_from_spec (Song.chords prog ++ Song.chords prog)
                difficulty 0) as (ms & Hms & Hlen & Hall).
    { apply Forall_app. auto. }
    exists ms. split; [exact Hms |].
    split; [rewrite Hlen, length_app; lia |].
    split; [exact Hall |].
    eapply Forall_impl; [exact Hall |]. apply grid_ok_five_rows.
  - intros H. apply generate_from_fails. apply Exists_app. auto.
Qed.

Lemma allMeasures_builds_witness :
  exists ms : timeline,
    Song.allMeasures {| Song.title := "Blue Ridge";
                        Song.chords := ["G"; "Em"; "C"; "D"] |} "medium"
      = Some ms /\
    length ms = 2 * 4 /\
    Forall (fun m => Tab.grid_ok m = true) ms /\
    Forall five_rows ms.
Proof.
  apply (allMeasures_builds
           {| Song.title := "Blue Ridge";
              Song.chords := ["G"; "Em"; "C"; "D"] |} "medium").
  repeat constructor; eexists; reflexivity.
Defined.

Lemma progressions_pools (key difficulty : string)
    (byDifficulty : gmap string (list Song.progression))
    (pool : list Song.progression) (prog : Song.progression) :
  Song.PROGRESSIONS !! key = Some byDifficulty ->
  byDifficulty !! difficulty = Some pool ->
  prog ∈ pool ->
  length pool = 3 /\
  (difficulty = "easy" \/ difficulty = "medium") /\
  length (Song.chords prog) = 4 /\
  Forall (fun ch => is_Some (Tab.CHORD_LIB !! ch)) (Song.chords prog).
Proof.
  unfold Song.PROGRESSIONS. intros Hk Hd Hin.
  repeat (apply lookup_insert_Some in Hk as [[<- <-] | [_ Hk]];
          [repeat (apply lookup_insert_Some in Hd as [[<- <-] | [_ Hd]];
                   [repeat (apply elem_of_cons in Hin as [-> | Hin];
                            [split; [reflexivity |];
                             split; [auto |];
                             split; [reflexivity |];
                             repeat constructor; eexists; reflexivity |]);
                    now apply elem_of_nil in Hin |]);
           now rewrite lookup_empty in Hd |]).
  now rewrite lookup_empty in Hk.
Qed.

(** X11.  Every progression of the table can be played: for each key
    and difficulty of [PROGRESSIONS] the pool has three progressions of
    four chords, all of them chords of [CHORD_LIB], so that the song
    built for it (with the difficulty it is filed under) has eight
    well-formed measures and [generate] never throws on a missing
    chord. *)
Theorem progressions_build_eight_measures (key difficulty : string)
    (byDifficulty : gmap string (list Song.progression))
    (pool : list Song.progression) (prog : Song.progression) :
  Song.PROGRESSIONS !! key = Some byDifficulty ->
  byDifficulty !! difficulty = Some pool ->
  prog ∈ pool ->
  length pool = 3 /\
  exists ms : timeline,
    Song.allMeasures prog difficulty = Some ms /\
    length ms = 8 /\
    Forall (fun m => Tab.grid_ok m = true) ms /\
    Forall five_rows ms.
Proof.
  intros Hk Hd Hin.
  destruct (progressions_pools _ _ _ _ _ Hk Hd Hin) as (Hp & _ & Hlen & Hknown).
  split; [exact Hp |].
  unfold Song.allMeasures.
  destruct (generate_from_spec (Song.chords prog ++ Song.chords prog)
              difficulty 0) as (ms & Hms & Hl & Hall).
  { apply Forall_app. auto. }
  exists ms. split; [exact Hms |].
  split; [rewrite Hl, length_app; lia |].
  split; [exact Hall |].
  eapply Forall_impl; [exact Hall |]. apply grid_ok_five_rows.
Qed.

Lemma progressions_build_eight_measures_witness :
  exists (byDifficulty : gmap string (list Song.progression))
         (pool : list Song.progression),
    Song.PROGRESSIONS !! "D" = Some byDifficulty /\
    byDifficulty !! "medium" = Some pool /\
    length pool = 3 /\
    exists ms : timeline,
      Song.allMeasures {| Song.title := "Forest Song";
                          Song.chords := ["D"; "G"; "C"; "D7"] |} "medium"
        = Some ms /\
      length ms = 8 /\
      Forall (fun m => Tab.grid_ok m = true) ms /\
      Forall five_rows ms.
Proof.
  eexists. eexists.
  split; [vm_compute; reflexivity |].
  split; [vm_compute; reflexivity |].
  eapply (progressions_build_eight_measures "D" "medium").
  - vm_compute. reflexivity.
  - vm_compute. reflexivity.
  - repeat constructor.
Defined.


(* ================================================================== *)
(** * Further properties of the string synthesizer                     *)
(* ================================================================== *)

Lemma mod_shift_ne (n k N : nat) : 0 < k -> k < N -> (n + k) mod N <> n mod N.
Proof.
  intros Hk HN E.
  pose proof (Nat.div_mod_eq (n + k) N) as H1.
  pose proof (Nat.div_mod_eq n N) as H2.
  rewrite E in H1.
  set (q1 := (n + k) / N) in *. set (q2 := n / N) in *.
  set (r := n mod N) in *.
  destruct (Nat.le_gt_cases q1 q2) as [Hle | Hgt].
  - assert (N * q1 <= N * q2) by (apply Nat.mul_le_mono_l; exact Hle). lia.
  - assert (N * (q2 + 1) <= N * q1) by (apply Nat.mul_le_mono_l; lia). lia.
Qed.

Section KarplusStrongMore.

Import KarplusStrong Signal.

Variable random : nat -> Q.
Variables (decay : Q) (bufLen totalSamples : nat).

Local Abbreviation run := (ks_run random decay bufLen totalSamples).

Lemma unit_sample_feedback (a b : sample) :
  (0 <= decay /\ decay <= 1)%Q ->
  unit_sample a -> unit_sample b ->
  unit_sample (smul (smul (Some decay) (Some 0.5%Q)) (sadd a b)).
Proof.
  intros [Hd0 Hd1] (x & -> & Hx0 & Hx1) (y & -> & Hy0 & Hy1).
  eexists. split; [reflexivity |]. split; Lqa.nra.
Qed.

Lemma read_unit (arr : list sample) (i : nat) :
  Forall unit_sample arr -> i < length arr -> unit_sample (read arr (Some i)).
Proof.
  intros Harr Hi. unfold read.
  destruct (lookup_lt_is_Some_2 arr i Hi) as [s Hs].
  pose proof (Forall_lookup_1 _ _ _ _ Harr Hs) as Hu.
  unfold sample in *. rewrite Hs. exact Hu.
Qed.

Lemma ks_run_unit (n : nat) :
  (forall i : nat, 0 <= random i /\ random i < 1)%Q ->
  (0 <= decay /\ decay <= 1)%Q ->
  0 < bufLen ->
  Forall unit_sample (delay (run n)) /\ Forall unit_sample (out (run n)).
Proof.
  intros Hrand Hdecay Hpos. induction n as [|n [IHd IHo]].
  - split; cbn.
    + unfold seed_noise. apply Forall_fmap, Forall_forall. intros i _.
      cbn. eexists. split; [reflexivity |]. destruct (Hrand i). split; lraQ.
    + apply Forall_replicate. eexists. split; [reflexivity |]. split; lraQ.
  - rewrite ks_run_S.
    pose proof (ks_run_ptr random decay bufLen totalSamples n Hpos) as Hptr.
    pose proof (ks_run_delay_length random decay bufLen totalSamples n) as Hlen.
    assert (Hcur : unit_sample (read (delay (run n)) (ptr (run n)))).
    { rewrite Hptr. apply read_unit; [exact IHd |].
      rewrite Hlen. now apply Nat.mod_upper_bound, Nat.neq_0_lt_0. }
    assert (Hnext : unit_sample
              (read (delay (run n)) (next_index (ptr (run n)) bufLen))).
    { rewrite Hptr. cbn.
      destruct (Nat.eqb_spec bufLen 0) as [-> | _]; [lia |].
      apply read_unit; [exact IHd |].
      rewrite Hlen. now apply Nat.mod_upper_bound, Nat.neq_0_lt_0. }
    split; cbn.
    + rewrite Hptr. cbn. apply Forall_insert; [exact IHd |].
      rewrite Hptr in Hcur, Hnext. now apply unit_sample_feedback.
    + apply Forall_insert; [exact IHo | exact Hcur].
Qed.

(** ** The loop as a difference equation *)

Lemma ks_delay_write (n : nat) :
  0 < bufLen ->
  delay (run (S n)) !! (n mod bufLen) =
  Some (smul (smul (Some decay) (Some 0.5%Q))
          (sadd (read (delay (run n)) (Some (n mod bufLen)))
                (read (delay (run n)) (Some (S n mod bufLen))))).
Proof.
  intros Hpos. rewrite ks_run_S. cbn.
  rewrite (ks_run_ptr random decay bufLen totalSamples n Hpos). cbn.
  destruct (Nat.eqb_spec bufLen 0) as [-> | _]; [lia |].
  rewrite Nat.Div0.add_mod_idemp_l, Nat.add_1_r.
  apply list_lookup_insert_eq.
  rewrite ks_run_delay_length. now apply Nat.mod_upper_bound, Nat.neq_0_lt_0.
Qed.

Lemma ks_delay_keep (n i : nat) :
  0 < bufLen -> i <> n mod bufLen ->
  delay (run (S n)) !! i = delay (run n) !! i.
Proof.
  intros Hpos Hne. rewrite ks_run_S. cbn.
  rewrite (ks_run_ptr random decay bufLen totalSamples n Hpos). cbn.
  apply list_lookup_insert_ne. congruence.
Qed.

Lemma ks_delay_stable (n k i : nat) :
  0 < bufLen ->
  (forall j : nat, j < k -> (n + j) mod bufLen <> i) ->
  delay (run (n + k)) !! i = delay (run n) !! i.
Proof.
  intros Hpos. induction k as [|k IH]; intros Hfree.
  - now rewrite Nat.add_0_r.
  - rewrite Nat.add_succ_r, ks_delay_keep; [| exact Hpos |].
    + apply IH. intros j Hj. apply Hfree. lia.
    + intros E. apply (Hfree k); [lia | congruence].
Qed.

Lemma read_lookup (arr : list sample) (i : nat) (s : sample) :
  arr !! i = Some s -> read arr (Some i) = s.
Proof. intros H. unfold read. unfold sample in *. now rewrite H. Qed.

Local Abbreviation ks_sample := (Signal.ks_sample random decay bufLen totalSamples).

Lemma ks_sample_seed (n : nat) :
  n < bufLen -> ks_sample n = Some (random n * 2 - 1)%Q.
Proof.
  intros Hn. unfold Signal.ks_sample. rewrite Nat.mod_small by exact Hn.
  apply read_lookup.
  transitivity (delay (run 0) !! n).
  - apply (ks_delay_stable 0 n n); [lia |].
    intros j Hj. cbn. rewrite Nat.mod_small by lia. lia.
  - apply (seed_noise_lookup random bufLen n Hn).
Qed.

Lemma ks_sample_recurrence (n : nat) :
  2 <= bufLen ->
  ks_sample (n + bufLen) =
  smul (smul (Some decay) (Some 0.5%Q)) (sadd (ks_sample n) (ks_sample (S n))).
Proof.
  intros HN. assert (Hpos : 0 < bufLen) by lia.
  unfold Signal.ks_sample.
  assert (Hmod : (n + bufLen) mod bufLen = n mod bufLen).
  { rewrite <- Nat.Div0.add_mod_idemp_r, Nat.Div0.mod_same, Nat.add_0_r.
    reflexivity. }
  rewrite Hmod.
  assert (Hne : S n mod bufLen <> n mod bufLen).
  { replace (S n) with (n + 1) by lia. apply mod_shift_ne; lia. }
  assert (Hnext : read (delay (run (S n))) (Some (S n mod bufLen))
                  = read (delay (run n)) (Some (S n mod bufLen))).
  { unfold read. pose proof (ks_delay_keep n _ Hpos Hne) as Hk.
    unfold sample in *. now rewrite Hk. }
  rewrite Hnext.
  apply read_lookup.
  replace (n + bufLen) with (S n + (bufLen - 1)) by lia.
  rewrite ks_delay_stable; [now apply ks_delay_write | exact Hpos |].
  intros j Hj. replace (S n + j) with (n + S j) by lia.
  apply mod_shift_ne; lia.
Qed.

End KarplusStrongMore.

Lemma ks_run_out_sample (random : nat -> Q) (decay : Q) (N T n : nat) :
  0 < N -> n < T ->
  KarplusStrong.read
    (KarplusStrong.out (KarplusStrong.ks_run random decay N T T)) (Some n)
  = Signal.ks_sample random decay N T n.
Proof.
  intros HN Hn. unfold KarplusStrong.read at 1.
  pose proof (ks_run_out_lookup random decay N T T n Hn Hn) as Hout.
  rewrite (ks_run_ptr random decay N T n HN) in Hout.
  unfold KarplusStrong.sample in *. rewrite Hout. reflexivity.
Qed.

Lemma ks_run_no_delay_line (random : nat -> Q) (decay : Q) (T n : nat) :
  n < T ->
  KarplusStrong.out (KarplusStrong.ks_run random decay 0 T T) !! n = Some None.
Proof.
  intros Hn.
  pose proof (ks_run_out_lookup random decay 0 T T n Hn Hn) as Hout.
  pose proof (ks_run_delay_length random decay 0 T n) as Hlen.
  destruct (KarplusStrong.delay (KarplusStrong.ks_run random decay 0 T n));
    [| discriminate].
  destruct (KarplusStrong.ptr (KarplusStrong.ks_run random decay 0 T n));
    exact Hout.
Qed.

Lemma pluckString_runs (random : nat -> Q) (sampleRate freq gain when decay : Q) :
  (0 < sampleRate)%Q -> (0 < freq)%Q ->
  (0 <= JS.Math_round (sampleRate / freq))%Z /\
  (0 < JS.Math_ceil (sampleRate * 3))%Z /\
  KarplusStrong.pluckString random sampleRate freq gain when decay =
  Some {| KarplusStrong.p_bufLen := Z.to_nat (JS.Math_round (sampleRate / freq));
          KarplusStrong.p_totalSamples :=
            Z.to_nat (JS.Math_ceil (sampleRate * 3)
                      + JS.Math_round (sampleRate / freq) * 2);
          KarplusStrong.p_seed :=
            KarplusStrong.seed_noise random
              (Z.to_nat (JS.Math_round (sampleRate / freq)));
          KarplusStrong.p_buffer :=
            KarplusStrong.out
              (KarplusStrong.ks_run random decay
                 (Z.to_nat (JS.Math_round (sampleRate / freq)))
                 (Z.to_nat (JS.Math_ceil (sampleRate * 3)
                            + JS.Math_round (sampleRate / freq) * 2))
                 (Z.to_nat (JS.Math_ceil (sampleRate * 3)
                            + JS.Math_round (sampleRate / freq) * 2)));
          KarplusStrong.p_gain := gain;
          KarplusStrong.p_when := when |}.
Proof.
  intros Hsr Hfreq.
  pose proof (Qdiv_pos _ _ Hsr Hfreq) as Hq.
  assert (HN : (0 <= JS.Math_round (sampleRate / freq))%Z).
  { unfold JS.Math_round.
    change 0%Z with (Qfloor 0). apply Qfloor_resp_le. lraQ. }
  assert (HC : (0 < JS.Math_ceil (sampleRate * 3))%Z).
  { unfold JS.Math_ceil.
    pose proof (Qle_ceiling (sampleRate * 3)) as Hceil.
    apply Z.lt_nge. intros Hle.
    assert (inject_Z (Qceiling (sampleRate * 3)) <= inject_Z 0)%Q
      by now rewrite <- Zle_Qle.
    change (inject_Z 0) with 0%Q in *. lraQ. }
  split; [exact HN |]. split; [exact HC |].
  unfold KarplusStrong.pluckString.
  destruct (Qeq_bool freq 0) eqn:E.
  { apply Qeq_bool_iff in E. lraQ. }
  destruct ((JS.Math_round (sampleRate / freq) <? 0)%Z) eqn:E1; [lia |].
  destruct ((JS.Math_ceil (sampleRate * 3)
             + JS.Math_round (sampleRate / freq) * 2 <? 0)%Z) eqn:E2; [lia |].
  reflexivity.
Qed.

Lemma Math_round_ge (x : Q) (k : Z) :
  (inject_Z k - (1 # 2) <= x)%Q -> (k <= JS.Math_round x)%Z.
Proof.
  intros Hx. unfold JS.Math_round.
  rewrite <- (Qfloor_Z k). apply Qfloor_resp_le. lraQ.
Qed.

Lemma Qdiv_lower (a b c : Q) : (0 < b)%Q -> (c * b <= a)%Q -> (c <= a / b)%Q.
Proof. intros Hb H. now apply Qle_shift_div_l. Qed.

Lemma Qdiv_upper (a b c : Q) : (0 < b)%Q -> (a < c * b)%Q -> (a / b < c)%Q.
Proof. intros Hb H. now apply Qlt_shift_div_r. Qed.

(** X12.  Every sample [pluckString] renders is a number between -1 and
    1: for a decay coefficient in [0, 1] and a frequency of at most twice
    the sample rate (so that the delay line is not empty), the feedback
    loop never leaves the range of the seed noise and never reads outside
    the delay line. *)
Theorem pluckString_samples_in_unit_range
    (random : nat -> Q) (sampleRate freq gain when decay : Q) :
  (forall i : nat, 0 <= random i /\ random i < 1)%Q ->
  (0 <= decay /\ decay <= 1)%Q ->
  (0 < freq /\ freq <= 2 * sampleRate)%Q ->
  exists p : KarplusStrong.pluck,
    KarplusStrong.pluckString random sampleRate freq gain when decay = Some p /\
    Forall Signal.unit_sample (KarplusStrong.p_buffer p).
Proof.
  intros Hrand Hdecay [Hfreq Hmax].
  assert (Hsr : (0 < sampleRate)%Q) by lraQ.
  destruct (pluckString_runs random sampleRate freq gain when decay Hsr Hfreq)
    as (HN & HC & Hp).
  eexists. split; [exact Hp |]. cbn [KarplusStrong.p_buffer].
  apply ks_run_unit; [exact Hrand | exact Hdecay |].
  assert (1 <= JS.Math_round (sampleRate / freq))%Z; [| lia].
  apply Math_round_ge. change (inject_Z 1) with 1%Q.
  pose proof (Qdiv_lower sampleRate freq (1 # 2) Hfreq). lraQ.
Qed.

Lemma pluckString_samples_in_unit_range_witness :
  exists p : KarplusStrong.pluck,
    KarplusStrong.pluckString (fun i => (inject_Z (Z.of_nat (i mod 7)) / 7)%Q)
      44100 440 0.45%Q 0.1%Q 0.994%Q = Some p /\
    Forall Signal.unit_sample (KarplusStrong.p_buffer p).
Proof.
  apply (pluckString_samples_in_unit_range
           (fun i => (inject_Z (Z.of_nat (i mod 7)) / 7)%Q)
           44100 440 0.45%Q 0.1%Q 0.994%Q).
  - intros i. split.
    + apply Qle_shift_div_l; [reflexivity |]. rewrite Qmult_0_l.
      change 0%Q with (inject_Z 0). rewrite <- Zle_Qle. lia.
    + apply Qlt_shift_div_r; [reflexivity |]. rewrite Qmult_1_l.
      change 7%Q with (inject_Z 7). rewrite <- Zlt_Qlt.
      pose proof (Nat.mod_upper_bound i 7). lia.
  - split; [discriminate | discriminate].
  - split; [reflexivity | discriminate].
Defined.

(** X13.  The rendered buffer obeys the Karplus-Strong difference
    equation.  With a delay line of [N >= 2] cells, the first [N] samples
    are the seed noise, and every later sample is the damped average of
    the two samples one period before it:
    [y[n + N] = decay * 0.5 * (y[n] + y[n + 1])]. *)
Theorem pluckString_difference_equation
    (random : nat -> Q) (sampleRate freq gain when decay : Q) :
  (0 < freq)%Q ->
  (3 * freq <= 2 * sampleRate)%Q ->
  exists p : KarplusStrong.pluck,
    KarplusStrong.pluckString random sampleRate freq gain when decay = Some p /\
    let N := KarplusStrong.p_bufLen p in
    let y := fun n : nat => KarplusStrong.read (KarplusStrong.p_buffer p) (Some n) in
    2 <= N /\
    (forall n : nat, n < N -> y n = Some (random n * 2 - 1)%Q) /\
    (forall n : nat, n + N < KarplusStrong.p_totalSamples p ->
       y (n + N) =
       KarplusStrong.smul
         (KarplusStrong.smul (Some decay) (Some 0.5%Q))
         (KarplusStrong.sadd (y n) (y (S n)))).
Proof.
  intros Hfreq Hmax.
  assert (Hsr : (0 < sampleRate)%Q) by lraQ.
  destruct (pluckString_runs random sampleRate freq gain when decay Hsr Hfreq)
    as (HN & HC & Hp).
  eexists. split; [exact Hp |].
  cbn [KarplusStrong.p_buffer KarplusStrong.p_bufLen
       KarplusStrong.p_totalSamples]. cbn zeta.
  assert (H2 : (2 <= JS.Math_round (sampleRate / freq))%Z).
  { apply Math_round_ge. change (inject_Z 2) with 2%Q.
    pose proof (Qdiv_lower sampleRate freq (3 # 2) Hfreq). lraQ. }
  generalize dependent (JS.Math_round (sampleRate / freq)).
  generalize dependent (JS.Math_ceil (sampleRate * 3)).
  intros c Hc r _ _ Hr.
  set (N := Z.to_nat r). set (T := Z.to_nat (c + r * 2)).
  assert (HN2 : 2 <= N) by lia.
  assert (HT : 2 * N < T) by lia.
  split; [exact HN2 |]. split.
  - intros n Hn. rewrite ks_run_out_sample by lia.
    now apply ks_sample_seed.
  - intros n Hn. rewrite !ks_run_out_sample by lia.
    now apply ks_sample_recurrence.
Qed.

Lemma pluckString_difference_equation_witness :
  exists p : KarplusStrong.pluck,
    KarplusStrong.pluckString (fun i => (inject_Z (Z.of_nat (i mod 7)) / 7)%Q)
      44100 440 0.45%Q 0.1%Q 0.994%Q = Some p /\
    2 <= KarplusStrong.p_bufLen p /\
    KarplusStrong.read (KarplusStrong.p_buffer p) (Some 1)
    = Some (inject_Z (Z.of_nat (1 mod 7)) / 7 * 2 - 1)%Q.
Proof.
  destruct (pluckString_difference_equation
              (fun i => (inject_Z (Z.of_nat (i mod 7)) / 7)%Q)
              44100 440 0.45%Q 0.1%Q 0.994%Q)
    as (p & Hp & HN & Hseed & _).
  - reflexivity.
  - discriminate.
  - exists p. split; [exact Hp |]. split; [exact HN |].
    apply Hseed. lia.
Defined.

(** X14.  A frequency above twice the sample rate rounds the delay line
    to zero cells.  No error is raised: the seed is empty, the pointer
    becomes [NaN] after the first [% 0], and every sample of the (still
    three seconds long) buffer is [NaN]. *)
Theorem pluckString_empty_delay_line
    (random : nat -> Q) (sampleRate freq gain when decay : Q) :
  (0 < sampleRate)%Q ->
  (2 * sampleRate < freq)%Q ->
  exists p : KarplusStrong.pluck,
    KarplusStrong.pluckString random sampleRate freq gain when decay = Some p /\
    KarplusStrong.p_bufLen p = 0 /\
    KarplusStrong.p_seed p = [] /\
    0 < KarplusStrong.p_totalSamples p /\
    length (KarplusStrong.p_buffer p) = KarplusStrong.p_totalSamples p /\
    Forall (fun s => s = None) (KarplusStrong.p_buffer p).
Proof.
  intros Hsr Hmin.
  assert (Hfreq : (0 < freq)%Q) by lraQ.
  destruct (pluckString_runs random sampleRate freq gain when decay Hsr Hfreq)
    as (HN & HC & Hp).
  eexists. split; [exact Hp |].
  cbn [KarplusStrong.p_buffer KarplusStrong.p_bufLen KarplusStrong.p_seed
       KarplusStrong.p_totalSamples].
  assert (H0 : JS.Math_round (sampleRate / freq) = 0%Z).
  { apply Z.le_antisymm; [| exact HN].
    pose proof (Math_round_nearest (sampleRate / freq)) as [_ Hhi].
    pose proof (Qdiv_upper sampleRate freq (1 # 2) Hfreq).
    assert (inject_Z (JS.Math_round (sampleRate / freq)) < inject_Z 1)%Q
      by (change (inject_Z 1) with 1%Q; lraQ).
    rewrite <- Zlt_Qlt in *. lia. }
  rewrite H0. change (Z.to_nat 0) with 0. rewrite Z.add_0_r.
  split; [reflexivity |]. split; [reflexivity |]. split; [lia |].
  split; [apply ks_run_out_length |].
  apply Forall_lookup_2. intros n s Hs.
  assert (Hn : n < Z.to_nat (JS.Math_ceil (sampleRate * 3))).
  { apply lookup_lt_Some in Hs. now rewrite ks_run_out_length in Hs. }
  rewrite ks_run_no_delay_line in Hs by exact Hn. congruence.
Qed.

Lemma pluckString_empty_delay_line_witness :
  exists p : KarplusStrong.pluck,
    KarplusStrong.pluckString (fun _ => 0.5%Q) 1 3 0.45%Q 0 0.994%Q = Some p /\
    length (KarplusStrong.p_buffer p) = KarplusStrong.p_totalSamples p /\
    Forall (fun s => s = None) (KarplusStrong.p_buffer p).
Proof.
  destruct (pluckString_empty_delay_line (fun _ => 0.5%Q) 1 3 0.45%Q 0 0.994%Q)
    as (p & Hp & _ & _ & _ & Hlen & Hnan).
  - reflexivity.
  - reflexivity.
  - exists p. split; [exact Hp |]. split; [exact Hlen | exact Hnan].
Defined.

(* ================================================================== *)
(** * The earlier engine: what [playSong] schedules                    *)
(* ================================================================== *)

Section LegacySchedule.

Import LegacyPlayer.

Local Abbreviation Normal := Sequencer.Normal.
Local Abbreviation Throw := Sequencer.Throw.
Local Abbreviation time_le :=
  (fun c1 c2 : Sequencer.synth_call =>
     (Sequencer.call_time c1 <= Sequencer.call_time c2)%Q).

Lemma legacy_string_loop_normal (m : Sequencer.measure) (pos : nat) (when : Q)
    (strs : list nat) :
  Forall (fun str => str < length m) strs ->
  fst (string_loop m pos when strs) = Normal.
Proof.
  induction 1 as [|str strs Hstr Hrest IH]; [reflexivity |].
  cbn [string_loop]. destruct (m !! str) as [row|] eqn:E.
  - destruct (string_loop m pos when strs) as [c later]. exact IH.
  - apply lookup_ge_None in E. unfold Sequencer.measure in *. lia.
Qed.

Lemma legacy_string_loop_throw (m : Sequencer.measure) (pos : nat) (when : Q)
    (strs : list nat) :
  Exists (fun str => length m <= str) strs ->
  fst (string_loop m pos when strs) = Throw.
Proof.
  induction 1 as [str strs Hstr | str strs Hrest IH]; cbn [string_loop].
  - destruct (m !! str) as [row|] eqn:E; [| reflexivity].
    apply lookup_lt_Some in E. unfold Sequencer.measure in *. lia.
  - destruct (m !! str) as [row|]; [| reflexivity].
    destruct (string_loop m pos when strs) as [c later]. exact IH.
Qed.

Lemma legacy_string_loop_time (m : Sequencer.measure) (pos : nat) (when : Q)
    (strs : list nat) :
  Forall (fun c => Sequencer.call_time c = when)
         (snd (string_loop m pos when strs)).
Proof.
  induction strs as [|str strs IH]; cbn; [constructor |].
  destruct (m !! str) as [row|]; [| constructor].
  destruct (string_loop m pos when strs) as [c later]. cbn in *.
  apply Forall_app. split; [| exact IH].
  destruct (Sequencer.read_cell (row !! pos)); repeat constructor.
Qed.

(** The calls of a column are those of its sounding cells. *)
Lemma legacy_string_loop_elem (m : Sequencer.measure) (pos : nat) (when : Q)
    (strs : list nat) (c : Sequencer.synth_call) :
  Forall (fun str => str < length m) strs ->
  c ∈ snd (string_loop m pos when strs) <->
  exists (str : nat) (row : list string) (fret : Z),
    str ∈ strs /\ m !! str = Some row /\
    Sequencer.read_cell (row !! pos) = Sequencer.Fret fret /\
    c = pluck_of str fret when.
Proof.
  induction 1 as [|str strs Hstr Hrest IH]; cbn [string_loop].
  - cbn. split.
    + intros H. now apply elem_of_nil in H.
    + intros (str & _ & _ & H & _). now apply elem_of_nil in H.
  - destruct (m !! str) as [row|] eqn:E.
    2:{ apply lookup_ge_None in E. unfold Sequencer.measure in *. lia. }
    destruct (string_loop m pos when strs) as [c0 later]. cbn [snd] in *.
    rewrite elem_of_app, IH. split.
    + intros [Hhere | (s & r & f & Hs & Hr & Hf & ->)].
      * destruct (Sequencer.read_cell (row !! pos)) as [| |fret] eqn:Ecell;
          try (now apply elem_of_nil in Hhere).
        apply list_elem_of_singleton in Hhere as ->.
        exists str, row, fret. repeat split; [left | exact E | exact Ecell].
      * exists s, r, f. repeat split; [now right | exact Hr | exact Hf].
    + intros (s & r & f & Hs & Hr & Hf & ->).
      apply elem_of_cons in Hs as [-> | Hs].
      * left. unfold Sequencer.measure in *. rewrite E in Hr.
        injection Hr as <-. rewrite Hf. now left.
      * right. exists s, r, f. repeat split; assumption.
Qed.

Lemma five_rows_strings (m : Sequencer.measure) :
  Shape.five_rows m -> Forall (fun str => str < length m) (seq 0 5).
Proof. unfold Shape.five_rows. intros H. cbn. repeat constructor; lia. Qed.

(** ** The loop over the positions *)

Lemma legacy_pos_loop_blocks (m : Sequencer.measure) (measureStart six : Q)
    (poss : list nat) :
  Shape.five_rows m ->
  pos_loop m measureStart six poss =
  (Normal,
   concat ((fun pos =>
              snd (string_loop m pos
                     (measureStart + inject_Z (Z.of_nat pos) * six)%Q
                     (seq 0 5))) <$> poss)).
Proof.
  intros Hm. induction poss as [|pos poss IH]; [reflexivity |].
  cbn [pos_loop fmap list_fmap concat].
  pose proof (legacy_string_loop_normal m pos
                (measureStart + inject_Z (Z.of_nat pos) * six)%Q (seq 0 5)
                (five_rows_strings m Hm)) as Hn.
  destruct (string_loop m pos _ (seq 0 5)) as [c cs]. cbn in Hn. subst c.
  rewrite IH. reflexivity.
Qed.

Lemma legacy_pos_loop_throw (m : Sequencer.measure) (measureStart six : Q)
    (pos : nat) (poss : list nat) :
  length m < 5 -> fst (pos_loop m measureStart six (pos :: poss)) = Throw.
Proof.
  intros Hm. cbn [pos_loop].
  assert (Ht : fst (string_loop m pos
                      (measureStart + inject_Z (Z.of_nat pos) * six)%Q
                      (seq 0 5)) = Throw).
  { apply legacy_string_loop_throw. apply Exists_exists.
    exists (length m). split; [apply elem_of_seq; lia | lia]. }
  destruct (string_loop m pos _ (seq 0 5)) as [c cs]. cbn in Ht. now subst c.
Qed.

(** ** The loop over the measures *)

Lemma legacy_measure_loop_blocks (ms : Sequencer.timeline) (m0 : nat)
    (startTime six : Q) :
  Forall Shape.five_rows ms ->
  measure_loop false ms m0 startTime six =
  (Normal,
   concat (imap (fun k measure =>
                   snd (pos_loop measure
                          (startTime + inject_Z (Z.of_nat (m0 + k)) * 16 * six)%Q
                          six (seq 0 16)))
                ms)).
Proof.
  intros Hms. revert m0. induction Hms as [|m ms Hm Hms IH]; intros m0;
    [reflexivity |].
  cbn [measure_loop imap concat]. rewrite Nat.add_0_r.
  pose proof (f_equal fst (legacy_pos_loop_blocks m
                (startTime + inject_Z (Z.of_nat m0) * 16 * six)%Q six
                (seq 0 16) Hm)) as Hn.
  destruct (pos_loop m _ six (seq 0 16)) as [c cs]. cbn [fst snd] in *.
  subst c. rewrite (IH (S m0)).
  apply (f_equal (fun l => (Normal, cs ++ concat l))).
  apply imap_ext. intros k x _. cbn beta. unfold compose.
  now rewrite Nat.add_succ_r.
Qed.

Lemma legacy_measure_loop_throw (ms : Sequencer.timeline) (m0 : nat)
    (startTime six : Q) :
  Exists (fun m => length m < 5) ms ->
  fst (measure_loop false ms m0 startTime six) = Throw.
Proof.
  intros Hex. revert m0. induction ms as [|m ms IH]; intros m0.
  - now apply Exists_nil in Hex.
  - cbn [measure_loop].
    destruct (Nat.lt_ge_cases (length m) 5) as [Hshort | Hlong].
    + pose proof (legacy_pos_loop_throw m
                    (startTime + inject_Z (Z.of_nat m0) * 16 * six)%Q six 0
                    (seq 1 15) Hshort) as Ht.
      change (0 :: seq 1 15) with (seq 0 16) in Ht.
      destruct (pos_loop m _ six (seq 0 16)) as [c cs]. cbn in Ht. now subst c.
    + rewrite (legacy_pos_loop_blocks m _ six (seq 0 16) Hlong).
      apply Exists_cons in Hex as [Hm | Hrest]; [lia |].
      specialize (IH Hrest (S m0)).
      destruct (measure_loop false ms (S m0) startTime six) as [c later].
      exact IH.
Qed.

(** Membership in the schedule of a whole song. *)
Lemma legacy_measure_loop_elem (ms : Sequencer.timeline) (startTime bpm : Q)
    (c : Sequencer.synth_call) :
  Forall Shape.five_rows ms ->
  c ∈ snd (measure_loop false ms 0 startTime (60 / bpm / 4)%Q) <->
  exists (m : nat) (measure : Sequencer.measure) (pos str : nat)
         (row : list string) (fret : Z),
    ms !! m = Some measure /\ pos < 16 /\ str < 5 /\
    measure !! str = Some row /\
    Sequencer.read_cell (row !! pos) = Sequencer.Fret fret /\
    c = pluck_of str fret (cell_time startTime bpm m pos).
Proof.
  intros Hms. rewrite (legacy_measure_loop_blocks ms 0 _ _ Hms). cbn [snd].
  split.
  - intros Hc. apply elem_of_concat in Hc as (block & Hc & Hblock).
    apply elem_of_lookup_imap_1 in Hblock as (m & measure & -> & Hm).
    assert (H5 : Shape.five_rows measure)
      by (eapply Forall_lookup_1; eauto).
    rewrite (legacy_pos_loop_blocks measure _ _ _ H5) in Hc. cbn [snd] in Hc.
    apply elem_of_concat in Hc as (col & Hc & Hcol).
    apply list_elem_of_fmap in Hcol as (pos & -> & Hpos).
    apply elem_of_seq in Hpos.
    apply legacy_string_loop_elem in Hc as (str & row & fret & Hs & Hr & Hf & ->);
      [| now apply five_rows_strings].
    apply elem_of_seq in Hs.
    exists m, measure, pos, str, row, fret.
    repeat split; try assumption; lia.
  - intros (m & measure & pos & str & row & fret & Hm & Hpos & Hstr & Hr & Hf & ->).
    assert (H5 : Shape.five_rows measure)
      by (eapply Forall_lookup_1; eauto).
    apply list_elem_of_In, in_concat.
    eexists. split.
    + apply list_elem_of_In. eapply elem_of_lookup_imap_2. exact Hm.
    + rewrite (legacy_pos_loop_blocks measure _ _ _ H5). cbn [snd].
      apply in_concat. eexists. split.
      * apply list_elem_of_In, list_elem_of_fmap. exists pos.
        split; [reflexivity | apply elem_of_seq; lia].
      * apply list_elem_of_In.
        apply legacy_string_loop_elem; [now apply five_rows_strings |].
        exists str, row, fret.
        repeat split; try assumption; apply elem_of_seq; lia.
Qed.


(** ** Time order *)

Lemma concat_sorted (blocks : list (list Sequencer.synth_call))
    (lo hi : nat -> Q) :
  (forall (i : nat) (b : list Sequencer.synth_call),
     blocks !! i = Some b ->
     StronglySorted time_le b /\
     Forall (fun c => (lo i <= Sequencer.call_time c /\
                       Sequencer.call_time c <= hi i)%Q) b) ->
  (forall i j : nat, i < j -> (hi i <= lo j)%Q) ->
  StronglySorted time_le (concat blocks).
Proof.
  revert lo hi. induction blocks as [|b bs IH]; intros lo hi Hb Hmono;
    [constructor |].
  cbn [concat]. destruct (Hb 0 b eq_refl) as [Hs Hbound].
  apply StronglySorted_app_2.
  - intros c1 c2 H1 H2. apply elem_of_concat in H2 as (l & H2 & Hl).
    apply list_elem_of_lookup in Hl as [j Hj].
    destruct (Hb (S j) l Hj) as [_ Hbl].
    rewrite Forall_forall in Hbound. rewrite Forall_forall in Hbl.
    destruct (Hbound c1 H1) as [_ Hup]. destruct (Hbl c2 H2) as [Hlow _].
    pose proof (Hmono 0 (S j) (Nat.lt_0_succ j)). cbn beta. lraQ.
  - exact Hs.
  - apply (IH (fun i => lo (S i)) (fun i => hi (S i))).
    + intros i l Hl. exact (Hb (S i) l Hl).
    + intros i j Hij. apply Hmono. lia.
Qed.

Lemma legacy_pos_loop_sorted (m : Sequencer.measure) (measureStart six : Q) :
  Shape.five_rows m -> (0 < six)%Q ->
  StronglySorted time_le (snd (pos_loop m measureStart six (seq 0 16))) /\
  Forall (fun c => (measureStart <= Sequencer.call_time c /\
                    Sequencer.call_time c <= measureStart + 15 * six)%Q)
         (snd (pos_loop m measureStart six (seq 0 16))).
Proof.
  intros Hm Hsix. rewrite (legacy_pos_loop_blocks m _ _ _ Hm). cbn [snd].
  assert (Hblock : forall (i : nat) (b : list Sequencer.synth_call),
    ((fun pos =>
        snd (string_loop m pos
               (measureStart + inject_Z (Z.of_nat pos) * six)%Q (seq 0 5)))
       <$> seq 0 16) !! i = Some b ->
    i < 16 /\
    Forall (fun c => Sequencer.call_time c
                     = Session.grid_time measureStart six i) b).
  { intros i b Hb. apply list_lookup_fmap_Some in Hb as (pos & -> & E).
    apply lookup_seq in E as [-> Hi]. rewrite Nat.add_0_l.
    split; [exact Hi | apply legacy_string_loop_time]. }
  split.
  - apply (concat_sorted _ (Session.grid_time measureStart six)
                           (Session.grid_time measureStart six)).
    + intros i b Hb. destruct (Hblock i b Hb) as [_ Ht]. split.
      * eapply same_time_sorted; exact Ht.
      * eapply Forall_impl; [exact Ht |]. intros c ->. split; apply Qle_refl.
    + intros i j Hij. apply grid_time_le; [exact Hsix | lia].
  - apply Forall_forall. intros c Hc.
    apply elem_of_concat in Hc as (b & Hc & Hb).
    apply list_elem_of_lookup in Hb as [i Hb].
    destruct (Hblock i b Hb) as [Hi Ht]. rewrite Forall_forall in Ht.
    rewrite (Ht c Hc).
    pose proof (grid_time_le measureStart six 0 i Hsix
                  ltac:(lia)) as H0.
    pose proof (grid_time_le measureStart six i 15 Hsix
                  ltac:(lia)) as H15.
    unfold Session.grid_time in H0 at 1. unfold Session.grid_time in H15 at 2.
    change (inject_Z (Z.of_nat 0)) with 0%Q in H0.
    change (inject_Z (Z.of_nat 15)) with 15%Q in H15.
    split; lraQ.
Qed.

Lemma legacy_measure_loop_sorted (ms : Sequencer.timeline)
    (startTime six : Q) :
  Forall Shape.five_rows ms -> (0 < six)%Q ->
  StronglySorted time_le (snd (measure_loop false ms 0 startTime six)) /\
  Forall (fun c => (startTime <= Sequencer.call_time c)%Q)
         (snd (measure_loop false ms 0 startTime six)).
Proof.
  intros Hms Hsix. rewrite (legacy_measure_loop_blocks ms 0 _ _ Hms).
  cbn [snd].
  set (start := fun k : nat =>
                  (startTime + inject_Z (Z.of_nat k) * 16 * six)%Q).
  assert (Hstart : forall i j : nat, i < j ->
                     (start i + 15 * six <= start j)%Q).
  { intros i j Hij. unfold start.
    assert (Hz : (inject_Z (Z.of_nat i) + 1 <= inject_Z (Z.of_nat j))%Q).
    { change 1%Q with (inject_Z 1). rewrite <- inject_Z_plus, <- Zle_Qle. lia. }
    assert (0 <= (inject_Z (Z.of_nat j) - inject_Z (Z.of_nat i) - 1) * six)%Q
      by (apply Qmult_le_0_compat; lraQ).
    lraQ. }
  assert (Hstart0 : forall k : nat, (startTime <= start k)%Q).
  { intros k. unfold start.
    assert (0 <= inject_Z (Z.of_nat k))%Q
      by (change 0%Q with (inject_Z 0); rewrite <- Zle_Qle; lia).
    assert (0 <= inject_Z (Z.of_nat k) * six)%Q
      by (apply Qmult_le_0_compat; lraQ).
    lraQ. }
  assert (Hblock : forall (k : nat) (b : list Sequencer.synth_call),
    imap (fun k measure =>
            snd (pos_loop measure
                   (startTime + inject_Z (Z.of_nat (0 + k)) * 16 * six)%Q
                   six (seq 0 16))) ms !! k = Some b ->
    StronglySorted time_le b /\
    Forall (fun c => (start k <= Sequencer.call_time c /\
                      Sequencer.call_time c <= start k + 15 * six)%Q) b).
  { intros k b Hb. apply list_lookup_imap_Some in Hb as (measure & E & ->).
    rewrite Nat.add_0_l.
    apply legacy_pos_loop_sorted; [| exact Hsix].
    eapply Forall_lookup_1; eauto. }
  split.
  - apply (concat_sorted _ start (fun k => (start k + 15 * six)%Q)).
    + exact Hblock.
    + exact Hstart.
  - apply Forall_forall. intros c Hc.
    apply elem_of_concat in Hc as (b & Hc & Hb).
    apply list_elem_of_lookup in Hb as [k Hb].
    destruct (Hblock k b Hb) as [_ Hbound]. rewrite Forall_forall in Hbound.
    destruct (Hbound c Hc) as [Hlow _]. pose proof (Hstart0 k). lraQ.
Qed.

(** ** [playSong] as a whole *)

Lemma legacy_playSong_eq (allMeasures : Sequencer.timeline) (bpm : Q)
    (onStop : option Sequencer.callback) (p : player)
    (c : Sequencer.completion) (calls : list Sequencer.synth_call) :
  measure_loop false allMeasures 0 (currentTime (begin_song p) + 0.05)%Q
    (60 / bpm / 4)%Q = (c, calls) ->
  playSong allMeasures bpm onStop p =
  match c with
  | Sequencer.Throw => (Throw, push_sources calls (begin_song p))
  | Sequencer.Normal =>
      (Normal,
       arm_end_timer
         (msUntilEnd (length allMeasures) (60 / bpm / 4)%Q
            (currentTime (begin_song p) + 0.05)%Q
            (currentTime (begin_song p)))
         onStop (push_sources calls (begin_song p)))
  end.
Proof. intros H. unfold playSong. cbv zeta. rewrite H. reflexivity. Qed.

Lemma src_call_sources_of (from : nat) (calls : list Sequencer.synth_call) :
  src_call <$> sources_of from calls = calls.
Proof.
  unfold sources_of. revert from.
  induction calls as [|c calls IH]; intros from; [reflexivity |].
  cbn. f_equal. rewrite <- (IH (S from)) at 2. f_equal.
  apply imap_ext. intros i x _. cbn. f_equal. lia.
Qed.

Lemma created_begin_song (p : player) : created (begin_song p) = created p.
Proof.
  unfold begin_song, getAudioCtx, stopSong.
  destruct (Legacy.isPlaying (eng p)); cbn;
    match goal with |- context [match ?x with _ => _ end] => destruct x end;
    reflexivity.
Qed.

Lemma new_sources_playSong (allMeasures : Sequencer.timeline) (bpm : Q)
    (onStop : option Sequencer.callback) (p : player) :
  src_call <$> new_sources p (snd (playSong allMeasures bpm onStop p)) =
  snd (measure_loop false allMeasures 0 (currentTime (begin_song p) + 0.05)%Q
         (60 / bpm / 4)%Q) /\
  Legacy.activeSrcs (eng (snd (playSong allMeasures bpm onStop p))) =
  src_id <$> new_sources p (snd (playSong allMeasures bpm onStop p)) /\
  created (snd (playSong allMeasures bpm onStop p)) =
  created p ++ new_sources p (snd (playSong allMeasures bpm onStop p)) /\
  currentTime (snd (playSong allMeasures bpm onStop p)) =
  currentTime (begin_song p) /\
  Legacy.isPlaying (eng (snd (playSong allMeasures bpm onStop p))) = true.
Proof.
  destruct (measure_loop false allMeasures 0
              (currentTime (begin_song p) + 0.05)%Q (60 / bpm / 4)%Q)
    as [c calls] eqn:E.
  rewrite (legacy_playSong_eq _ _ onStop _ _ _ E).
  assert (Hnew : forall l : list source,
            drop (length (created p)) (created (begin_song p) ++ l) = l).
  { intros l. rewrite created_begin_song. apply drop_app_length. }
  unfold new_sources.
  destruct c; cbn -[begin_song sources_of]; rewrite Hnew;
    rewrite src_call_sources_of, created_begin_song; repeat split.
Qed.

End LegacySchedule.

(** X15.  The earlier engine schedules the whole song at once: for a
    song the synthesizers accept (measures of at least five rows with
    plain cells and non-negative frets, a positive tempo) [playSong]
    completes, and the [pluckString] calls it makes are exactly those
    of the sounding cells (a fret number or the hammer-on marker) of
    all measures, each at the time of its position on the sixteenth
    grid that starts 0.05 s after the call.  The [stopFlag] test at the
    head of the measure loop never ends the loop early. *)
Theorem legacy_playSong_schedules_every_cell
    (allMeasures : Sequencer.timeline) (bpm : Q)
    (onStop : option Sequencer.callback) (p : LegacyPlayer.player) :
  Forall (fun m => Score.measure_ok m = true) allMeasures ->
  (0 < bpm)%Q ->
  exists p' : LegacyPlayer.player,
    LegacyPlayer.playSong allMeasures bpm onStop p = (Sequencer.Normal, p') /\
    Legacy.isPlaying (LegacyPlayer.eng p') = true /\
    LegacyPlayer.created p' =
      LegacyPlayer.created p ++ LegacyPlayer.new_sources p p' /\
    Legacy.activeSrcs (LegacyPlayer.eng p') =
      LegacyPlayer.src_id <$> LegacyPlayer.new_sources p p' /\
    forall c : Sequencer.synth_call,
      c ∈ (LegacyPlayer.src_call <$> LegacyPlayer.new_sources p p') <->
      exists (m : nat) (measure : Sequencer.measure) (pos str : nat)
             (row : list string) (fret : Z),
        allMeasures !! m = Some measure /\ pos < 16 /\ str < 5 /\
        measure !! str = Some row /\
        Sequencer.read_cell (row !! pos) = Sequencer.Fret fret /\
        c = LegacyPlayer.pluck_of str fret
              (LegacyPlayer.cell_time (LegacyPlayer.currentTime p' + 0.05)
                 bpm m pos).
Proof.
  intros Hok _.
  assert (Hms : Forall Shape.five_rows allMeasures).
  { eapply Forall_impl; [exact Hok |]. apply measure_ok_five_rows. }
  destruct (new_sources_playSong allMeasures bpm onStop p)
    as (Hcalls & Hactive & Hcreated & Hnow & Hplaying).
  pose proof (legacy_measure_loop_blocks allMeasures 0
                (LegacyPlayer.currentTime (LegacyPlayer.begin_song p) + 0.05)%Q
                (60 / bpm / 4)%Q Hms) as Hloop.
  pose proof (legacy_playSong_eq allMeasures bpm onStop p _ _ Hloop) as Heq.
  cbv iota in Heq. rewrite Heq in *. cbn [snd] in *.
  eexists. split; [reflexivity |].
  split; [exact Hplaying |]. split; [exact Hcreated |].
  split; [exact Hactive |].
  intros c. rewrite Hcalls, Hnow.
  now apply legacy_measure_loop_elem.
Qed.

Lemma legacy_playSong_schedules_every_cell_witness :
  exists p' : LegacyPlayer.player,
    LegacyPlayer.playSong [Scenario.g_easy] 120 (Some 7) LegacyPlayer.init
      = (Sequencer.Normal, p') /\
    Legacy.isPlaying (LegacyPlayer.eng p') = true.
Proof.
  destruct (legacy_playSong_schedules_every_cell [Scenario.g_easy] 120
              (Some 7) LegacyPlayer.init)
    as (p' & Hp & Hplaying & _).
  - repeat constructor.
  - reflexivity.
  - exists p'. split; [exact Hp | exact Hplaying].
Defined.

(** X16.  At a positive tempo the calls of the earlier engine are made
    in time order, none of them before the start of the song 0.05 s
    after the call of [playSong]. *)
Theorem legacy_playSong_times_ordered
    (allMeasures : Sequencer.timeline) (bpm : Q)
    (onStop : option Sequencer.callback) (p : LegacyPlayer.player) :
  Forall Shape.five_rows allMeasures ->
  (0 < bpm)%Q ->
  let p' := snd (LegacyPlayer.playSong allMeasures bpm onStop p) in
  let calls := LegacyPlayer.src_call <$> LegacyPlayer.new_sources p p' in
  StronglySorted
    (fun c1 c2 => (Sequencer.call_time c1 <= Sequencer.call_time c2)%Q) calls /\
  Forall (fun c => (LegacyPlayer.currentTime p' + 0.05
                    <= Sequencer.call_time c)%Q) calls.
Proof.
  intros Hms Hbpm p' calls. subst p' calls.
  destruct (new_sources_playSong allMeasures bpm onStop p)
    as (Hcalls & _ & _ & Hnow & _).
  rewrite Hcalls, Hnow.
  apply legacy_measure_loop_sorted; [exact Hms |].
  assert (0 < 60 / bpm)%Q by (apply Qdiv_pos; [reflexivity | exact Hbpm]).
  apply Qdiv_pos; [assumption | reflexivity].
Qed.

Lemma legacy_playSong_times_ordered_witness :
  Forall (fun c => (0.05 <= Sequencer.call_time c)%Q)
    (LegacyPlayer.src_call <$>
       LegacyPlayer.new_sources LegacyPlayer.init
         (snd (LegacyPlayer.playSong [Scenario.g_easy] 120 (Some 7)
                 LegacyPlayer.init))).
Proof.
  destruct (legacy_playSong_times_ordered [Scenario.g_easy] 120 (Some 7)
              LegacyPlayer.init) as [_ H].
  - repeat constructor; unfold Shape.five_rows; cbn; lia.
  - reflexivity.
  - eapply Forall_impl; [exact H |]. intros c Hc.
    change (LegacyPlayer.currentTime _) with 0%Q in Hc.
    cbv beta in Hc |- *. lraQ.
Defined.

(* ================================================================== *)
(** * The earlier engine: the end of a song                            *)
(* ================================================================== *)

Section LegacyTimers.

Import LegacyPlayer.

Lemma legacy_run_snoc (p : player) (inputs : list input) (i : input) :
  run p (inputs ++ [i]) = step (run p inputs) i.
Proof. unfold run. now rewrite fold_left_app. Qed.

Lemma legacy_clear_own (id : nat) : Legacy.clearTimeout (Some id) [id] = [].
Proof. cbn. now rewrite Nat.eqb_refl. Qed.

Lemma find_fresh (hs : list handler) (h : handler) (n : nat) :
  Forall (fun h => h_id h < n) hs -> h_id h = n ->
  List.find (fun h => h_id h =? n) (hs ++ [h]) = Some h.
Proof.
  intros Hhs Hh. induction Hhs as [|x hs Hx Hhs IH]; cbn.
  - now rewrite Hh, Nat.eqb_refl.
  - destruct (Nat.eqb_spec (h_id x) n); [lia | exact IH].
Qed.

Lemma live_session_passive (inputs : list input) (i : input)
    (onStop : option Sequencer.callback) :
  passive i -> live_session inputs onStop ->
  live_session (inputs ++ [i]) onStop.
Proof.
  intros Hi (before & m & bpm & after & -> & Hafter).
  exists before, m, bpm, (after ++ [i]). split.
  - now rewrite <- app_assoc.
  - apply Forall_app. split; [exact Hafter | now constructor].
Qed.

(** After [stopSong] nothing is pending. *)
Lemma legacy_stopSong_quiet (p : player) :
  timer_inv p ->
  Legacy.timers (eng (stopSong p)) = [] /\
  Legacy.activeTimer (eng (stopSong p)) = None /\
  Legacy.isPlaying (eng (stopSong p)) = false /\
  handlers (stopSong p) = handlers p /\
  nextTimer (stopSong p) = nextTimer p /\
  fired (stopSong p) = fired p.
Proof.
  intros [_ Ht]. unfold stopSong, Legacy.stopSong. cbn.
  destruct (Legacy.activeTimer (eng p)) as [id|].
  - destruct Ht as (-> & _ & _). rewrite legacy_clear_own. repeat split.
  - rewrite Ht. repeat split.
Qed.

Lemma legacy_begin_song_quiet (p : player) :
  timer_inv p ->
  Legacy.timers (eng (begin_song p)) = [] /\
  handlers (begin_song p) = handlers p /\
  nextTimer (begin_song p) = nextTimer p /\
  clock (begin_song p) = clock p /\
  fired (begin_song p) = fired p.
Proof.
  intros Hinv. unfold begin_song.
  assert (Hctx : forall q : player,
            eng (getAudioCtx q) = eng q /\
            handlers (getAudioCtx q) = handlers q /\
            nextTimer (getAudioCtx q) = nextTimer q /\
            clock (getAudioCtx q) = clock q /\
            fired (getAudioCtx q) = fired q).
  { intros q. unfold getAudioCtx. destruct (audioCtx q); repeat split. }
  destruct (Legacy.isPlaying (eng p)) eqn:Eplay.
  - destruct (legacy_stopSong_quiet p Hinv) as (H1 & _ & _ & H2 & H3 & H4).
    destruct (Hctx (stopSong p)) as (-> & -> & -> & -> & ->).
    repeat split; assumption.
  - destruct (Hctx p) as (-> & -> & -> & -> & ->).
    repeat split. destruct Hinv as [_ Ht].
    destruct (Legacy.activeTimer (eng p)) as [id|]; [| exact Ht].
    destruct Ht as (_ & Hp & _). congruence.
Qed.

(** [playSong] by its outcome. *)
Lemma legacy_playSong_outcome (allMeasures : Sequencer.timeline) (bpm : Q)
    (onStop : option Sequencer.callback) (p : player) :
  timer_inv p ->
  let p' := snd (playSong allMeasures bpm onStop p) in
  fired p' = fired p /\
  Legacy.isPlaying (eng p') = true /\
  match fst (playSong allMeasures bpm onStop p) with
  | Sequencer.Throw =>
      Legacy.timers (eng p') = [] /\
      Legacy.activeTimer (eng p') = None /\
      handlers p' = handlers p /\
      nextTimer p' = nextTimer p
  | Sequencer.Normal =>
      Legacy.timers (eng p') = [nextTimer p] /\
      Legacy.activeTimer (eng p') = Some (nextTimer p) /\
      Legacy.activeSrcs (eng p') = src_id <$> new_sources p p' /\
      clock p' = clock p /\
      nextTimer p' = S (nextTimer p) /\
      exists h : handler,
        handlers p' = handlers p ++ [h] /\
        h_id h = nextTimer p /\
        h_onStop h = onStop /\
        h_due h =
          (clock p +
           inject_Z (Z.max 0 (Qfloor
             (msUntilEnd (length allMeasures) (60 / bpm / 4)%Q
                (currentTime (begin_song p) + 0.05)%Q
                (currentTime (begin_song p))))))%Q
  end.
Proof.
  intros Hinv p'. subst p'.
  destruct (new_sources_playSong allMeasures bpm onStop p)
    as (_ & Hactive & _ & _ & Hplaying).
  destruct (legacy_begin_song_quiet p Hinv) as (Ht & Hh & Hn & Hc & Hf).
  destruct (measure_loop false allMeasures 0
              (currentTime (begin_song p) + 0.05)%Q (60 / bpm / 4)%Q)
    as [c calls] eqn:E.
  rewrite (legacy_playSong_eq _ _ onStop _ _ _ E) in *.
  generalize dependent (begin_song p). intros q Hactive Hplaying Ht Hh Hn Hc Hf E.
  destruct c; cbn [fst snd] in *.
  - split; [exact Hf |]. split; [exact Hplaying |].
    cbn. rewrite Ht, Hn, Hc, Hh.
    split; [reflexivity |]. split; [reflexivity |].
    split; [exact Hactive |]. split; [reflexivity |]. split; [reflexivity |].
    eexists. split; [reflexivity |]. cbn. repeat split.
  - split; [exact Hf |]. split; [exact Hplaying |].
    cbn. rewrite Ht, Hn, Hh. repeat split.
Qed.

Lemma legacy_playSong_inv (allMeasures : Sequencer.timeline) (bpm : Q)
    (onStop : option Sequencer.callback) (inputs : list input) (p : player) :
  timer_inv p ->
  session_inv (inputs ++ [PlaySong allMeasures bpm onStop])
              (snd (playSong allMeasures bpm onStop p)).
Proof.
  intros Hinv.
  destruct (legacy_playSong_outcome allMeasures bpm onStop p Hinv)
    as (_ & Hplaying & Hcase).
  destruct Hinv as [Hhs _].
  destruct (fst (playSong allMeasures bpm onStop p)).
  - destruct Hcase as (Ht & Ha & _ & _ & Hn & h & Hh & Hid & Hcb & _).
    assert (Hfind : List.find (fun x => h_id x =? nextTimer p)
                      (handlers (snd (playSong allMeasures bpm onStop p)))
                    = Some h)
      by (rewrite Hh; now apply find_fresh).
    split.
    + split.
      * rewrite Hh, Hn. apply Forall_app. split.
        -- eapply Forall_impl; [exact Hhs |]. cbn. intros; lia.
        -- constructor; [lia | constructor].
      * rewrite Ha. split; [exact Ht |]. split; [exact Hplaying |].
        rewrite Hfind. now eexists.
    + intros id h' Hid' Hfind'. rewrite Ha in Hid'. injection Hid' as <-.
      rewrite Hfind in Hfind'. injection Hfind' as <-. rewrite Hcb.
      exists inputs, allMeasures, bpm, []. split; [reflexivity | constructor].
  - destruct Hcase as (Ht & Ha & Hh & Hn). split.
    + split; [now rewrite Hh, Hn |]. now rewrite Ha.
    + intros id h Hid. rewrite Ha in Hid. discriminate.
Qed.

(** [fire] by cases. *)
Lemma legacy_fire_cases (id : nat) (p : player) :
  timer_inv p ->
  fire id p = p \/
  exists h : handler,
    Legacy.activeTimer (eng p) = Some id /\
    List.find (fun h => h_id h =? id) (handlers p) = Some h /\
    Qle_bool (h_due h) (clock p) = true /\
    fire id p = on_end (h_onStop h) (unqueue id p) /\
    Legacy.timers (eng (fire id p)) = [] /\
    Legacy.activeTimer (eng (fire id p)) = None /\
    Legacy.isPlaying (eng (fire id p)) = false /\
    Legacy.activeSrcs (eng (fire id p)) = [] /\
    handlers (fire id p) = handlers p /\
    nextTimer (fire id p) = nextTimer p /\
    fired (fire id p) = fired p ++ option_list (h_onStop h).
Proof.
  intros [_ Ht]. unfold fire.
  destruct (pending id p) eqn:Ep; [| now left].
  destruct (List.find (fun h => h_id h =? id) (handlers p)) as [h|] eqn:Ef;
    [| now left].
  destruct (Qle_bool (h_due h) (clock p)) eqn:Ed; [| now left].
  right. exists h.
  unfold pending in Ep.
  destruct (Legacy.activeTimer (eng p)) as [id'|].
  2:{ rewrite Ht in Ep. discriminate. }
  destruct Ht as (Ht & _ & _). rewrite Ht in Ep. cbn in Ep.
  rewrite orb_false_r in Ep. apply Nat.eqb_eq in Ep. subst id'.
  split; [reflexivity |]. split; [reflexivity |]. split; [exact Ed |].
  split; [reflexivity |].
  unfold on_end, unqueue.
  destruct (h_onStop h); cbn -[Legacy.clearTimeout];
    rewrite Ht, legacy_clear_own; repeat split; now rewrite ?app_nil_r.
Qed.

Lemma legacy_step_inv (inputs : list input) (i : input) (p : player) :
  session_inv inputs p -> session_inv (inputs ++ [i]) (step p i).
Proof.
  intros [Hinv Hlive]. destruct i as [m bpm onStop | | ms sec | id]; cbn [step].
  - now apply legacy_playSong_inv.
  - destruct (legacy_stopSong_quiet p Hinv) as (Ht & Ha & _ & Hh & Hn & _).
    split.
    + split; [rewrite Hh, Hn; apply Hinv | now rewrite Ha].
    + intros id h Hid. rewrite Ha in Hid. discriminate.
  - assert (He : eng (elapse ms sec p) = eng p /\
                 handlers (elapse ms sec p) = handlers p /\
                 nextTimer (elapse ms sec p) = nextTimer p).
    { unfold elapse. destruct (Qle_bool 0 ms), (Qle_bool 0 sec); repeat split. }
    destruct He as (He & Hh & Hn). split.
    + unfold timer_inv. rewrite He, Hh, Hn. exact Hinv.
    + intros id h. rewrite He, Hh. intros Hid Hfind.
      apply live_session_passive; [exact I | eauto].
  - destruct (legacy_fire_cases id p Hinv)
      as [-> | (h & _ & _ & _ & _ & Ht & Ha & _ & _ & Hh & Hn & _)].
    + split; [exact Hinv |]. intros id' h Hid Hfind.
      apply live_session_passive; [exact I | eauto].
    + split.
      * split; [rewrite Hh, Hn; apply Hinv | now rewrite Ha].
      * intros id' h' Hid. rewrite Ha in Hid. discriminate.
Qed.

Lemma legacy_init_inv : session_inv [] init.
Proof.
  split.
  - split; [constructor | reflexivity].
  - intros id h Hid. discriminate.
Qed.

Lemma legacy_reach_inv (inputs : list input) :
  session_inv inputs (run init inputs).
Proof.
  induction inputs as [|i inputs IH] using rev_ind.
  - exact legacy_init_inv.
  - rewrite legacy_run_snoc. now apply legacy_step_inv.
Qed.

(** Nothing moves an engine that is stuck but a call of its interface. *)
Lemma legacy_stuck_step (callbacks : list Sequencer.callback) (p : player)
    (i : input) :
  passive i -> stuck callbacks p -> stuck callbacks (step p i).
Proof.
  intros Hi (Hp & Ht & Hf). destruct i as [m bpm onStop | | ms sec | id];
    try contradiction; cbn [step].
  - unfold stuck, elapse.
    destruct (Qle_bool 0 ms), (Qle_bool 0 sec); cbn; repeat split; assumption.
  - unfold fire, pending. rewrite Ht. cbn. repeat split; assumption.
Qed.

Lemma legacy_stuck_run (callbacks : list Sequencer.callback)
    (later : list input) (p : player) :
  Forall passive later -> stuck callbacks p -> stuck callbacks (run p later).
Proof.
  intros Hlater. revert p. induction Hlater as [|i later Hi Hlater IH];
    intros p Hp; [exact Hp |].
  cbn. apply IH. now apply legacy_stuck_step.
Qed.






End LegacyTimers.

(** X17.  In the earlier engine a completion callback is only ever
    invoked for the live session: whenever the event loop runs a timer
    and a callback is invoked, it is the [onStop] of the latest
    [playSong], and neither [stopSong] nor another [playSong] has been
    called since.  The engine is then idle, with no timer left.  So
    [stopSong] never invokes [onStop], and a stopped or replaced session
    never reports its end. *)
Theorem legacy_callback_belongs_to_live_session
    (inputs : list LegacyPlayer.input) (id : nat) :
  let p := LegacyPlayer.run LegacyPlayer.init inputs in
  LegacyPlayer.fired (LegacyPlayer.fire id p) <> LegacyPlayer.fired p ->
  exists cb : Sequencer.callback,
    LegacyPlayer.live_session inputs (Some cb) /\
    LegacyPlayer.fired (LegacyPlayer.fire id p) = LegacyPlayer.fired p ++ [cb] /\
    Legacy.isPlaying (LegacyPlayer.eng (LegacyPlayer.fire id p)) = false /\
    Legacy.timers (LegacyPlayer.eng (LegacyPlayer.fire id p)) = [].
Proof.
  intros p Hfired. subst p.
  destruct (legacy_reach_inv inputs) as [Hinv Hlive].
  destruct (legacy_fire_cases id _ Hinv)
    as [Hsame | (h & Ha & Hfind & _ & _ & Ht & _ & Hp & _ & _ & _ & Hf)].
  - rewrite Hsame in Hfired. now contradiction Hfired.
  - specialize (Hlive id h Ha Hfind).
    destruct (LegacyPlayer.h_onStop h) as [cb|].
    + exists cb. repeat split; assumption.
    + cbn in Hf. rewrite app_nil_r in Hf. now contradiction Hfired.
Qed.

Lemma legacy_callback_belongs_to_live_session_witness :
  exists cb : Sequencer.callback,
    LegacyPlayer.live_session
      [LegacyPlayer.PlaySong [Scenario.g_easy] 120 (Some 7);
       LegacyPlayer.Elapse 6000 6] (Some cb) /\
    LegacyPlayer.fired
      (LegacyPlayer.fire 0
         (LegacyPlayer.run LegacyPlayer.init
            [LegacyPlayer.PlaySong [Scenario.g_easy] 120 (Some 7);
             LegacyPlayer.Elapse 6000 6]))
    = [] ++ [cb].
Proof.
  destruct (legacy_callback_belongs_to_live_session
              [LegacyPlayer.PlaySong [Scenario.g_easy] 120 (Some 7);
               LegacyPlayer.Elapse 6000 6] 0)
    as (cb & Hlive & Hf & _).
  - vm_compute. discriminate.
  - exists cb. split; [exact Hlive | exact Hf].
Defined.

(** X18.  A measure with fewer than five rows makes [playSong] of the
    earlier engine throw after it has set [isPlaying]: no end-of-song
    timer is armed, so the engine stays flagged as playing, and no
    callback is invoked, whatever time passes and whichever timers run,
    until [stopSong] or [playSong] is called. *)
Theorem legacy_short_measure_sticks
    (inputs later : list LegacyPlayer.input)
    (allMeasures : Sequencer.timeline) (bpm : Q)
    (onStop : option Sequencer.callback) :
  Exists (fun m : Sequencer.measure => length m < 5) allMeasures ->
  Forall LegacyPlayer.passive later ->
  let p := LegacyPlayer.run LegacyPlayer.init inputs in
  let p1 := snd (LegacyPlayer.playSong allMeasures bpm onStop p) in
  fst (LegacyPlayer.playSong allMeasures bpm onStop p) = Sequencer.Throw /\
  Legacy.activeTimer (LegacyPlayer.eng p1) = None /\
  Legacy.isPlaying (LegacyPlayer.eng (LegacyPlayer.run p1 later)) = true /\
  Legacy.timers (LegacyPlayer.eng (LegacyPlayer.run p1 later)) = [] /\
  LegacyPlayer.fired (LegacyPlayer.run p1 later) = LegacyPlayer.fired p.
Proof.
  intros Hshort Hlater p p1. subst p p1.
  destruct (legacy_reach_inv inputs) as [Hinv _].
  pose proof (legacy_playSong_outcome allMeasures bpm onStop _ Hinv)
    as (Hf & Hp & Hcase).
  assert (Hthrow : fst (LegacyPlayer.playSong allMeasures bpm onStop
                          (LegacyPlayer.run LegacyPlayer.init inputs))
                   = Sequencer.Throw).
  { pose proof (legacy_measure_loop_throw allMeasures 0
                  (LegacyPlayer.currentTime
                     (LegacyPlayer.begin_song
                        (LegacyPlayer.run LegacyPlayer.init inputs)) + 0.05)%Q
                  (60 / bpm / 4)%Q Hshort) as Ht.
    destruct (LegacyPlayer.measure_loop false allMeasures 0 _ _)
      as [c calls] eqn:E.
    rewrite (legacy_playSong_eq _ _ onStop _ _ _ E).
    cbn in Ht. subst c. reflexivity. }
  rewrite Hthrow in Hcase. destruct Hcase as (Ht & Ha & _ & _).
  split; [exact Hthrow |]. split; [exact Ha |].
  apply (legacy_stuck_run _ later); [exact Hlater |].
  repeat split; assumption.
Qed.

Lemma legacy_short_measure_sticks_witness :
  fst (LegacyPlayer.playSong [Scenario.g_easy; [["0"]]] 120 (Some 7)
         LegacyPlayer.init) = Sequencer.Throw /\
  Legacy.isPlaying
    (LegacyPlayer.eng
       (LegacyPlayer.run
          (snd (LegacyPlayer.playSong [Scenario.g_easy; [["0"]]] 120 (Some 7)
                  LegacyPlayer.init))
          [LegacyPlayer.Elapse 60000 60; LegacyPlayer.Fire 0])) = true.
Proof.
  destruct (legacy_short_measure_sticks []
              [LegacyPlayer.Elapse 60000 60; LegacyPlayer.Fire 0]
              [Scenario.g_easy; [["0"]]] 120 (Some 7))
    as (Hthrow & _ & Hplaying & _).
  - apply Exists_cons_tl, Exists_cons_hd. cbn. lia.
  - repeat constructor.
  - split; [exact Hthrow | exact Hplaying].
Defined.



(** X20.  The two engines pluck the same notes.  For any column of any
    measure, the string loop of the earlier engine and the one of
    [scheduleNote] end the same way (normally, or by the same
    [TypeError] on a missing row) and make the same [pluckString] calls,
    for the same notes, times and decays in the same order; only the
    gain differs, the earlier engine being the louder. *)
Theorem engines_pluck_same_notes
    (m : Sequencer.measure) (pos : nat) (when : Q) (strs : list nat) :
  fst (LegacyPlayer.string_loop m pos when strs)
  = fst (Sequencer.string_loop m pos when strs) /\
  Forall2 LegacyPlayer.same_note_louder
    (snd (LegacyPlayer.string_loop m pos when strs))
    (snd (Sequencer.string_loop m pos when strs)).
Proof.
  induction strs as [|str strs [IHc IHl]]; cbn.
  - split; [reflexivity | constructor].
  - destruct (m !! str) as [row|]; [| split; [reflexivity | constructor]].
    destruct (LegacyPlayer.string_loop m pos when strs) as [c1 l1].
    destruct (Sequencer.string_loop m pos when strs) as [c2 l2].
    cbn in *. split; [exact IHc |].
    apply Forall2_app; [| exact IHl].
    destruct (Sequencer.read_cell (row !! pos)); constructor; [| constructor].
    unfold LegacyPlayer.pluck_of, Sequencer.pluck_of. cbn.
    repeat split; destruct (str =? 4); reflexivity.
Qed.

(* ================================================================== *)
(** * The rendered row and the beat cursor                             *)
(* ================================================================== *)

Section RenderFacts.

Import Render.

Lemma str_app_cons (x : ascii) (a b : string) :
  String x a +:+ b = String x (a +:+ b).
Proof. reflexivity. Qed.

Lemma str_app_nil_l (b : string) : EmptyString +:+ b = b.
Proof. reflexivity. Qed.

Lemma str_length_app (a b : string) :
  String.length (a +:+ b) = String.length a + String.length b.
Proof.
  induction a as [|x a IH]; [reflexivity |].
  rewrite str_app_cons. cbn. now rewrite IH.
Qed.

Lemma str_app_assoc (a b c : string) : (a +:+ b) +:+ c = a +:+ (b +:+ c).
Proof.
  induction a as [|x a IH]; [reflexivity |].
  rewrite !str_app_cons. now rewrite IH.
Qed.

Lemma str_app_nil_r (a : string) : a +:+ EmptyString = a.
Proof.
  induction a as [|x a IH]; [reflexivity |].
  rewrite str_app_cons. now rewrite IH.
Qed.

Lemma substring_all (a : string) : substring 0 (String.length a) a = a.
Proof. induction a as [|x a IH]; cbn; [reflexivity | now rewrite IH]. Qed.

Lemma substring_app_l (n k : nat) (a b : string) :
  n + k <= String.length a -> substring n k (a +:+ b) = substring n k a.
Proof.
  revert n k. induction a as [|x a IH]; intros n k Hk; cbn in Hk.
  - assert (n = 0) as -> by lia. assert (k = 0) as -> by lia.
    rewrite str_app_nil_l. cbn. now destruct b.
  - rewrite str_app_cons. destruct n as [|n]; cbn.
    + destruct k as [|k]; [reflexivity |]. f_equal. apply (IH 0 k). lia.
    + apply IH. lia.
Qed.

Lemma substring_app_r (k : nat) (a b : string) :
  substring (String.length a) k (a +:+ b) = substring 0 k b.
Proof.
  induction a as [|x a IH]; [reflexivity |].
  rewrite str_app_cons. cbn. exact IH.
Qed.

(** A text appended to a line sits at the end of the line. *)
Lemma substring_appended (line v : string) :
  substring (String.length line) (String.length v) (line +:+ v) = v.
Proof. rewrite substring_app_r. apply substring_all. Qed.

Lemma length_pad (n : nat) (fill : ascii) : String.length (pad n fill) = n.
Proof. induction n as [|n IH]; cbn; [reflexivity | now rewrite IH]. Qed.

Lemma length_padEnd (s : string) (n : nat) (fill : ascii) :
  String.length s <= n -> String.length (padEnd s n fill) = n.
Proof.
  intros H. unfold padEnd. rewrite str_length_app, length_pad. lia.
Qed.

(** What the line loop appends for a cell no wider than its column. *)
Lemma padded_cell (c : string) (w : nat) :
  String.length c <= w ->
  (if String.length c <? w then padEnd c w "-" else c) = padEnd c w "-".
Proof.
  intros H. destruct (Nat.ltb_spec (String.length c) w) as [_ | Hge];
    [reflexivity |].
  unfold padEnd. replace (w - String.length c) with 0 by lia.
  cbn [pad]. now rewrite str_app_nil_r.
Qed.

(** ** Column widths *)

Lemma max_width_spec (measure : Sequencer.measure) (pos : nat)
    (strs : list nat) (maxW w : nat) :
  max_width measure pos strs maxW = Some w ->
  maxW <= w /\
  Forall (fun strIdx =>
            exists c : string,
              cell measure strIdx pos = Some c /\ String.length c <= w) strs.
Proof.
  revert maxW. induction strs as [|strIdx strs IH]; intros maxW H;
    cbn [max_width] in H.
  - injection H as <-. split; [lia | constructor].
  - destruct (cell measure strIdx pos) as [c|] eqn:E; [| discriminate].
    cbn -[Nat.ltb] in H. revert H.
    destruct (Nat.ltb_spec maxW (String.length c)) as [Hcmp | Hcmp];
      intros H; apply IH in H as [Hle Hrest]; (split; [lia |]);
      (constructor; [| exact Hrest]); exists c; (split; [exact E | lia]).
Qed.

Lemma max_width_is_Some (measure : Sequencer.measure) (pos : nat)
    (strs : list nat) (maxW : nat) :
  Forall (fun strIdx => is_Some (cell measure strIdx pos)) strs ->
  is_Some (max_width measure pos strs maxW).
Proof.
  intros H. revert maxW. induction H as [|strIdx strs [c Hc] _ IH];
    intros maxW; cbn.
  - now eexists.
  - rewrite Hc. cbn. apply IH.
Qed.

Lemma colWidths_is_Some (measure : Sequencer.measure) :
  full_grid measure -> is_Some (colWidths measure).
Proof.
  intros Hfull. unfold colWidths. apply mapM_is_Some.
  apply Forall_forall. intros pos Hpos. apply max_width_is_Some.
  eapply Forall_impl; [exact Hfull |]. intros strIdx Hrow. cbn in Hrow.
  rewrite Forall_forall in Hrow. now apply Hrow.
Qed.

Lemma measureColWidths_is_Some (measures : list Sequencer.measure) :
  Forall full_grid measures -> is_Some (measureColWidths measures).
Proof.
  intros H. unfold measureColWidths. apply mapM_is_Some.
  eapply Forall_impl; [exact H |]. intros m Hm. now apply colWidths_is_Some.
Qed.

(** The widths [renderMeasureRow] works with: every column is at least
    one character wide and as wide as its widest cell. *)
Lemma measureColWidths_spec (measures : list Sequencer.measure)
    (widths : list (list nat)) (m : nat) (measure : Sequencer.measure)
    (pos : nat) :
  measureColWidths measures = Some widths ->
  measures !! m = Some measure -> pos < 16 ->
  1 <= width widths m pos /\
  Forall (fun strIdx =>
            exists c : string,
              cell measure strIdx pos = Some c /\
              String.length c <= width widths m pos) (seq 0 5).
Proof.
  intros Hw Hm Hpos. unfold measureColWidths in Hw.
  apply mapM_Some in Hw.
  destruct (Forall2_lookup_l _ _ _ _ _ Hw Hm) as (ws & Hws & Hcol).
  unfold colWidths in Hcol. apply mapM_Some in Hcol.
  assert (Hseq : seq 0 16 !! pos = Some pos)
    by (apply lookup_seq; split; [reflexivity | exact Hpos]).
  destruct (Forall2_lookup_l _ _ _ _ _ Hcol Hseq) as (w & Hw' & Hmax).
  assert (Hwidth : width widths m pos = w).
  { unfold width. rewrite (list_lookup_total_correct _ _ _ Hws).
    now rewrite (list_lookup_total_correct _ _ _ Hw'). }
  rewrite Hwidth. now apply max_width_spec in Hmax.
Qed.

(** ** The two position loops, side by side *)

Lemma line_cells_cons (measures : list Sequencer.measure)
    (widths : list (list nat)) (strIdx m pos : nat) (rest : list nat)
    (line : string) (measure : Sequencer.measure) (c : string) :
  measures !! m = Some measure ->
  cell measure strIdx pos = Some c ->
  line_cells measures widths strIdx m (pos :: rest) line =
  line_cells measures widths strIdx m rest
    (line +:+ (if String.length c <? width widths m pos
               then padEnd c (width widths m pos) "-" else c)).
Proof.
  intros Hm Hc. cbn [line_cells]. rewrite Hm.
  cbn -[Nat.ltb String.length padEnd line_cells cell].
  rewrite Hc. reflexivity.
Qed.

Lemma cells_lockstep (measures : list Sequencer.measure)
    (widths : list (list nat)) (strIdx m : nat) (measure : Sequencer.measure) :
  measures !! m = Some measure ->
  forall (poss : list nat) (off : nat) (entry : gmap nat position)
         (line : string),
    NoDup poss ->
    Forall (fun pos => exists c : string,
              cell measure strIdx pos = Some c /\
              String.length c <= width widths m pos) poss ->
    String.length line = off ->
    exists (line' rest : string),
      line_cells measures widths strIdx m poss line = Some line' /\
      line' = line +:+ rest /\
      String.length line' = fst (place_cells widths m poss off entry) /\
      forall (pos : nat) (c : string),
        pos ∈ poss -> cell measure strIdx pos = Some c ->
        exists p : position,
          snd (place_cells widths m poss off entry) !! pos = Some p /\
          widthCh p = width widths m pos /\
          leftCh p + widthCh p <= String.length line' /\
          substring (leftCh p) (widthCh p) line' = padEnd c (widthCh p) "-".
Proof.
  intros Hm poss.
  induction poss as [|pos poss IH]; intros off entry line Hnd Hcells Hlen.
  - exists line, EmptyString. cbn. rewrite str_app_nil_r.
    repeat split; [exact Hlen |]. intros pos c Hpos.
    now apply elem_of_nil in Hpos.
  - apply NoDup_cons in Hnd as [Hfresh Hnd].
    apply Forall_cons in Hcells as [(c & Hc & Hwide) Hcells].
    rewrite (line_cells_cons _ _ _ _ _ _ _ _ _ Hm Hc). cbn [place_cells].
    rewrite (padded_cell c _ Hwide).
    set (w := width widths m pos) in *.
    set (v := padEnd c w "-").
    assert (Hv : String.length v = w) by (now apply length_padEnd).
    destruct (IH (off + w)
                (<[pos := {| leftCh := off; widthCh := w |}]> entry)
                (line +:+ v) Hnd Hcells)
      as (line' & rest & Hline & Hrest & Hlen' & Hboxes).
    { rewrite str_length_app. lia. }
    exists line', (v +:+ rest). split; [exact Hline |].
    split; [now rewrite <- str_app_assoc |]. split; [exact Hlen' |].
    intros pos' c' Hpos' Hc'. apply elem_of_cons in Hpos' as [-> | Hpos'].
    + exists {| leftCh := off; widthCh := w |}. cbn [leftCh widthCh].
      assert (Hkeep : forall (l : list nat) (o : nat) (e : gmap nat position),
                pos ∉ l -> snd (place_cells widths m l o e) !! pos = e !! pos).
      { induction l as [|x l IHl]; intros o e Hx; [reflexivity |].
        cbn [place_cells]. rewrite IHl by (intros ?; apply Hx; now right).
        apply lookup_insert_ne. intros ->. apply Hx. now left. }
      rewrite Hkeep by exact Hfresh. rewrite lookup_insert_eq.
      split; [reflexivity |]. split; [reflexivity |].
      assert (Hc2 : c' = c) by congruence. subst c'.
      assert (Hl : String.length line' = off + w + String.length rest).
      { rewrite Hrest, !str_length_app. lia. }
      split; [lia |].
      rewrite Hrest, substring_app_l by (rewrite str_length_app; lia).
      transitivity (substring (String.length line) (String.length v)
                      (line +:+ v)); [now rewrite Hlen, Hv |].
      apply substring_appended.
    + destruct (Hboxes pos' c' Hpos' Hc') as (p & Hp & Hw & Hfit & Hsub).
      exists p. repeat split; assumption.
Qed.


(** ** The two measure loops, side by side *)

Lemma place_measures_keep (widths : list (list nat)) (chordNames : list string)
    (start g : nat) (ms : list nat) (off : nat) (chordLine : string)
    (ui : tab_positions) :
  Forall (fun m => start + m <> g) ms ->
  snd (place_measures widths chordNames start ms off chordLine ui) !! g
  = ui !! g.
Proof.
  intros H. revert off chordLine ui.
  induction H as [|m ms Hm _ IH]; intros off chordLine ui; [reflexivity |].
  cbn [place_measures].
  destruct (place_cells widths m (seq 0 16) off
              (default ∅ (ui !! (start + m)))) as [off1 entry1].
  rewrite IH. now apply lookup_insert_ne.
Qed.

Lemma measures_lockstep (measures : list Sequencer.measure)
    (widths : list (list nat)) (chordNames : list string)
    (start strIdx : nat) :
  forall (ms : list nat) (off : nat) (chordLine : string)
         (ui : tab_positions) (line : string),
    NoDup ms ->
    Forall (fun m => exists measure : Sequencer.measure,
              measures !! m = Some measure /\
              Forall (fun pos => exists c : string,
                        cell measure strIdx pos = Some c /\
                        String.length c <= width widths m pos) (seq 0 16))
           ms ->
    String.length line = off ->
    exists (line' rest : string),
      line_measures measures widths strIdx ms line = Some line' /\
      line' = line +:+ rest /\
      String.length line' =
        fst (fst (place_measures widths chordNames start ms off chordLine ui)) /\
      forall (m : nat) (measure : Sequencer.measure) (pos : nat) (c : string),
        m ∈ ms -> measures !! m = Some measure -> pos < 16 ->
        cell measure strIdx pos = Some c ->
        exists p : position,
          box (snd (place_measures widths chordNames start ms off chordLine ui))
              (start + m) pos = Some p /\
          widthCh p = width widths m pos /\
          leftCh p + widthCh p <= String.length line' /\
          substring (leftCh p) (widthCh p) line' = padEnd c (widthCh p) "-".
Proof.
  induction ms as [|m ms IH]; intros off chordLine ui line Hnd Hms Hlen.
  - exists line, EmptyString. cbn. rewrite str_app_nil_r.
    repeat split; [exact Hlen |]. intros m measure pos c Hm.
    now apply elem_of_nil in Hm.
  - apply NoDup_cons in Hnd as [Hfresh Hnd].
    apply Forall_cons in Hms as [(measure & Hm & Hcells) Hms].
    cbn [line_measures place_measures].
    destruct (cells_lockstep measures widths strIdx m measure Hm (seq 0 16)
                off (default ∅ (ui !! (start + m))) line
                (NoDup_seq 0 16) Hcells Hlen)
      as (line1 & rest1 & Hline1 & Hrest1 & Hlen1 & Hboxes1).
    destruct (place_cells widths m (seq 0 16) off
                (default ∅ (ui !! (start + m)))) as [off1 entry1].
    cbn [fst snd] in Hlen1, Hboxes1.
    rewrite Hline1. cbn [mbind option_bind].
    destruct (IH (off1 + 1)
                (chordLine +:+
                   padEnd (default EmptyString (chordNames !! m))
                     (off1 + 1 - off) " ")
                (<[start + m := entry1]> ui) (line1 +:+ "|") Hnd Hms)
      as (line' & rest & Hline & Hrest & Hlen' & Hboxes).
    { rewrite str_length_app, Hlen1. reflexivity. }
    exists line', (rest1 +:+ "|" +:+ rest). split; [exact Hline |].
    split; [now rewrite Hrest, Hrest1, !str_app_assoc |].
    split; [exact Hlen' |].
    intros m' measure' pos c Hm' Hmeasure' Hpos Hc.
    apply elem_of_cons in Hm' as [-> | Hm'].
    + assert (measure' = measure) as -> by congruence.
      destruct (Hboxes1 pos c) as (p & Hp & Hw & Hfit & Hsub);
        [apply elem_of_seq; lia | exact Hc |].
      exists p. unfold box. rewrite place_measures_keep.
      2:{ apply Forall_forall. intros m' Hm' E.
          assert (m' = m) as -> by lia. contradiction. }
      unfold tab_positions in *.
      rewrite lookup_insert_eq. cbn [mbind option_bind].
      split; [exact Hp |]. split; [exact Hw |].
      assert (Hl : String.length line' =
                   String.length line1 + 1 + String.length rest).
      { rewrite Hrest, !str_length_app. reflexivity. }
      split; [lia |].
      rewrite Hrest, str_app_assoc, substring_app_l by exact Hfit.
      exact Hsub.
    + now apply (Hboxes m' measure').
Qed.

(** ** The chord line *)

Lemma place_cells_keep (widths : list (list nat)) (m pos : nat)
    (l : list nat) (o : nat) (e : gmap nat position) :
  pos ∉ l -> snd (place_cells widths m l o e) !! pos = e !! pos.
Proof.
  revert o e. induction l as [|x l IHl]; intros o e Hx; [reflexivity |].
  cbn [place_cells]. rewrite IHl by (intros ?; apply Hx; now right).
  apply lookup_insert_ne. intros ->. apply Hx. now left.
Qed.

Lemma place_cells_offset (widths : list (list nat)) (m : nat)
    (l : list nat) (o : nat) (e : gmap nat position) :
  Forall (fun pos => 1 <= width widths m pos) l ->
  o + length l <= fst (place_cells widths m l o e).
Proof.
  intros H. revert o e. induction H as [|pos l Hpos _ IH]; intros o e; cbn.
  - lia.
  - specialize (IH (o + width widths m pos)
                   (<[pos := {| leftCh := o; widthCh := width widths m pos |}]> e)).
    lia.
Qed.

Lemma chord_lockstep (widths : list (list nat)) (chordNames : list string)
    (start : nat) :
  Forall (fun name => String.length name <= 17) chordNames ->
  forall (ms : list nat) (off : nat) (chordLine : string)
         (ui : tab_positions),
    NoDup ms ->
    Forall (fun m => Forall (fun pos => 1 <= width widths m pos) (seq 0 16))
           ms ->
    String.length chordLine = off ->
    String.length
      (snd (fst (place_measures widths chordNames start ms off chordLine ui)))
    = fst (fst (place_measures widths chordNames start ms off chordLine ui)) /\
    (exists rest : string,
       snd (fst (place_measures widths chordNames start ms off chordLine ui))
       = chordLine +:+ rest) /\
    forall m : nat,
      m ∈ ms ->
      exists p : position,
        box (snd (place_measures widths chordNames start ms off chordLine ui))
            (start + m) 0 = Some p /\
        leftCh p + String.length (default EmptyString (chordNames !! m))
        <= String.length
             (snd (fst (place_measures widths chordNames start ms off
                          chordLine ui))) /\
        substring (leftCh p)
          (String.length (default EmptyString (chordNames !! m)))
          (snd (fst (place_measures widths chordNames start ms off chordLine ui)))
        = default EmptyString (chordNames !! m).
Proof.
  intros Hnames.
  induction ms as [|m ms IH]; intros off chordLine ui Hnd Hwide Hlen.
  - cbn. split; [exact Hlen |]. split; [exists EmptyString; now rewrite str_app_nil_r |].
    intros m Hm. now apply elem_of_nil in Hm.
  - apply NoDup_cons in Hnd as [Hfresh Hnd].
    apply Forall_cons in Hwide as [Hwidem Hwide].
    cbn [place_measures].
    pose proof (place_cells_offset widths m (seq 0 16) off
                  (default ∅ (ui !! (start + m))) Hwidem) as Hoff.
    pose proof (place_cells_keep widths m 0 (seq 1 15) (off + width widths m 0)
                  (<[0 := {| leftCh := off; widthCh := width widths m 0 |}]>
                     (default ∅ (ui !! (start + m))))) as Hbox0.
    rewrite lookup_insert_eq in Hbox0.
    change (place_cells widths m (seq 1 15) (off + width widths m 0)
              (<[0 := {| leftCh := off; widthCh := width widths m 0 |}]>
                 (default ∅ (ui !! (start + m)))))
      with (place_cells widths m (seq 0 16) off (default ∅ (ui !! (start + m))))
      in Hbox0.
    specialize (Hbox0 ltac:(intros H0; apply elem_of_seq in H0; lia)).
    destruct (place_cells widths m (seq 0 16) off
                (default ∅ (ui !! (start + m)))) as [off1 entry1].
    cbn [fst snd length] in Hoff, Hbox0. rewrite length_seq in Hoff.
    set (name := default EmptyString (chordNames !! m)).
    assert (Hname : String.length name <= 17).
    { unfold name. destruct (chordNames !! m) as [n|] eqn:E; cbn; [| lia].
      eapply (Forall_lookup_1 _ _ _ _ Hnames E). }
    set (padded := padEnd name (off1 + 1 - off) " ").
    assert (Hpadded : String.length padded = off1 + 1 - off)
      by (apply length_padEnd; lia).
    destruct (IH (off1 + 1) (chordLine +:+ padded)
                (<[start + m := entry1]> ui) Hnd Hwide)
      as (Hlen' & (rest & Hrest) & Hlabels).
    { rewrite str_length_app. lia. }
    split; [exact Hlen' |].
    split; [exists (padded +:+ rest); now rewrite Hrest, str_app_assoc |].
    intros m' Hm'. apply elem_of_cons in Hm' as [-> | Hm'].
    + exists {| leftCh := off; widthCh := width widths m 0 |}.
      cbn [leftCh widthCh]. fold name. split; [| split].
      * unfold box. rewrite place_measures_keep.
        2:{ apply Forall_forall. intros m' Hm' E.
            assert (m' = m) as -> by lia. contradiction. }
        unfold tab_positions in *. rewrite lookup_insert_eq.
        cbn [mbind option_bind]. exact Hbox0.
      * rewrite Hrest, !str_length_app. lia.
      * rewrite Hrest, substring_app_l by (rewrite str_length_app; lia).
        rewrite <- Hlen, substring_app_r. unfold padded, padEnd.
        rewrite substring_app_l by lia. apply substring_all.
    + now apply Hlabels.
Qed.

(** The five lines, from the line of each string. *)
Lemma render_lines (f : nat -> string -> option string)
    (P : nat -> string -> Prop) :
  (forall strIdx : nat, strIdx < 5 ->
     exists line : string,
       f strIdx (STR_NAMES !!! strIdx) = Some line /\ P strIdx line) ->
  exists lines : list string,
    mapM (fun line : option string => line) (imap f STR_NAMES) = Some lines /\
    length lines = 5 /\
    forall (strIdx : nat) (line : string),
      lines !! strIdx = Some line -> P strIdx line.
Proof.
  intros H.
  destruct (H 0) as (l0 & E0 & P0); [lia |].
  destruct (H 1) as (l1 & E1 & P1); [lia |].
  destruct (H 2) as (l2 & E2 & P2); [lia |].
  destruct (H 3) as (l3 & E3 & P3); [lia |].
  destruct (H 4) as (l4 & E4 & P4); [lia |].
  exists [l0; l1; l2; l3; l4]. split; [| split; [reflexivity |]].
  - apply mapM_Some. cbn in *. unfold compose.
    repeat constructor; assumption.
  - intros strIdx line Hl.
    do 5 (destruct strIdx as [|strIdx];
          [cbn in Hl; injection Hl as <-; assumption |]).
    discriminate.
Qed.

Lemma full_grid_cell (measure : Sequencer.measure) (strIdx pos : nat) :
  full_grid measure -> strIdx < 5 -> pos < 16 ->
  is_Some (cell measure strIdx pos).
Proof.
  intros H Hs Hp. unfold full_grid in H. rewrite Forall_forall in H.
  specialize (H strIdx ltac:(apply elem_of_seq; lia)).
  rewrite Forall_forall in H. apply H. apply elem_of_seq. lia.
Qed.

End RenderFacts.

(** The layout of a rendered row, and the boxes it leaves alone. *)
Lemma renderMeasureRow_layout
    (measures : list Sequencer.measure) (chordNames : list string)
    (startMeasureIdx : nat) (ui : Render.tab_positions) :
  Forall Render.full_grid measures ->
  exists (r : Render.rendered) (ui' : Render.tab_positions) (total : nat),
    Render.renderMeasureRow measures chordNames startMeasureIdx ui
      = Some (r, ui') /\
    length (Render.stringLines r) = 5 /\
    Forall (fun line => String.length line = total) (Render.stringLines r) /\
    (forall g : nat,
       g < startMeasureIdx \/ startMeasureIdx + length measures <= g ->
       ui' !! g = ui !! g) /\
    (Forall (fun name => String.length name <= 17) chordNames ->
     String.length (Render.chordLine r) = total /\
     forall m : nat,
       m < length measures ->
       exists p : Render.position,
         Render.box ui' (startMeasureIdx + m) 0 = Some p /\
         substring (Render.leftCh p)
           (String.length (default EmptyString (chordNames !! m)))
           (Render.chordLine r)
         = default EmptyString (chordNames !! m)) /\
    forall (m : nat) (measure : Sequencer.measure) (pos : nat),
      measures !! m = Some measure -> pos < 16 ->
      exists p : Render.position,
        Render.box ui' (startMeasureIdx + m) pos = Some p /\
        1 <= Render.widthCh p /\
        Render.leftCh p + Render.widthCh p <= total /\
        forall (strIdx : nat) (line c : string),
          Render.stringLines r !! strIdx = Some line ->
          Render.cell measure strIdx pos = Some c ->
          String.length c <= Render.widthCh p /\
          substring (Render.leftCh p) (Render.widthCh p) line
          = Render.padEnd c (Render.widthCh p) "-".
Proof.
  intros Hfull.
  destruct (measureColWidths_is_Some measures Hfull) as [widths Hwidths].
  unfold Render.renderMeasureRow. rewrite Hwidths. cbn [mbind option_bind].
  set (ms := seq 0 (length measures)).
  assert (Hcells : forall strIdx : nat, strIdx < 5 ->
    Forall (fun m => exists measure : Sequencer.measure,
              measures !! m = Some measure /\
              Forall (fun pos => exists c : string,
                        Render.cell measure strIdx pos = Some c /\
                        String.length c <= Render.width widths m pos)
                     (seq 0 16)) ms).
  { intros strIdx Hstr. apply Forall_forall. intros m Hm.
    apply elem_of_seq in Hm.
    destruct (lookup_lt_is_Some_2 measures m) as [measure Hmeasure]; [lia |].
    exists measure. split; [exact Hmeasure |].
    apply Forall_forall. intros pos Hpos. apply elem_of_seq in Hpos.
    destruct (measureColWidths_spec measures widths m measure pos Hwidths
                Hmeasure) as [_ Hcol]; [lia |].
    rewrite Forall_forall in Hcol. apply Hcol. apply elem_of_seq. lia. }
  pose proof (fun strIdx (Hstr : strIdx < 5) =>
                measures_lockstep measures widths chordNames startMeasureIdx
                  strIdx ms 2 "  " ui (Render.STR_NAMES !!! strIdx +:+ "|")
                  (NoDup_seq 0 (length measures)) (Hcells strIdx Hstr))
    as Hlock.
  pose proof (fun g H => place_measures_keep widths chordNames startMeasureIdx
                           g ms 2 "  " ui H) as Hframe.
  assert (Hcols : Forall (fun m =>
                    Forall (fun pos => 1 <= Render.width widths m pos)
                           (seq 0 16)) ms).
  { apply Forall_forall. intros m Hm. apply elem_of_seq in Hm.
    destruct (lookup_lt_is_Some_2 measures m) as [measure Hmeasure]; [lia |].
    apply Forall_forall. intros pos Hpos. apply elem_of_seq in Hpos.
    now destruct (measureColWidths_spec measures widths m measure pos Hwidths
                    Hmeasure ltac:(lia)). }
  pose proof (fun Hnames =>
                chord_lockstep widths chordNames startMeasureIdx Hnames ms 2
                  "  " ui (NoDup_seq 0 (length measures)) Hcols eq_refl)
    as Hchord.
  destruct (Render.place_measures widths chordNames startMeasureIdx ms 2 "  " ui)
    as [[total chordLine] ui'].
  cbn [fst snd] in Hlock, Hframe, Hchord.
  destruct (render_lines
              (fun strIdx name =>
                 Render.line_measures measures widths strIdx ms (name +:+ "|"))
              (fun strIdx line =>
                 String.length line = total /\
                 forall (m : nat) (measure : Sequencer.measure) (pos : nat)
                        (c : string),
                   m ∈ ms -> measures !! m = Some measure -> pos < 16 ->
                   Render.cell measure strIdx pos = Some c ->
                   exists p : Render.position,
                     Render.box ui' (startMeasureIdx + m) pos = Some p /\
                     Render.widthCh p = Render.width widths m pos /\
                     Render.leftCh p + Render.widthCh p <= String.length line /\
                     substring (Render.leftCh p) (Render.widthCh p) line
                     = Render.padEnd c (Render.widthCh p) "-"))
    as (lines & Hlines & Hfive & Hall).
  { intros strIdx Hstr.
    destruct (Hlock strIdx Hstr) as (line & rest & Hline & _ & Hlen & Hboxes).
    - do 5 (destruct strIdx as [|strIdx]; [reflexivity |]). lia.
    - exists line. split; [exact Hline |]. split; [exact Hlen | exact Hboxes]. }
  rewrite Hlines. cbn [mbind option_bind].
  eexists _, ui', total. split; [reflexivity |].
  cbn [Render.stringLines Render.chordLine].
  split; [exact Hfive |]. split; [| split; [| split]].
  - apply Forall_lookup_2. intros strIdx line Hl. now apply (Hall strIdx line).
  - intros g Hg. apply Hframe. apply Forall_forall. intros m Hm.
    apply elem_of_seq in Hm. lia.
  - intros Hnames. destruct (Hchord Hnames) as (Hlen & _ & Hlabels).
    split; [exact Hlen |]. intros m Hm.
    destruct (Hlabels m) as (p & Hp & _ & Hsub); [apply elem_of_seq; lia |].
    exists p. split; [exact Hp | exact Hsub].
  - intros m measure pos Hmeasure Hpos.
    assert (Hm : m ∈ ms).
    { apply elem_of_seq. apply lookup_lt_Some in Hmeasure. lia. }
    destruct (measureColWidths_spec measures widths m measure pos Hwidths
                Hmeasure Hpos) as [Hone Hcol].
    assert (Hfullm : Render.full_grid measure)
      by (eapply Forall_lookup_1; eauto).
    destruct (full_grid_cell measure 0 pos Hfullm) as [c0 Hc0]; [lia | lia |].
    destruct (lookup_lt_is_Some_2 lines 0) as [line0 Hline0]; [lia |].
    destruct (Hall 0 line0 Hline0) as [Hlen0 Hboxes0].
    destruct (Hboxes0 m measure pos c0 Hm Hmeasure Hpos Hc0)
      as (p & Hp & Hw & Hfit & _).
    exists p. split; [exact Hp |]. split; [lia |]. split; [lia |].
    intros strIdx line c Hline Hc.
    destruct (Hall strIdx line Hline) as [_ Hboxes].
    destruct (Hboxes m measure pos c Hm Hmeasure Hpos Hc)
      as (p' & Hp' & _ & _ & Hsub).
    assert (p' = p) as -> by congruence.
    split; [| exact Hsub].
    assert (Hstr : strIdx < 5).
    { apply lookup_lt_Some in Hline. lia. }
    rewrite Forall_forall in Hcol.
    destruct (Hcol strIdx) as (c' & Hc' & Hwide); [apply elem_of_seq; lia |].
    assert (c' = c) as -> by congruence. lia.
Qed.


(** X21.  The rendered row is aligned with the boxes of the beat
    cursor.  For measures whose 5 by 16 cells all exist,
    [renderMeasureRow] returns five string lines of one common length,
    and records for every position of every measure a box at least one
    character wide that lies within the lines and in which every one of
    the five lines shows the cell of its string at that position, padded
    with dashes to the width of the box: no cell is cut, and no column
    drifts between the lines. *)
Theorem renderMeasureRow_aligned
    (measures : list Sequencer.measure) (chordNames : list string)
    (startMeasureIdx : nat) (ui : Render.tab_positions) :
  Forall Render.full_grid measures ->
  exists (r : Render.rendered) (ui' : Render.tab_positions) (total : nat),
    Render.renderMeasureRow measures chordNames startMeasureIdx ui
      = Some (r, ui') /\
    length (Render.stringLines r) = 5 /\
    Forall (fun line => String.length line = total) (Render.stringLines r) /\
    forall (m : nat) (measure : Sequencer.measure) (pos : nat),
      measures !! m = Some measure -> pos < 16 ->
      exists p : Render.position,
        Render.box ui' (startMeasureIdx + m) pos = Some p /\
        1 <= Render.widthCh p /\
        Render.leftCh p + Render.widthCh p <= total /\
        forall (strIdx : nat) (line c : string),
          Render.stringLines r !! strIdx = Some line ->
          Render.cell measure strIdx pos = Some c ->
          String.length c <= Render.widthCh p /\
          substring (Render.leftCh p) (Render.widthCh p) line
          = Render.padEnd c (Render.widthCh p) "-".
Proof.
  intros Hfull.
  destruct (renderMeasureRow_layout measures chordNames startMeasureIdx ui
              Hfull) as (r & ui' & total & Hr & Hfive & Hlen & _ & _ & Hboxes).
  exists r, ui', total. repeat split; assumption.
Qed.

Lemma renderMeasureRow_aligned_witness :
  exists (r : Render.rendered) (ui' : Render.tab_positions),
    Render.renderMeasureRow [Scenario.g_easy; Scenario.c_easy] ["G"; "C"] 4 ∅
      = Some (r, ui') /\
    length (Render.stringLines r) = 5.
Proof.
  destruct (renderMeasureRow_aligned [Scenario.g_easy; Scenario.c_easy]
              ["G"; "C"] 4 ∅) as (r & ui' & total & Hr & Hfive & _).
  - repeat constructor; now eexists.
  - exists r, ui'. split; [exact Hr | exact Hfive].
Defined.

(** X24.  The chord labels stand over their measures.  For measures
    whose cells all exist and chord names of at most 17 characters (a
    measure is at least that wide), the chord line is as long as the
    string lines, and the name of each measure (nothing, when the row
    has no name for it) starts at the column of the first position of
    that measure. *)
Theorem renderMeasureRow_chord_labels
    (measures : list Sequencer.measure) (chordNames : list string)
    (startMeasureIdx : nat) (ui : Render.tab_positions) :
  Forall Render.full_grid measures ->
  Forall (fun name => String.length name <= 17) chordNames ->
  exists (r : Render.rendered) (ui' : Render.tab_positions),
    Render.renderMeasureRow measures chordNames startMeasureIdx ui
      = Some (r, ui') /\
    Forall (fun line => String.length line = String.length (Render.chordLine r))
           (Render.stringLines r) /\
    forall m : nat,
      m < length measures ->
      exists p : Render.position,
        Render.box ui' (startMeasureIdx + m) 0 = Some p /\
        substring (Render.leftCh p)
          (String.length (default EmptyString (chordNames !! m)))
          (Render.chordLine r)
        = default EmptyString (chordNames !! m).
Proof.
  intros Hfull Hnames.
  destruct (renderMeasureRow_layout measures chordNames startMeasureIdx ui
              Hfull) as (r & ui' & total & Hr & _ & Hlen & _ & Hchord & _).
  destruct (Hchord Hnames) as [Htotal Hlabels].
  exists r, ui'. split; [exact Hr |]. split; [| exact Hlabels].
  now rewrite Htotal.
Qed.

Lemma renderMeasureRow_chord_labels_witness :
  exists (r : Render.rendered) (ui' : Render.tab_positions),
    Render.renderMeasureRow [Scenario.g_easy; Scenario.c_easy] ["G"; "C"] 4 ∅
      = Some (r, ui') /\
    Forall (fun line => String.length line = String.length (Render.chordLine r))
           (Render.stringLines r).
Proof.
  destruct (renderMeasureRow_chord_labels [Scenario.g_easy; Scenario.c_easy]
              ["G"; "C"] 4 ∅) as (r & ui' & Hr & Hlen & _).
  - repeat constructor; now eexists.
  - repeat constructor; cbn; lia.
  - exists r, ui'. split; [exact Hr | exact Hlen].
Defined.

(* ================================================================== *)
(** * The rows of the tab                                              *)
(* ================================================================== *)

Lemma full_grid_slice4 (start : nat) (allMeasures : list Sequencer.measure) :
  Forall Render.full_grid allMeasures ->
  Forall Render.full_grid (TabView.slice4 start allMeasures).
Proof.
  intros H. unfold TabView.slice4. now apply Forall_take, Forall_drop.
Qed.

Lemma slice4_lookup {A : Type} (start k : nat) (arr : list A) :
  k < 4 -> TabView.slice4 start arr !! k = arr !! (start + k).
Proof.
  intros Hk. unfold TabView.slice4.
  rewrite lookup_take_lt by exact Hk. apply lookup_drop.
Qed.

Lemma length_slice4 {A : Type} (start : nat) (arr : list A) :
  length (TabView.slice4 start arr) <= 4.
Proof. unfold TabView.slice4. rewrite length_take. lia. Qed.

Lemma box_cursor (ui : Render.tab_positions) (measureIdx pos : nat)
    (p : Render.position) :
  Render.box ui measureIdx pos = Some p ->
  TabView.updateVisualBeat ui measureIdx pos
  = TabView.Cursor (measureIdx / 4) p.
Proof.
  unfold Render.box, TabView.updateVisualBeat.
  destruct (ui !! measureIdx) as [entry|]; [| discriminate].
  cbn. now intros ->.
Qed.

(** X22.  The beat cursor tracks the cells of the tab.  For a song of
    measures whose cells all exist, the two rows of [buildTabHTML]
    render, and for each of the first eight measures and each of its
    positions [updateVisualBeat] shows the cursor of the row the measure
    is printed in (row 0 for measures 0 to 3, row 1 for 4 to 7), over
    the box in which every string line of that row shows the cell of
    that measure and position: rendering the second row does not
    disturb the boxes of the first. *)
Theorem beat_cursor_tracks_cells
    (allChords : list string) (allMeasures : list Sequencer.measure) :
  Forall Render.full_grid allMeasures ->
  exists (r0 r1 : Render.rendered) (ui : Render.tab_positions),
    TabView.render_rows allChords allMeasures [0; 1] ∅ = Some ([r0; r1], ui) /\
    forall (measureIdx : nat) (measure : Sequencer.measure) (pos : nat),
      measureIdx < 8 -> allMeasures !! measureIdx = Some measure -> pos < 16 ->
      exists p : Render.position,
        TabView.updateVisualBeat ui measureIdx pos
        = TabView.Cursor (measureIdx / 4) p /\
        1 <= Render.widthCh p /\
        forall (r : Render.rendered) (strIdx : nat) (line c : string),
          [r0; r1] !! (measureIdx / 4) = Some r ->
          Render.stringLines r !! strIdx = Some line ->
          Render.cell measure strIdx pos = Some c ->
          substring (Render.leftCh p) (Render.widthCh p) line
          = Render.padEnd c (Render.widthCh p) "-".
Proof.
  intros Hfull.
  destruct (renderMeasureRow_layout (TabView.slice4 0 allMeasures)
              (TabView.slice4 0 allChords) 0 ∅
              (full_grid_slice4 0 allMeasures Hfull))
    as (r0 & ui0 & total0 & Hr0 & _ & _ & _ & _ & Hboxes0).
  destruct (renderMeasureRow_layout (TabView.slice4 4 allMeasures)
              (TabView.slice4 4 allChords) 4 ui0
              (full_grid_slice4 4 allMeasures Hfull))
    as (r1 & ui1 & total1 & Hr1 & _ & _ & Hframe1 & _ & Hboxes1).
  exists r0, r1, ui1. split.
  - cbn [TabView.render_rows]. change (0 * 4) with 0. change (1 * 4) with 4.
    rewrite Hr0. cbn [mbind option_bind fst snd]. rewrite Hr1. reflexivity.
  - intros measureIdx measure pos Hidx Hmeasure Hpos.
    destruct (Nat.lt_ge_cases measureIdx 4) as [Hrow0 | Hrow1].
    + assert (Hslice : TabView.slice4 0 allMeasures !! measureIdx = Some measure)
        by (rewrite slice4_lookup by exact Hrow0; exact Hmeasure).
      destruct (Hboxes0 measureIdx measure pos Hslice Hpos)
        as (p & Hp & Hone & _ & Hcells).
      assert (Hdiv : measureIdx / 4 = 0) by (apply Nat.div_small; exact Hrow0).
      exists p. split; [| split; [exact Hone |]].
      * apply box_cursor. unfold Render.box in *.
        rewrite Hframe1 by (left; lia). exact Hp.
      * intros r strIdx line c Hr Hline Hc. rewrite Hdiv in Hr.
        injection Hr as <-. now apply (Hcells strIdx line c).
    + assert (Hslice : TabView.slice4 4 allMeasures !! (measureIdx - 4)
                       = Some measure).
      { rewrite slice4_lookup by lia.
        now replace (4 + (measureIdx - 4)) with measureIdx by lia. }
      destruct (Hboxes1 (measureIdx - 4) measure pos Hslice Hpos)
        as (p & Hp & Hone & _ & Hcells).
      replace (4 + (measureIdx - 4)) with measureIdx in Hp by lia.
      assert (Hdiv : measureIdx / 4 = 1).
      { replace measureIdx with (1 * 4 + (measureIdx - 4)) by lia.
        rewrite Nat.div_add_l by lia. rewrite Nat.div_small by lia. lia. }
      exists p. split; [| split; [exact Hone |]].
      * now apply box_cursor.
      * intros r strIdx line c Hr Hline Hc. rewrite Hdiv in Hr.
        injection Hr as <-. now apply (Hcells strIdx line c).
Qed.

Lemma beat_cursor_tracks_cells_witness :
  exists (r0 r1 : Render.rendered) (ui : Render.tab_positions),
    TabView.render_rows ["G"; "C"] [Scenario.g_easy; Scenario.c_easy] [0; 1] ∅
    = Some ([r0; r1], ui).
Proof.
  destruct (beat_cursor_tracks_cells ["G"; "C"]
              [Scenario.g_easy; Scenario.c_easy])
    as (r0 & r1 & ui & Hr & _).
  - repeat constructor; now eexists.
  - exists r0, r1, ui. exact Hr.
Defined.

Lemma grid_ok_full_grid (m : Sequencer.measure) :
  Tab.grid_ok m = true -> Render.full_grid m.
Proof.
  intros H. destruct (grid_ok_shape m H) as [Hlen Hrows].
  apply Forall_forall. intros strIdx Hstr. apply elem_of_seq in Hstr.
  apply Forall_forall. intros pos Hpos. apply elem_of_seq in Hpos.
  unfold Render.cell.
  destruct (lookup_lt_is_Some_2 m strIdx) as [row Hrow];
    [unfold Sequencer.measure in *; lia |].
  unfold Sequencer.measure in *. rewrite Hrow. cbn.
  destruct (Hrows strIdx row Hrow) as [Hlen16 _].
  apply lookup_lt_is_Some_2. lia.
Qed.

(** X23.  Every song of the table can be shown: for each progression of
    [PROGRESSIONS], with the difficulty it is filed under,
    [buildTabHTML] builds its eight measures and renders its two rows
    without an exception, and [updateVisualBeat] finds a cursor box for
    each of the 128 positions of the song. *)
Theorem progressions_render (key difficulty : string)
    (byDifficulty : gmap string (list Song.progression))
    (pool : list Song.progression) (prog : Song.progression) :
  Song.PROGRESSIONS !! key = Some byDifficulty ->
  byDifficulty !! difficulty = Some pool ->
  prog ∈ pool ->
  exists (ms : Sequencer.timeline) (r0 r1 : Render.rendered)
         (ui : Render.tab_positions),
    TabView.buildTab prog difficulty = Some (ms, [r0; r1], ui) /\
    length ms = 8 /\
    forall measureIdx pos : nat,
      measureIdx < 8 -> pos < 16 ->
      exists p : Render.position,
        TabView.updateVisualBeat ui measureIdx pos
        = TabView.Cursor (measureIdx / 4) p.
Proof.
  intros Hk Hd Hin.
  destruct (progressions_pools _ _ _ _ _ Hk Hd Hin) as (_ & _ & Hlen & Hknown).
  unfold TabView.buildTab, Song.allMeasures.
  destruct (generate_from_spec (Song.chords prog ++ Song.chords prog)
              difficulty 0) as (ms & Hms & Hl & Hall).
  { apply Forall_app. auto. }
  rewrite Hms. cbn [mbind option_bind].
  assert (Hfull : Forall Render.full_grid ms).
  { eapply Forall_impl; [exact Hall |]. apply grid_ok_full_grid. }
  assert (H8 : length ms = 8) by (rewrite Hl, length_app; lia).
  destruct (renderMeasureRow_layout (TabView.slice4 0 ms)
              (TabView.slice4 0 (Song.chords prog ++ Song.chords prog)) 0 ∅
              (full_grid_slice4 0 ms Hfull))
    as (r0 & ui0 & total0 & Hr0 & _ & _ & _ & _ & Hboxes0).
  destruct (renderMeasureRow_layout (TabView.slice4 4 ms)
              (TabView.slice4 4 (Song.chords prog ++ Song.chords prog)) 4 ui0
              (full_grid_slice4 4 ms Hfull))
    as (r1 & ui1 & total1 & Hr1 & _ & _ & Hframe1 & _ & Hboxes1).
  exists ms, r0, r1, ui1. split; [| split; [exact H8 |]].
  - cbn [TabView.render_rows]. change (0 * 4) with 0. change (1 * 4) with 4.
    rewrite Hr0. cbn [mbind option_bind fst snd]. rewrite Hr1. reflexivity.
  - intros measureIdx pos Hidx Hpos.
    destruct (lookup_lt_is_Some_2 ms measureIdx) as [measure Hmeasure];
      [lia |].
    destruct (Nat.lt_ge_cases measureIdx 4) as [Hrow0 | Hrow1].
    + assert (Hslice : TabView.slice4 0 ms !! measureIdx = Some measure)
        by (rewrite slice4_lookup by exact Hrow0; exact Hmeasure).
      destruct (Hboxes0 measureIdx measure pos Hslice Hpos) as (p & Hp & _).
      exists p. apply box_cursor. unfold Render.box in *.
      rewrite Hframe1 by (left; lia). exact Hp.
    + assert (Hslice : TabView.slice4 4 ms !! (measureIdx - 4) = Some measure).
      { rewrite slice4_lookup by lia.
        now replace (4 + (measureIdx - 4)) with measureIdx by lia. }
      destruct (Hboxes1 (measureIdx - 4) measure pos Hslice Hpos)
        as (p & Hp & _).
      replace (4 + (measureIdx - 4)) with measureIdx in Hp by lia.
      exists p. now apply box_cursor.
Qed.

Lemma progressions_render_witness :
  exists (ms : Sequencer.timeline) (r0 r1 : Render.rendered)
         (ui : Render.tab_positions),
    TabView.buildTab {| Song.title := "Forest Song";
                        Song.chords := ["D"; "G"; "C"; "D7"] |} "medium"
    = Some (ms, [r0; r1], ui) /\
    length ms = 8.
Proof.
  destruct (progressions_render "D" "medium"
              (<["easy" :=
                  [ {| Song.title := "Dusty Trail";
                       Song.chords := ["D"; "G"; "D"; "G"] |};
                    {| Song.title := "High Country";
                       Song.chords := ["D"; "D"; "G"; "D"] |};
                    {| Song.title := "Ridge Path";
                       Song.chords := ["D"; "G"; "C"; "G"] |} ]]>
               (<["medium" :=
                   [ {| Song.title := "Pine Ridge";
                        Song.chords := ["D"; "Em"; "G"; "D7"] |};
                     {| Song.title := "Blue Mountain";
                        Song.chords := ["D"; "G"; "Em"; "D"] |};
                     {| Song.title := "Forest Song";
                        Song.chords := ["D"; "G"; "C"; "D7"] |} ]]> ∅))
              [ {| Song.title := "Pine Ridge";
                   Song.chords := ["D"; "Em"; "G"; "D7"] |};
                {| Song.title := "Blue Mountain";
                   Song.chords := ["D"; "G"; "Em"; "D"] |};
                {| Song.title := "Forest Song";
                   Song.chords := ["D"; "G"; "C"; "D7"] |} ]
              {| Song.title := "Forest Song";
                 Song.chords := ["D"; "G"; "C"; "D7"] |})
    as (ms & r0 & r1 & ui & Hb & H8 & _).
  - vm_compute. reflexivity.
  - vm_compute. reflexivity.
  - do 2 right. left.
  - exists ms, r0, r1, ui. split; [exact Hb | exact H8].
Defined.

(* ================================================================== *)
(** * What a session of an accepted song schedules                     *)
(* ================================================================== *)



(** X3.  Along any run from the fresh engine whose songs are ones the
    synthesizers accept, the calls of [scheduleNote] made for the
    current session are exactly the grid positions from (0, 0) up to,
    and without, the current one, each once and in order: no position
    is skipped and none is scheduled twice.  The position pointer never
    passes the end of the timeline, and no scheduling pass ends in an
    exception. *)
Theorem every_position_scheduled_once (inputs : list Sequencer.input) :
  Score.songs_ok inputs ->
  exists st : Sequencer.state,
    Sequencer.run Sequencer.init inputs = Some st /\
    Shape.note_position <$> Sequencer.notes st =
      Shape.grid_position <$>
        seq 0 (Session.grid_index (Sequencer.currentMeasure st)
                                  (Sequencer.currentPos st)) /\
    Session.grid_index (Sequencer.currentMeasure st) (Sequencer.currentPos st)
      <= 16 * length (Sequencer.currentMeasures st) /\
    exists st' : Sequencer.state,
      Sequencer.scheduler st = Some (Sequencer.Normal, st').
Proof.
  intros Hok.
  destruct (run_total inputs Sequencer.init) as [st Hrun]; [cbn; lia |].
  exists st. split; [exact Hrun |].
  destruct (complete_so_far_run inputs st (songs_ok_timeline inputs Hok) Hrun)
    as (Hrows & Hpos & Hle & Hnotes).
  split; [exact Hnotes |]. split; [exact Hle |].
  destruct (scheduler_total st Hpos) as [[c st'] Hs].
  exists st'. rewrite Hs. do 2 f_equal.
  rewrite scheduler_unfold in Hs.
  now apply scheduler_loop_normal in Hs.
Qed.

Lemma every_position_scheduled_once_witness :
  exists st : Sequencer.state,
    Sequencer.run Sequencer.init Scenario.two_measures = Some st /\
    Shape.note_position <$> Sequencer.notes st =
      Shape.grid_position <$>
        seq 0 (Session.grid_index (Sequencer.currentMeasure st)
                                  (Sequencer.currentPos st)) /\
    Session.grid_index (Sequencer.currentMeasure st) (Sequencer.currentPos st)
      <= 16 * length (Sequencer.currentMeasures st) /\
    exists st' : Sequencer.state,
      Sequencer.scheduler st = Some (Sequencer.Normal, st').
Proof.
  apply (every_position_scheduled_once Scenario.two_measures).
  vm_compute. reflexivity.
Defined.

(* ================================================================== *)
(** * The feedback loop, cell by cell                                  *)
(* ================================================================== *)

Section KarplusStrongCells.

Import KarplusStrong.

Variable random : nat -> Q.
Variables (decay : Q) (bufLen totalSamples : nat).

Local Abbreviation run := (ks_run random decay bufLen totalSamples).

Lemma next_index_mod (n : nat) :
  0 < bufLen ->
  next_index (Some (n mod bufLen)) bufLen = Some ((n + 1) mod bufLen).
Proof.
  intros Hpos. unfold next_index.
  destruct (Nat.eqb_spec bufLen 0) as [-> | _]; [lia |].
  now rewrite Nat.Div0.add_mod_idemp_l.
Qed.

Lemma ks_body_cells (n : nat) (s : ks_state) (cur next : Q) :
  0 < bufLen ->
  ptr s = Some (n mod bufLen) ->
  delay s !! (n mod bufLen) = Some (Some cur) ->
  delay s !! ((n + 1) mod bufLen) = Some (Some next) ->
  delay (ks_body decay bufLen n s) =
    <[n mod bufLen := Some (decay * 0.5 * (cur + next))%Q]> (delay s) /\
  ptr (ks_body decay bufLen n s) = Some ((n + 1) mod bufLen).
Proof.
  intros Hpos Hptr Hcur Hnext. unfold ks_body. cbn [delay ptr].
  rewrite Hptr, (next_index_mod n Hpos). unfold read, write.
  unfold sample in *. rewrite Hcur, Hnext. split; reflexivity.
Qed.

(** With a delay line of at least one cell, every cell holds a number
    at every iteration. *)
Lemma ks_run_delay_numbers (n : nat) :
  0 < bufLen ->
  forall i : nat, i < bufLen ->
    exists q : Q, delay (run n) !! i = Some (Some q).
Proof.
  intros Hpos. induction n as [|n IH]; intros i Hi.
  - eexists. now apply seed_noise_lookup.
  - destruct (IH (n mod bufLen)) as [cur Hcur];
      [now apply Nat.mod_upper_bound, Nat.neq_0_lt_0 |].
    destruct (IH ((n + 1) mod bufLen)) as [next Hnext];
      [now apply Nat.mod_upper_bound, Nat.neq_0_lt_0 |].
    rewrite ks_run_S.
    destruct (ks_body_cells n (run n) cur next Hpos
                (ks_run_ptr random decay bufLen totalSamples n Hpos) Hcur Hnext)
      as [-> _].
    destruct (decide (i = n mod bufLen)) as [-> | Hne].
    + eexists. apply list_lookup_insert_eq.
      rewrite ks_run_delay_length.
      now apply Nat.mod_upper_bound, Nat.neq_0_lt_0.
    + rewrite list_lookup_insert_ne by congruence. now apply IH.
Qed.

(** One iteration of the loop, cell by cell. *)
Lemma ks_run_step (n : nat) :
  0 < bufLen -> n < totalSamples ->
  exists cur next : Q,
    ptr (run n) = Some (n mod bufLen) /\
    delay (run n) !! (n mod bufLen) = Some (Some cur) /\
    delay (run n) !! ((n + 1) mod bufLen) = Some (Some next) /\
    out (run totalSamples) !! n = Some (Some cur) /\
    delay (run (S n)) =
      <[n mod bufLen := Some (decay * 0.5 * (cur + next))%Q]> (delay (run n)) /\
    ptr (run (S n)) = Some ((n + 1) mod bufLen).
Proof.
  intros Hpos Hn.
  pose proof (ks_run_ptr random decay bufLen totalSamples n Hpos) as Hptr.
  destruct (ks_run_delay_numbers n Hpos (n mod bufLen)) as [cur Hcur];
    [now apply Nat.mod_upper_bound, Nat.neq_0_lt_0 |].
  destruct (ks_run_delay_numbers n Hpos ((n + 1) mod bufLen)) as [next Hnext];
    [now apply Nat.mod_upper_bound, Nat.neq_0_lt_0 |].
  exists cur, next. split; [exact Hptr |]. split; [exact Hcur |].
  split; [exact Hnext |]. split.
  - pose proof (ks_run_out_lookup random decay bufLen totalSamples
                  totalSamples n Hn Hn) as Hout.
    rewrite Hptr in Hout. unfold read in Hout. unfold sample in *.
    rewrite Hcur in Hout. exact Hout.
  - rewrite ks_run_S. now apply ks_body_cells.
Qed.

End KarplusStrongCells.

(** C7.  [pluckString] on a context of positive sample rate, for a
    positive frequency and [Math.random] in [0, 1), builds its buffer:
    the delay line has [Math.round(sampleRate / freq)] cells, the
    nearest integer, and is seeded with [random i * 2 - 1], numbers
    between -1 and 1.  When the line has at least one cell, iteration
    [n] of the loop reads two numbers, [cur] under the pointer
    [n mod N] and [next] in the cell after it, circularly; sample [n]
    of the buffer is [cur]; the cell under the pointer, and no other,
    then becomes [decay * 0.5 * (cur + next)]; and the pointer moves to
    the next cell.  When the line has no cell, every sample is [NaN].
    The buffer is complete when the function returns and holds at least
    three seconds of samples. *)
Theorem pluckString_karplus_strong
    (random : nat -> Q) (sampleRate freq gain when decay : Q) :
  (forall i : nat, 0 <= random i /\ random i < 1)%Q ->
  (0 < sampleRate)%Q ->
  (0 < freq)%Q ->
  exists p : KarplusStrong.pluck,
    KarplusStrong.pluckString random sampleRate freq gain when decay = Some p /\
    let N := KarplusStrong.p_bufLen p in
    let T := KarplusStrong.p_totalSamples p in
    let state_at := KarplusStrong.ks_run random decay N T in
    Z.of_nat N = JS.Math_round (sampleRate / freq) /\
    (sampleRate / freq - (1 # 2) < inject_Z (Z.of_nat N) /\
     inject_Z (Z.of_nat N) <= sampleRate / freq + (1 # 2))%Q /\
    length (KarplusStrong.p_seed p) = N /\
    KarplusStrong.delay (state_at 0) = KarplusStrong.p_seed p /\
    KarplusStrong.ptr (state_at 0) = Some 0 /\
    (forall i : nat, i < N ->
       KarplusStrong.p_seed p !! i = Some (Some (random i * 2 - 1)%Q) /\
       (-1 <= random i * 2 - 1 /\ random i * 2 - 1 <= 1)%Q) /\
    (0 < N ->
     forall n : nat, n < T ->
       exists cur next : Q,
         KarplusStrong.ptr (state_at n) = Some (n mod N) /\
         KarplusStrong.delay (state_at n) !! (n mod N) = Some (Some cur) /\
         KarplusStrong.delay (state_at n) !! ((n + 1) mod N)
           = Some (Some next) /\
         KarplusStrong.p_buffer p !! n = Some (Some cur) /\
         KarplusStrong.delay (state_at (S n)) =
           <[n mod N := Some (decay * 0.5 * (cur + next))%Q]>
             (KarplusStrong.delay (state_at n)) /\
         KarplusStrong.ptr (state_at (S n)) = Some ((n + 1) mod N)) /\
    (N = 0 ->
     forall n : nat, n < T -> KarplusStrong.p_buffer p !! n = Some None) /\
    length (KarplusStrong.p_buffer p) = T /\
    (3 * sampleRate <= inject_Z (Z.of_nat T))%Q /\
    KarplusStrong.p_gain p = gain /\
    KarplusStrong.p_when p = when.
Proof.
  intros Hrand Hsr Hfreq.
  pose proof (Qdiv_pos _ _ Hsr Hfreq) as Hq.
  pose proof (Math_round_nearest (sampleRate / freq)) as [Hlo Hhi].
  assert (HN : (0 <= JS.Math_round (sampleRate / freq))%Z).
  { unfold JS.Math_round.
    change 0%Z with (Qfloor 0). apply Qfloor_resp_le. lraQ. }
  pose proof (Qle_ceiling (sampleRate * 3)) as Hceil.
  assert (HC : (0 <= JS.Math_ceil (sampleRate * 3))%Z).
  { unfold JS.Math_ceil. change 0%Z with (Qceiling 0).
    apply Qceiling_resp_le. lraQ. }
  unfold KarplusStrong.pluckString.
  destruct (Qeq_bool freq 0) eqn:E.
  { apply Qeq_bool_iff in E. lraQ. }
  destruct ((JS.Math_round (sampleRate / freq) <? 0)%Z) eqn:E1; [lia |].
  destruct ((JS.Math_ceil (sampleRate * 3)
             + JS.Math_round (sampleRate / freq) * 2 <? 0)%Z) eqn:E2; [lia |].
  cbn [orb].
  eexists. split; [reflexivity |]. cbn zeta. cbn [KarplusStrong.p_bufLen
    KarplusStrong.p_totalSamples KarplusStrong.p_seed KarplusStrong.p_buffer
    KarplusStrong.p_gain KarplusStrong.p_when].
  rewrite !Z2Nat.id by lia.
  split; [reflexivity |]. split; [split; [exact Hlo | exact Hhi] |].
  split; [unfold KarplusStrong.seed_noise; now rewrite length_fmap, length_seq |].
  split; [reflexivity |]. split; [reflexivity |].
  split.
  { intros i Hi. split; [now apply seed_noise_lookup |].
    destruct (Hrand i). split; lraQ. }
  split; [intros Hpos n Hn; now apply ks_run_step |].
  split.
  { intros H0 n Hn. rewrite H0. now apply ks_run_no_delay_line. }
  split; [apply ks_run_out_length |].
  split; [| split; reflexivity].
  rewrite inject_Z_plus, inject_Z_mult. unfold JS.Math_ceil in *.
  assert (0 <= inject_Z (JS.Math_round (sampleRate / freq)))%Q.
  { change 0%Q with (inject_Z 0). now rewrite <- Zle_Qle. }
  change (inject_Z 2) with 2%Q. lraQ.
Qed.

Lemma pluckString_karplus_strong_witness :
  exists p : KarplusStrong.pluck,
    KarplusStrong.pluckString (fun i => (inject_Z (Z.of_nat (i mod 7)) / 7)%Q)
      44100 440 0.45%Q 0.1%Q 0.994%Q = Some p /\
    Z.of_nat (KarplusStrong.p_bufLen p) = 100%Z /\
    length (KarplusStrong.p_buffer p) = KarplusStrong.p_totalSamples p /\
    KarplusStrong.p_buffer p !! 1
    = Some (Some (inject_Z (Z.of_nat (1 mod 7)) / 7 * 2 - 1)%Q).
Proof.
  destruct (pluckString_karplus_strong
              (fun i => (inject_Z (Z.of_nat (i mod 7)) / 7)%Q)
              44100 440 0.45%Q 0.1%Q 0.994%Q)
    as (p & Hp & HN & _ & _ & Hseed0 & _ & Hseed & Hstep & _ & Hlen & HT & _).
  - intros i. split.
    + apply Qle_shift_div_l; [reflexivity |]. rewrite Qmult_0_l.
      change 0%Q with (inject_Z 0). rewrite <- Zle_Qle. lia.
    + apply Qlt_shift_div_r; [reflexivity |]. rewrite Qmult_1_l.
      change 7%Q with (inject_Z 7). rewrite <- Zlt_Qlt.
      pose proof (Nat.mod_upper_bound i 7). lia.
  - reflexivity.
  - reflexivity.
  - exists p. split; [exact Hp |]. split; [exact HN |]. split; [exact Hlen |].
    cbv zeta in *.
    assert (H100 : KarplusStrong.p_bufLen p = 100)
      by (apply Nat2Z.inj; exact HN).
    rewrite H100 in *.
    assert (HT1 : 1 < KarplusStrong.p_totalSamples p).
    { assert (Hq : (inject_Z 2 <= inject_Z (Z.of_nat (KarplusStrong.p_totalSamples p)))%Q).
      { change (inject_Z 2) with 2%Q.
        eapply Qle_trans; [| exact HT]. discriminate. }
      rewrite <- Zle_Qle in Hq. lia. }
    destruct (Hstep ltac:(lia) 0 ltac:(lia))
      as (c0 & n0 & _ & _ & Hn0 & _ & Hd1 & _).
    destruct (Hstep ltac:(lia) 1 HT1) as (c1 & n1 & _ & Hc1 & _ & Hb1 & _).
    rewrite Hd1 in Hc1.
    change (0 mod 100) with 0 in Hc1. change (1 mod 100) with 1 in Hc1.
    rewrite list_lookup_insert_ne in Hc1 by lia.
    rewrite Hseed0 in Hc1.
    destruct (Hseed 1 ltac:(lia)) as [Hs1 _].
    unfold KarplusStrong.sample in *. congruence.
Defined.

(* ================================================================== *)
(** * A wake-up that outlives its session                              *)
(* ================================================================== *)

(** C4 does not hold of the engine.  [stopSong] cancels the wake-up
    [timerID] names and no other.  After [Scenario.stale_drain] the
    natural-end timer of a stopped session has cleared [isPlaying] while
    the wake-up of the running session (timer 225) is pending.  The
    user, told that playback has ended, starts a song: [playSong] sees
    no session to stop, schedules nothing in its first pass and arms
    wake-up 226 in [timerID].  The user stops at once: wake-up 226 is
    cancelled, the audio context is closed, and wake-up 225 is still
    pending.  It runs 25 ms later on a fresh context and arms wake-up
    227, which four seconds later schedules the first four positions of
    the song that was stopped: a metronome click and the four strings of
    the strum, while [isPlaying] is false; and it arms the next
    wake-up. *)
Theorem stop_leaves_stale_wakeup :
  exists st0 st1 st2 : Sequencer.state,
    Sequencer.run Sequencer.init Scenario.stale_drain = Some st0 /\
    Sequencer.isPlaying st0 = false /\
    Sequencer.timers st0 =
      [{| Sequencer.tid := 225; Sequencer.due := 5625;
          Sequencer.action := Sequencer.RunScheduler |}] /\
    Sequencer.run st0 Lifecycle.start_then_stop = Some st1 /\
    Sequencer.isPlaying st1 = false /\
    Sequencer.audioCtx st1 = None /\
    Sequencer.session_calls st1 = [] /\
    Sequencer.timerID st1 = Some 226 /\
    Sequencer.timers st1 =
      [{| Sequencer.tid := 225; Sequencer.due := 5625;
          Sequencer.action := Sequencer.RunScheduler |}] /\
    Sequencer.run st1 Lifecycle.after_the_stop = Some st2 /\
    Sequencer.isPlaying st2 = false /\
    Sequencer.is_click <$> Sequencer.session_calls st2
      = [true; false; false; false; false] /\
    (Sequencer.currentMeasure st2, Sequencer.currentPos st2) = (0, 4) /\
    Sequencer.timers st2 =
      [{| Sequencer.tid := 228; Sequencer.due := 9650;
          Sequencer.action := Sequencer.RunScheduler |}].
Proof.
  eexists. eexists. eexists.
  split; [vm_compute; reflexivity |].
  do 2 (split; [reflexivity |]).
  split; [vm_compute; reflexivity |].
  do 5 (split; [reflexivity |]).
  split; [vm_compute; reflexivity |].
  split; [reflexivity |]. split; [reflexivity |].
  split; reflexivity.
Qed.

